(** * Session run coordinator: follow-up queue, session store, idempotent submit

  A shallow embedding of the queueing core of the gateway
  ([auto-reply/reply/queue.ts]), of the session store
  ([config/sessions.ts]), of the [agent] gateway method
  ([gateway/server-methods/agent.ts]) and of the session-initialisation
  and heartbeat paths, followed by the properties proved about them.

  JavaScript numbers are modelled by [Z] (only integral values occur in
  the code paths covered here), [Date.now()] is an explicit argument
  [now], and objects mutated in place are threaded as explicit state. *)

From Stdlib Require Import ZArith NArith Ascii String DecimalString List Lia Bool.
From stdpp Require Import base decidable option list gmap strings.

Local Open Scope Z_scope.

(** ** JavaScript strings

  A JavaScript string is a sequence of UTF-16 code units; [length],
  [slice] and [trim] count code units, so text handled by the queue is
  a [list N] rather than a byte string. *)
Module Js.

Abbreviation jsstring := (list N).

(** An ASCII literal as a JavaScript string. *)
Definition lit (s : string) : jsstring :=
  List.map N_of_ascii (list_ascii_of_string s).

Definition LF : N := 10%N.
Definition SPACE : N := 32%N.
(** U+2026 HORIZONTAL ELLIPSIS, one code unit. *)
Definition ELLIPSIS : N := 8230%N.

(** ECMAScript WhiteSpace and LineTerminator: the class [\s] of regular
    expressions and the characters removed by [trim]. *)
Definition isWhite (c : N) : bool :=
  ((9 <=? c) && (c <=? 13) || (c =? 32) || (c =? 160) || (c =? 5760)
   || (8192 <=? c) && (c <=? 8202) || (c =? 8232) || (c =? 8233)
   || (c =? 8239) || (c =? 8287) || (c =? 12288) || (c =? 65279))%N.

Fixpoint dropWhile {A} (p : A -> bool) (l : list A) : list A :=
  match l with
  | [] => []
  | x :: l' => if p x then dropWhile p l' else l
  end.

Definition trimStart (s : jsstring) : jsstring := dropWhile isWhite s.
Definition trimEnd (s : jsstring) : jsstring := rev (dropWhile isWhite (rev s)).
Definition trim (s : jsstring) : jsstring := trimEnd (trimStart s).

(** [s.replace(/\s+/g, " ")]: every maximal run of white space becomes
    one space. [inRun] records that the previous unit was white. *)
Fixpoint collapseFrom (inRun : bool) (s : jsstring) : jsstring :=
  match s with
  | [] => []
  | c :: s' =>
      if isWhite c
      then (if inRun then collapseFrom true s' else SPACE :: collapseFrom true s')
      else c :: collapseFrom false s'
  end.
Definition collapseWhite (s : jsstring) : jsstring := collapseFrom false s.

(** [parts.join(sep)]. *)
Fixpoint join (sep : jsstring) (parts : list jsstring) : jsstring :=
  match parts with
  | [] => []
  | [p] => p
  | p :: rest => p ++ sep ++ join sep rest
  end.

(** [String(n)] for an integral number. *)
Definition numToString (n : Z) : jsstring :=
  lit (NilZero.string_of_int (Z.to_int n)).

(** Truthiness of an optional string: [undefined] and [""] are falsy. *)
Definition truthy (s : option jsstring) : bool :=
  match s with
  | Some (_ :: _) => true
  | _ => false
  end.

(** [a || b] on optional strings whose right operand is a string. *)
Definition orElse (a : option jsstring) (b : jsstring) : jsstring :=
  match a with
  | Some (c :: s) => c :: s
  | _ => b
  end.

End Js.

Import Js.

(** ** The follow-up queue ([auto-reply/reply/queue.ts]) *)
Module FollowupQueue.

Inductive QueueMode :=
| Steer | Followup | Collect | SteerBacklog | Interrupt | QueueLegacy.

Inductive QueueDropPolicy := DropOld | DropNew | DropSummarize.

Inductive QueueDedupeMode := DedupeMessageId | DedupePrompt | DedupeNone.

#[global] Instance QueueMode_eq_dec : EqDecision QueueMode.
Proof. solve_decision. Defined.
#[global] Instance QueueDropPolicy_eq_dec : EqDecision QueueDropPolicy.
Proof. solve_decision. Defined.
#[global] Instance QueueDedupeMode_eq_dec : EqDecision QueueDedupeMode.
Proof. solve_decision. Defined.

Record QueueSettings := {
  s_mode : QueueMode;
  s_debounceMs : option Z;
  s_cap : option Z;
  s_dropPolicy : option QueueDropPolicy;
}.

(** The [run] member of a [FollowupRun]: the parameters resolved when the
    item was scheduled. The configuration object, the skills snapshot and
    the level overrides travel with it untouched and are left out. *)
Record RunParams := {
  agentId : string;
  agentDir : string;
  sessionId : string;
  sessionKey : option string;
  sessionFile : string;
  workspaceDir : string;
  provider : string;
  model : string;
  timeoutMs : Z;
}.

Record FollowupRun := {
  prompt : jsstring;
  messageId : option jsstring;
  summaryLine : option jsstring;
  enqueuedAt : Z;
  originatingChannel : option jsstring;
  originatingTo : option jsstring;
  originatingAccountId : option jsstring;
  originatingThreadId : option Z;
  run : RunParams;
}.

#[global] Instance RunParams_eq_dec : EqDecision RunParams.
Proof. solve_decision. Defined.
#[global] Instance FollowupRun_eq_dec : EqDecision FollowupRun.
Proof. solve_decision. Defined.

Record FollowupQueueState := {
  items : list FollowupRun;
  draining : bool;
  lastEnqueuedAt : Z;
  mode : QueueMode;
  debounceMs : Z;
  cap : Z;
  dropPolicy : QueueDropPolicy;
  droppedCount : Z;
  summaryLines : list jsstring;
  lastRun : option RunParams;
}.

Definition DEFAULT_QUEUE_DEBOUNCE_MS : Z := 1000.
Definition DEFAULT_QUEUE_CAP : Z := 20.
Definition DEFAULT_QUEUE_DROP : QueueDropPolicy := DropSummarize.

(** Field assignments on a queue object. *)
Definition setItems (q : FollowupQueueState) (v : list FollowupRun) :=
  {| items := v; draining := draining q; lastEnqueuedAt := lastEnqueuedAt q;
     mode := mode q; debounceMs := debounceMs q; cap := cap q;
     dropPolicy := dropPolicy q; droppedCount := droppedCount q;
     summaryLines := summaryLines q; lastRun := lastRun q |}.
Definition setDraining (q : FollowupQueueState) (v : bool) :=
  {| items := items q; draining := v; lastEnqueuedAt := lastEnqueuedAt q;
     mode := mode q; debounceMs := debounceMs q; cap := cap q;
     dropPolicy := dropPolicy q; droppedCount := droppedCount q;
     summaryLines := summaryLines q; lastRun := lastRun q |}.
Definition setEnqueued (q : FollowupQueueState) (t : Z) (r : RunParams) :=
  {| items := items q; draining := draining q; lastEnqueuedAt := t;
     mode := mode q; debounceMs := debounceMs q; cap := cap q;
     dropPolicy := dropPolicy q; droppedCount := droppedCount q;
     summaryLines := summaryLines q; lastRun := Some r |}.
Definition setSettings (q : FollowupQueueState) (m : QueueMode) (d c : Z)
    (p : QueueDropPolicy) :=
  {| items := items q; draining := draining q; lastEnqueuedAt := lastEnqueuedAt q;
     mode := m; debounceMs := d; cap := c;
     dropPolicy := p; droppedCount := droppedCount q;
     summaryLines := summaryLines q; lastRun := lastRun q |}.
Definition setDropped (q : FollowupQueueState) (n : Z) (ls : list jsstring) :=
  {| items := items q; draining := draining q; lastEnqueuedAt := lastEnqueuedAt q;
     mode := mode q; debounceMs := debounceMs q; cap := cap q;
     dropPolicy := dropPolicy q; droppedCount := n;
     summaryLines := ls; lastRun := lastRun q |}.

(** [elideText(text, limit)]. *)
Definition elideText (text : jsstring) (limit : nat) : jsstring :=
  if (length text <=? limit)%nat then text
  else trimEnd (take (limit - 1) text) ++ [ELLIPSIS].

(** [buildQueueSummaryLine(run)]. *)
Definition buildQueueSummaryLine (r : FollowupRun) : jsstring :=
  let base := orElse (trim <$> summaryLine r) (trim (prompt r)) in
  let cleaned := trim (collapseWhite base) in
  elideText cleaned 160.

(** The settings part of [getFollowupQueue]: the object registered under
    the key after the call, given the one registered before (if any). *)
Definition applySettings (existing : option FollowupQueueState)
    (settings : QueueSettings) : FollowupQueueState :=
  match existing with
  | Some q =>
      setSettings q (s_mode settings)
        (match s_debounceMs settings with
         | Some d => Z.max 0 d
         | None => debounceMs q
         end)
        (match s_cap settings with
         | Some c => if 0 <? c then c else cap q
         | None => cap q
         end)
        (default (dropPolicy q) (s_dropPolicy settings))
  | None =>
      {| items := []; draining := false; lastEnqueuedAt := 0;
         mode := s_mode settings;
         debounceMs := match s_debounceMs settings with
                       | Some d => Z.max 0 d
                       | None => DEFAULT_QUEUE_DEBOUNCE_MS
                       end;
         cap := match s_cap settings with
                | Some c => if 0 <? c then c else DEFAULT_QUEUE_CAP
                | None => DEFAULT_QUEUE_CAP
                end;
         dropPolicy := default DEFAULT_QUEUE_DROP (s_dropPolicy settings);
         droppedCount := 0; summaryLines := []; lastRun := None |}
  end.


(** [isRunAlreadyQueued(run, queue, allowPromptFallback)]. *)
Definition hasSameRouting (r item : FollowupRun) : bool :=
  bool_decide (originatingChannel item = originatingChannel r)
  && bool_decide (originatingTo item = originatingTo r)
  && bool_decide (originatingAccountId item = originatingAccountId r)
  && bool_decide (originatingThreadId item = originatingThreadId r).

Definition isRunAlreadyQueued (r : FollowupRun) (queue : FollowupQueueState)
    (allowPromptFallback : bool) : bool :=
  let messageId' := trim <$> messageId r in
  if truthy messageId' then
    existsb (fun item =>
               bool_decide (trim <$> messageId item = messageId')
               && hasSameRouting r item)
            (items queue)
  else if negb allowPromptFallback then false
  else existsb (fun item =>
                  bool_decide (prompt item = prompt r) && hasSameRouting r item)
               (items queue).

(** The summarize branch of the overflow handling: one count and one
    synopsis per evicted item, then the oldest synopses are shifted out
    while more than [cap] remain. *)
Definition recordDropped (queue : FollowupQueueState)
    (dropped : list FollowupRun) : FollowupQueueState :=
  let count := droppedCount queue + Z.of_nat (length dropped) in
  let lines := summaryLines queue ++ List.map buildQueueSummaryLine dropped in
  setDropped queue count
    (drop (length lines - Z.to_nat (Z.max 0 (cap queue))) lines).

(** The body of [enqueueFollowupRun] after [getFollowupQueue] has returned
    the queue object: the object as the call leaves it, and the result. *)
Definition enqueueOnto (queue : FollowupQueueState) (r : FollowupRun)
    (dedupeMode : option QueueDedupeMode) (now : Z)
    : FollowupQueueState * bool :=
  let dedupe := default DedupeMessageId dedupeMode in
  if bool_decide (dedupe = DedupeMessageId) && isRunAlreadyQueued r queue false
  then (queue, false)
  else if bool_decide (dedupe = DedupePrompt) && isRunAlreadyQueued r queue true
  then (queue, false)
  else
    let queue := setEnqueued queue now (run r) in
    let len := Z.of_nat (length (items queue)) in
    if (0 <? cap queue) && (cap queue <=? len) then
      if bool_decide (dropPolicy queue = DropNew) then (queue, false)
      else
        let dropCount := Z.to_nat (len - cap queue + 1) in
        let dropped := take dropCount (items queue) in
        let queue := setItems queue (drop dropCount (items queue)) in
        let queue :=
          if bool_decide (dropPolicy queue = DropSummarize)
          then recordDropped queue dropped else queue in
        (setItems queue (items queue ++ [r]), true)
    else (setItems queue (items queue ++ [r]), true).

(** [waitForQueueDebounce] returns once this holds at the current time. *)
Definition debounceElapsed (now : Z) (queue : FollowupQueueState) : bool :=
  let d := Z.max 0 (debounceMs queue) in
  (d <=? 0) || (d <=? now - lastEnqueuedAt queue).

(** The text built by [buildSummaryPrompt] when it does build one. *)
Definition overflowLines (queue : FollowupQueueState) : list jsstring :=
  (lit "[Queue overflow] Dropped " ++ numToString (droppedCount queue)
   ++ lit " message" ++ (if droppedCount queue =? 1 then [] else lit "s")
   ++ lit " due to cap.")
  :: match summaryLines queue with
     | [] => []
     | ls => lit "Summary:" :: List.map (fun line => lit "- " ++ line) ls
     end.

(** [buildSummaryPrompt(queue)]: the prompt, and the queue it leaves. *)
Definition buildSummaryPrompt (queue : FollowupQueueState)
    : option jsstring * FollowupQueueState :=
  if negb (bool_decide (dropPolicy queue = DropSummarize))
     || (droppedCount queue <=? 0)
  then (None, queue)
  else (Some (join [LF] (overflowLines queue)), setDropped queue 0 []).

(** One block of the collected prompt; [idx] counts from zero. *)
Definition collectBlock (idx : nat) (item : FollowupRun) : jsstring :=
  trim (lit "---" ++ [LF] ++ lit "Queued #" ++ numToString (Z.of_nat idx + 1)
        ++ [LF] ++ prompt item).

Definition COLLECT_HEADER : jsstring := lit "[Queued messages while agent was busy]".

(** [buildCollectPrompt(items, summary)]. *)
Definition buildCollectPrompt (its : list FollowupRun)
    (summary : option jsstring) : jsstring :=
  let blocks :=
    [COLLECT_HEADER]
    ++ (if truthy summary then [default [] summary] else [])
    ++ imap collectBlock its in
  join [LF; LF] blocks.

Section Routing.

(** [isRoutableChannel] of [route-reply.ts], which is not part of the
    sources at hand: any predicate on the optional channel. *)
Variable isRoutableChannel : option jsstring -> bool.

Definition isUnkeyed (item : FollowupRun) : bool :=
  negb (truthy (originatingChannel item)) && negb (truthy (originatingTo item))
  && negb (truthy (originatingAccountId item))
  && negb (bool_decide (is_Some (originatingThreadId item))).

Definition routeKey (item : FollowupRun) : jsstring :=
  join (lit "|")
    [ default [] (originatingChannel item);
      default [] (originatingTo item);
      orElse (originatingAccountId item) [];
      match originatingThreadId item with
      | Some t => numToString t
      | None => []
      end ].

(** The [for] loop of [hasCrossChannelItems]; [None] is its early
    [return true]. *)
Fixpoint scanRoutes (its : list FollowupRun) (keys : gset jsstring)
    (hasUnkeyed : bool) : option (gset jsstring * bool) :=
  match its with
  | [] => Some (keys, hasUnkeyed)
  | item :: rest =>
      if isUnkeyed item then scanRoutes rest keys true
      else if negb (isRoutableChannel (originatingChannel item))
              || negb (truthy (originatingTo item))
      then None
      else scanRoutes rest (keys ∪ {[ routeKey item ]}) hasUnkeyed
  end.

Definition hasCrossChannelItems (its : list FollowupRun) : bool :=
  match scanRoutes its ∅ false with
  | None => true
  | Some (keys, hasUnkeyed) =>
      if bool_decide (size keys = 0%nat) then false
      else if hasUnkeyed then true
      else bool_decide (1 < size keys)%nat
  end.

(** Which path of the drain loop issued an executor call. *)
Inductive CallKind := ItemCall | CollectCall | SummaryCall.

(** One pass through the body of the [while] loop of
    [scheduleFollowupDrain], after the debounce wait: either
    [runFollowup] is called (and the loop goes on with the given queue
    and [forceIndividualCollect] flag) or the loop is left by [break]. *)
Inductive IterResult :=
| IterRun (kind : CallKind) (call : FollowupRun) (queue : FollowupQueueState)
    (force : bool)
| IterBreak (queue : FollowupQueueState).

Definition firstTruthy (f : FollowupRun -> option jsstring)
    (its : list FollowupRun) : option jsstring :=
  List.find (fun i => truthy (f i)) its ≫= f.

Definition drainIteration (now : Z) (forceIndividualCollect : bool)
    (queue : FollowupQueueState) : IterResult :=
  if bool_decide (mode queue = Collect) then
    if forceIndividualCollect then
      match items queue with
      | [] => IterBreak queue
      | next :: rest => IterRun ItemCall next (setItems queue rest) true
      end
    else if hasCrossChannelItems (items queue) then
      match items queue with
      | [] => IterBreak queue
      | next :: rest => IterRun ItemCall next (setItems queue rest) true
      end
    else
      let its := items queue in
      let queue := setItems queue [] in
      let '(summary, queue) := buildSummaryPrompt queue in
      match from_option (fun i => Some (run i)) (lastRun queue) (last its) with
      | None => IterBreak queue
      | Some r =>
          IterRun CollectCall
            {| prompt := buildCollectPrompt its summary;
               messageId := None; summaryLine := None; enqueuedAt := now;
               originatingChannel := firstTruthy originatingChannel its;
               originatingTo := firstTruthy originatingTo its;
               originatingAccountId := firstTruthy originatingAccountId its;
               originatingThreadId :=
                 List.find (fun i => bool_decide (is_Some (originatingThreadId i))) its
                 ≫= originatingThreadId;
               run := r |}
            queue false
      end
  else
    let '(summaryPrompt, queue) := buildSummaryPrompt queue in
    if truthy summaryPrompt then
      match lastRun queue with
      | None => IterBreak queue
      | Some r =>
          IterRun SummaryCall
            {| prompt := default [] summaryPrompt;
               messageId := None; summaryLine := None; enqueuedAt := now;
               originatingChannel := None; originatingTo := None;
               originatingAccountId := None; originatingThreadId := None;
               run := r |}
            queue forceIndividualCollect
      end
    else
      match items queue with
      | [] => IterBreak queue
      | next :: rest => IterRun ItemCall next (setItems queue rest) forceIndividualCollect
      end.

(** The loop test [queue.items.length > 0 || queue.droppedCount > 0]. *)
Definition loopTest (queue : FollowupQueueState) : bool :=
  (0 <? Z.of_nat (length (items queue))) || (0 <? droppedCount queue).

(** The [while] loop run to its end with the clock at [now], the
    debounce window over, no executor failure and no enqueue in between:
    the executor calls in order, and the queue object at loop exit.
    [fuel] bounds the number of iterations. *)
Fixpoint drainLoop (fuel : nat) (now : Z) (force : bool)
    (queue : FollowupQueueState)
    : list (CallKind * FollowupRun) * FollowupQueueState :=
  match fuel with
  | O => ([], queue)
  | S fuel' =>
      if loopTest queue then
        match drainIteration now force queue with
        | IterRun kind call queue' force' =>
            let '(calls, final) := drainLoop fuel' now force' queue' in
            ((kind, call) :: calls, final)
        | IterBreak queue' => ([], queue')
        end
      else ([], queue)
  end.

End Routing.

(** *** The process-wide registry and the drain loops

    [FOLLOWUP_QUEUES] maps a key to a queue object; the async function
    started by [scheduleFollowupDrain] keeps the object it found in its
    closure. Objects therefore live in a heap of references: the registry
    and every running drain loop hold a reference, and an assignment to a
    field is seen through all of them. *)
Record Registry := {
  heap : gmap nat FollowupQueueState;
  FOLLOWUP_QUEUES : gmap string nat;
  nextRef : nat;
}.

Definition emptyRegistry : Registry :=
  {| heap := ∅; FOLLOWUP_QUEUES := ∅; nextRef := 0 |}.

(** The queue object registered under [key], if any. *)
Definition lookupQueue (key : string) (reg : Registry) : option FollowupQueueState :=
  FOLLOWUP_QUEUES reg !! key ≫= fun ref => heap reg !! ref.

Definition store (ref : nat) (q : FollowupQueueState) (reg : Registry) : Registry :=
  {| heap := <[ref := q]> (heap reg);
     FOLLOWUP_QUEUES := FOLLOWUP_QUEUES reg;
     nextRef := nextRef reg |}.

(** [getFollowupQueue(key, settings)]: the registry after the call and
    the reference it returns. *)
Definition getFollowupQueue (key : string) (settings : QueueSettings)
    (reg : Registry) : Registry * nat :=
  match FOLLOWUP_QUEUES reg !! key with
  | Some ref =>
      (store ref (applySettings (heap reg !! ref) settings) reg, ref)
  | None =>
      let ref := nextRef reg in
      ({| heap := <[ref := applySettings None settings]> (heap reg);
          FOLLOWUP_QUEUES := <[key := ref]> (FOLLOWUP_QUEUES reg);
          nextRef := S ref |}, ref)
  end.

(** [enqueueFollowupRun(key, run, settings, dedupeMode)] at time [now]. *)
Definition enqueueFollowupRun (key : string) (r : FollowupRun)
    (settings : QueueSettings) (dedupeMode : option QueueDedupeMode)
    (now : Z) (reg : Registry) : Registry * bool :=
  let '(reg, ref) := getFollowupQueue key settings reg in
  match heap reg !! ref with
  | Some queue =>
      let '(queue, accepted) := enqueueOnto queue r dedupeMode now in
      (store ref queue reg, accepted)
  | None => (reg, false)
  end.

(** [key.trim()] on a registry key; the characters of a key stand for
    the code units below 256, as in [lit]. *)
Definition trimKey (key : string) : string :=
  let white := fun a => isWhite (N_of_ascii a) in
  string_of_list_ascii
    (rev (dropWhile white (rev (dropWhile white (list_ascii_of_string key))))).

(** [getFollowupQueueDepth(key)]. *)
Definition getFollowupQueueDepth (key : string) (reg : Registry) : nat :=
  let cleaned := trimKey key in
  if bool_decide (cleaned = EmptyString) then 0%nat
  else
    match lookupQueue cleaned reg with
    | Some queue => length (items queue)
    | None => 0%nat
    end.

(** A running drain loop: the arguments and locals of the async function
    of [scheduleFollowupDrain]. *)
Record DrainLoop := {
  loopKey : string;
  loopQueue : nat;
  forceIndividualCollect : bool;
}.

Record ExecutorCall := {
  callKey : string;
  callKind : CallKind;
  callRun : FollowupRun;
}.

Record World := {
  registry : Registry;
  loops : list DrainLoop;
  executed : list ExecutorCall;
}.

Definition initialWorld : World :=
  {| registry := emptyRegistry; loops := []; executed := [] |}.

Section Drain.

Variable isRoutableChannel : option jsstring -> bool.

(** [scheduleFollowupDrain(key, runFollowup)] up to the start of the
    async function. *)
Definition scheduleFollowupDrain (key : string) (w : World) : World :=
  match FOLLOWUP_QUEUES (registry w) !! key with
  | None => w
  | Some ref =>
      match heap (registry w) !! ref with
      | None => w
      | Some queue =>
          if draining queue then w
          else
            {| registry := store ref (setDraining queue true) (registry w);
               loops := loops w ++ [ {| loopKey := key; loopQueue := ref;
                                        forceIndividualCollect := false |} ];
               executed := executed w |}
      end
  end.

(** The [finally] block of a drain loop [l] that has already left
    [loops]. *)
Definition runFinally (l : DrainLoop) (w : World) : World :=
  match heap (registry w) !! loopQueue l with
  | None => w
  | Some queue =>
      let queue := setDraining queue false in
      let reg := store (loopQueue l) queue (registry w) in
      if bool_decide (length (items queue) = 0%nat)
         && bool_decide (droppedCount queue = 0)
      then
        {| registry :=
             {| heap := heap reg;
                FOLLOWUP_QUEUES := delete (loopKey l) (FOLLOWUP_QUEUES reg);
                nextRef := nextRef reg |};
           loops := loops w; executed := executed w |}
      else
        scheduleFollowupDrain (loopKey l)
          {| registry := reg; loops := loops w; executed := executed w |}
  end.

(** What can happen between two suspension points of the event loop. *)
Inductive Event :=
| EvEnqueue (key : string) (r : FollowupRun) (settings : QueueSettings)
    (dedupeMode : option QueueDedupeMode) (now : Z)
| EvSchedule (key : string)
(** drain loop number [i] passes its loop test and, the debounce window
    being over at [now], runs the loop body once *)
| EvIterate (i : nat) (now : Z)
(** the [runFollowup] awaited by drain loop number [i] rejects *)
| EvReject (i : nat).

Definition step (ev : Event) (w : World) : World :=
  match ev with
  | EvEnqueue key r settings dedupeMode now =>
      {| registry := fst (enqueueFollowupRun key r settings dedupeMode now (registry w));
         loops := loops w; executed := executed w |}
  | EvSchedule key => scheduleFollowupDrain key w
  | EvIterate i now =>
      match loops w !! i with
      | None => w
      | Some l =>
          match heap (registry w) !! loopQueue l with
          | None => w
          | Some queue =>
              if negb (loopTest queue) then
                runFinally l {| registry := registry w; loops := delete i (loops w);
                                executed := executed w |}
              else if negb (debounceElapsed now queue) then w
              else
                match drainIteration isRoutableChannel now (forceIndividualCollect l) queue with
                | IterRun kind call queue' force' =>
                    {| registry := store (loopQueue l) queue' (registry w);
                       loops := <[i := {| loopKey := loopKey l; loopQueue := loopQueue l;
                                          forceIndividualCollect := force' |}]> (loops w);
                       executed := executed w ++ [ {| callKey := loopKey l; callKind := kind;
                                                      callRun := call |} ] |}
                | IterBreak queue' =>
                    runFinally l {| registry := store (loopQueue l) queue' (registry w);
                                    loops := delete i (loops w);
                                    executed := executed w |}
                end
          end
      end
  | EvReject i =>
      match loops w !! i with
      | None => w
      | Some l =>
          runFinally l {| registry := registry w; loops := delete i (loops w);
                          executed := executed w |}
      end
  end.

(** The world after a sequence of events, oldest first. *)
Definition runEvents (evs : list Event) (w : World) : World :=
  foldl (fun w ev => step ev w) w evs.

Definition reachable (w : World) : Prop :=
  exists evs, w = runEvents evs initialWorld.

End Drain.

(** *** Vocabulary of the statements *)

(** The originating route of an item. *)
Definition route (r : FollowupRun)
    : option jsstring * option jsstring * option jsstring * option Z :=
  (originatingChannel r, originatingTo r, originatingAccountId r,
   originatingThreadId r).

(** The item carries a message id that is not blank. *)
Definition hasMessageId (r : FollowupRun) : bool := truthy (trim <$> messageId r).

(** The de-duplication exits of [enqueueFollowupRun], taken together. *)
Definition dedupeHit (dedupeMode : option QueueDedupeMode) (r : FollowupRun)
    (queue : FollowupQueueState) : bool :=
  match default DedupeMessageId dedupeMode with
  | DedupeMessageId => isRunAlreadyQueued r queue false
  | DedupePrompt => isRunAlreadyQueued r queue true
  | DedupeNone => false
  end.

(** The queue object that [getFollowupQueue(key, settings)] hands to the
    rest of [enqueueFollowupRun]. *)
Definition queueFor (key : string) (settings : QueueSettings) (reg : Registry)
    : FollowupQueueState :=
  applySettings (lookupQueue key reg) settings.

(** [parts] occur in [s] one after the other, without overlap. *)
Fixpoint occurInOrder (parts : list jsstring) (s : jsstring) : Prop :=
  match parts with
  | [] => True
  | p :: rest => exists before after, s = before ++ p ++ after /\ occurInOrder rest after
  end.

(** The event puts an item equal to [x] into some queue. *)
Definition enqueues (x : FollowupRun) (ev : Event) : Prop :=
  match ev with
  | EvEnqueue _ r _ _ _ => r = x
  | _ => False
  end.

(** No queue object holds an item equal to [x]. *)
Definition queuedNowhere (x : FollowupRun) (reg : Registry) : Prop :=
  forall ref q, heap reg !! ref = Some q -> x ∉ items q.

(** [enqueueFollowupRun] returns [accepted] and leaves [queue'] registered
    under [key]. *)
Definition enqueueYields (key : string) (r : FollowupRun)
    (settings : QueueSettings) (dedupeMode : option QueueDedupeMode) (now : Z)
    (reg : Registry) (queue' : FollowupQueueState) (accepted : bool) : Prop :=
  exists reg',
    enqueueFollowupRun key r settings dedupeMode now reg = (reg', accepted)
    /\ lookupQueue key reg' = Some queue'.

(** The item carries a route that replies can be sent to: some routing
    member is set, the channel is routable and the destination is set. *)
Definition isRouted (isRoutableChannel : option jsstring -> bool)
    (item : FollowupRun) : bool :=
  negb (isUnkeyed item) && isRoutableChannel (originatingChannel item)
  && truthy (originatingTo item).

(** The items can be collected into one prompt: none of them carries any
    routing member, or all of them carry a route that replies can be sent
    to, with one and the same route key. *)
Definition collectable (isRoutableChannel : option jsstring -> bool)
    (its : list FollowupRun) : Prop :=
  Forall (fun i => isUnkeyed i = true) its
  \/ exists k, Forall (fun i => isRouted isRoutableChannel i = true /\ routeKey i = k) its.

(** What every queue object satisfies: a positive cap, a dropped count
    that is not negative, and recorded run parameters as soon as
    something was dropped. *)
Definition wfQueue (q : FollowupQueueState) : Prop :=
  0 < cap q /\ 0 <= droppedCount q /\ (0 < droppedCount q -> is_Some (lastRun q)).

(** The registry and the running drain loops agree: no two loops have
    the same key; a loop works on the object registered under its key,
    and that object has its [draining] flag set; a registered object with
    the flag set has a loop; registered references are allocated, and no
    object is registered under two keys. *)
Definition coherent (w : World) : Prop :=
  NoDup (loopKey <$> loops w)
  /\ (forall l, l ∈ loops w ->
        FOLLOWUP_QUEUES (registry w) !! loopKey l = Some (loopQueue l)
        /\ exists q, heap (registry w) !! loopQueue l = Some q /\ draining q = true)
  /\ (forall key ref q,
        FOLLOWUP_QUEUES (registry w) !! key = Some ref ->
        heap (registry w) !! ref = Some q -> draining q = true ->
        exists l, l ∈ loops w /\ loopKey l = key)
  /\ (forall key ref,
        FOLLOWUP_QUEUES (registry w) !! key = Some ref ->
        (ref < nextRef (registry w))%nat /\ is_Some (heap (registry w) !! ref))
  /\ (forall k1 k2 ref,
        FOLLOWUP_QUEUES (registry w) !! k1 = Some ref ->
        FOLLOWUP_QUEUES (registry w) !! k2 = Some ref -> k1 = k2)
  /\ (forall ref q, heap (registry w) !! ref = Some q -> wfQueue q).

(** The world in which drain loop number [i] has left the loop body with
    its queue object equal to [q'], before its [finally] block runs. *)
Definition leaving (i : nat) (l : DrainLoop) (q' : FollowupQueueState)
    (w : World) : World :=
  {| registry := store (loopQueue l) q' (registry w);
     loops := delete i (loops w);
     executed := executed w |}.

(** A run made up by the drain loop: prompt [p], run parameters [r], no
    route of its own. *)
Definition synthesized (p : jsstring) (r : RunParams) (now : Z) : FollowupRun :=
  {| prompt := p; messageId := None; summaryLine := None; enqueuedAt := now;
     originatingChannel := None; originatingTo := None;
     originatingAccountId := None; originatingThreadId := None; run := r |}.

End FollowupQueue.

(** ** The session store ([config/sessions.ts]) *)
Module SessionStore.

(** The members of a [SessionEntry] that the code paths below read or
    write; [lastTo] stands for the remaining members, which are only ever
    copied. *)
Record SessionEntry := {
  sessionId : string;
  updatedAt : Z;
  sessionFile : option string;
  systemSent : option bool;
  abortedLastRun : option bool;
  thinkingLevel : option string;
  verboseLevel : option string;
  modelOverride : option string;
  providerOverride : option string;
  lastTo : option string;
}.

Definition setUpdatedAt (e : SessionEntry) (t : Z) : SessionEntry :=
  {| sessionId := sessionId e; updatedAt := t; sessionFile := sessionFile e;
     systemSent := systemSent e; abortedLastRun := abortedLastRun e;
     thinkingLevel := thinkingLevel e; verboseLevel := verboseLevel e;
     modelOverride := modelOverride e; providerOverride := providerOverride e;
     lastTo := lastTo e |}.

Record SessionStoreCacheEntry := {
  cachedStore : gmap string SessionEntry;
  loadedAt : Z;
  storePath : string;
  mtimeMs : option Z;
}.

Definition DEFAULT_SESSION_STORE_TTL_MS : Z := 45000.

(** What a synchronous call sees of the outside: the clock, the resolved
    time-to-live ([getSessionStoreTtl]), and the file system through
    [getFileMtimeMs] and [fs.readFileSync] ([None]: [undefined], resp. the
    read throws). *)
Record LoadEnv := {
  now : Z;
  ttl : Z;
  getFileMtimeMs : string -> option Z;
  readFileSync : string -> option string;
}.

(** What [JSON5.parse] makes of a text that it accepts: an object, or a
    value that fails [parsed && typeof parsed === "object"]. *)
Inductive Parsed :=
| ParsedObject (m : gmap string SessionEntry)
| ParsedOther.

Section Load.

(** [isCacheEnabled] of [cache-utils.ts] and [JSON5.parse], neither of
    which is part of the sources at hand ([None]: the parser throws). *)
Variable isCacheEnabled : Z -> bool.
Variable JSON5_parse : string -> option Parsed.

Definition isSessionStoreCacheEnabled (env : LoadEnv) : bool :=
  isCacheEnabled (ttl env).

Definition isSessionStoreCacheValid (env : LoadEnv)
    (entry : SessionStoreCacheEntry) : bool :=
  now env - loadedAt entry <=? ttl env.

Definition invalidateSessionStoreCache (path : string)
    (cache : gmap string SessionStoreCacheEntry) :=
  delete path cache.

(** The [try] block of [loadSessionStore]: the store read from disk and
    the modification time to remember. *)
Definition readStore (path : string) (env : LoadEnv)
    : gmap string SessionEntry * option Z :=
  let mtimeMs := getFileMtimeMs env path in
  match readFileSync env path ≫= JSON5_parse with
  | Some parsed =>
      (match parsed with ParsedObject m => m | ParsedOther => ∅ end,
       match getFileMtimeMs env path with Some t => Some t | None => mtimeMs end)
  | None => (∅, mtimeMs)
  end.

(** The second half of [loadSessionStore], from "Cache miss or disabled"
    on: read the file, and remember the result if caching is enabled. *)
Definition loadFromDisk (path : string) (env : LoadEnv)
    (cache : gmap string SessionStoreCacheEntry)
    : gmap string SessionEntry * gmap string SessionStoreCacheEntry :=
  let '(loaded, mtime) := readStore path env in
  if isSessionStoreCacheEnabled env then
    (loaded, <[path := {| cachedStore := loaded; loadedAt := now env;
                          storePath := path; mtimeMs := mtime |}]> cache)
  else (loaded, cache).

(** [loadSessionStore(storePath)]: the mapping returned and the cache
    after the call. *)
Definition loadSessionStore (path : string) (env : LoadEnv)
    (cache : gmap string SessionStoreCacheEntry)
    : gmap string SessionEntry * gmap string SessionStoreCacheEntry :=
  if isSessionStoreCacheEnabled env then
    match cache !! path with
    | Some cached =>
        if isSessionStoreCacheValid env cached then
          if bool_decide (getFileMtimeMs env path = mtimeMs cached)
          then (cachedStore cached, cache)
          else loadFromDisk path env (invalidateSessionStoreCache path cache)
        else loadFromDisk path env cache
    | None => loadFromDisk path env cache
    end
  else loadFromDisk path env cache.

End Load.

(** *** Saving *)

Inductive FsError := ENOENT | EOTHER (code : string).

#[global] Instance FsError_eq_dec : EqDecision FsError.
Proof. solve_decision. Defined.

(** How each file-system call of one [saveSessionStore] ends ([None]: it
    succeeds), in program order. A call that fails leaves the file system
    as it found it. *)
Record SaveOutcomes := {
  mkdirFirst : option FsError;
  writeTmp : option FsError;
  renameTmp : option FsError;
  mkdirRetry : option FsError;
  writeDirect : option FsError;
  rmTmp : option FsError;
}.

(** File contents by path. *)
Abbreviation Files := (gmap string string).

(** [fs.promises.writeFile(path, data)] opens the file truncating it and
    writes the data in pieces: a reader can meet every prefix of [data]. *)
Definition writeFileStates (path data : string) (fs : Files) : list Files :=
  (fun k => <[path := substring 0 k data]> fs) <$> seq 0 (S (String.length data)).

(** [fs.promises.rename(src, dst)] replaces [dst] in one step. *)
Definition renameFile (src dst : string) (fs : Files) : Files :=
  match fs !! src with
  | Some data => <[dst := data]> (delete src fs)
  | None => fs
  end.

Record SaveResult := {
  cacheAfter : gmap string SessionStoreCacheEntry;
  (** the successive states of the file system, each one visible to a
      reader, the state at the call first *)
  observable : list Files;
  (** the error the returned promise rejects with, if any *)
  thrown : option FsError;
}.

Definition lastState (fs0 : Files) (states : list Files) : Files :=
  List.last states fs0.

Section Save.

(** [JSON.stringify(store, null, 2)]. *)
Variable stringify : gmap string SessionEntry -> string.

Definition tmpPath (path pid uuid : string) : string :=
  path +:+ "." +:+ pid +:+ "." +:+ uuid +:+ ".tmp".

(** The [try] block with its [catch]: the states it goes through after
    [fs], and the error it ends with, if any. *)
Definition writeOrFallback (path tmp json : string) (o : SaveOutcomes)
    (fs : Files) : list Files * option FsError :=
  let attempt : list Files * option FsError :=
    match writeTmp o with
    | Some e => ([], Some e)
    | None =>
        let written := writeFileStates tmp json fs in
        match renameTmp o with
        | Some e => (written, Some e)
        | None => (written ++ [renameFile tmp path (lastState fs written)], None)
        end
    end in
  match attempt with
  | (states, None) => (states, None)
  | (states, Some ENOENT) =>
      match mkdirRetry o with
      | Some ENOENT => (states, None)
      | Some err2 => (states, Some err2)
      | None =>
          match writeDirect o with
          | Some ENOENT => (states, None)
          | Some err2 => (states, Some err2)
          | None =>
              (states ++ writeFileStates path json (lastState fs states), None)
          end
      end
  | (states, Some err) => (states, Some err)
  end.

(** [saveSessionStore(storePath, store)] run by process [pid], with
    [uuid] the value of [crypto.randomUUID()]. *)
Definition saveSessionStore (path : string) (st : gmap string SessionEntry)
    (pid uuid : string) (o : SaveOutcomes)
    (cache : gmap string SessionStoreCacheEntry) (fs : Files) : SaveResult :=
  let cache := invalidateSessionStoreCache path cache in
  match mkdirFirst o with
  | Some e => {| cacheAfter := cache; observable := [fs]; thrown := Some e |}
  | None =>
      let json := stringify st in
      let tmp := tmpPath path pid uuid in
      let '(states, err) := writeOrFallback path tmp json o fs in
      match rmTmp o with
      | Some e =>
          {| cacheAfter := cache; observable := fs :: states; thrown := Some e |}
      | None =>
          {| cacheAfter := cache;
             observable := fs :: states ++ [delete tmp (lastState fs states)];
             thrown := err |}
      end
  end.

End Save.

(** *** Vocabulary of the statements *)

(** The [catch] block of [saveSessionStore] sees [ENOENT]: the write of
    the temporary file, or its renaming, failed with that code. *)
Definition tookFallback (o : SaveOutcomes) : bool :=
  bool_decide (writeTmp o = Some ENOENT)
  || bool_decide (writeTmp o = None) && bool_decide (renameTmp o = Some ENOENT).

(** What a reader finds at [path] in the state [s] is the content from
    before the save or the whole new text. *)
Definition untorn (path : string) (old : option string) (json : string)
    (s : Files) : Prop :=
  s !! path = old \/ s !! path = Some json.

(** A cached entry for [path] that [loadSessionStore] may answer from:
    caching is on, the entry is within the time-to-live and the file has
    the modification time recorded in the entry. *)
Definition usable (isCacheEnabled : Z -> bool) (path : string) (env : LoadEnv)
    (cached : SessionStoreCacheEntry) : Prop :=
  isCacheEnabled (ttl env) = true
  /\ now env - loadedAt cached <= ttl env
  /\ getFileMtimeMs env path = mtimeMs cached.

End SessionStore.

(** ** The [agent] gateway method ([gateway/server-methods/agent.ts]) *)
Module AgentMethod.

(** The payload of a response frame. *)
Inductive Payload :=
| Accepted (runId : string) (acceptedAt : Z)
| Completed (runId : string) (result : string)
| Failed (runId : string) (summary : string).

(** An entry of [context.dedupe]. *)
Record DedupeEntry := {
  ts : Z;
  ok : bool;
  payload : Payload;
  error : option string;
}.

(** The request members that decide the control flow of the handler,
    and what the collaborators that are not part of the sources at hand
    answer for this request: [validateAgentParams], [resolveSendPolicy],
    and whether [loadSessionEntry] yields a store with a path, in which
    case the handler awaits [saveSessionStore]. *)
Record AgentRequest := {
  idempotencyKey : string;
  message : string;
  requestedSessionKey : option string;
  paramsValid : bool;
  sendPolicyDeny : bool;
  storeHasPath : bool;
}.

(** A call of [respond]. *)
Record Response := {
  respOk : bool;
  respPayload : option Payload;
  respCached : bool;
}.

Record Gateway := {
  dedupe : gmap string DedupeEntry;
  (** handlers suspended at [await saveSessionStore(...)] *)
  awaitingSave : list AgentRequest;
  (** the calls of [agentCommand], by run id, oldest first *)
  started : list string;
  responses : list Response;
}.

Definition emptyGateway : Gateway :=
  {| dedupe := ∅; awaitingSave := []; started := []; responses := [] |}.

Definition dedupeKey (idem : string) : string := "agent:" +:+ idem.

Definition respond (r : Response) (g : Gateway) : Gateway :=
  {| dedupe := dedupe g; awaitingSave := awaitingSave g;
     started := started g; responses := responses g ++ [r] |}.

(** The handler from the construction of [accepted] to the call of
    [agentCommand]: it runs without suspension. *)
Definition acceptAndStart (req : AgentRequest) (now : Z) (g : Gateway) : Gateway :=
  let runId := idempotencyKey req in
  let accepted := Accepted runId now in
  {| dedupe := <[dedupeKey (idempotencyKey req) :=
                   {| ts := now; ok := true; payload := accepted; error := None |}]>
                 (dedupe g);
     awaitingSave := awaitingSave g;
     started := started g ++ [runId];
     responses := responses g ++ [ {| respOk := true; respPayload := Some accepted;
                                      respCached := false |} ] |}.

(** The handler from its entry to its first suspension point, or to its
    end if it does not await anything. *)
Definition handleAgent (req : AgentRequest) (now : Z) (g : Gateway) : Gateway :=
  if negb (paramsValid req) then
    respond {| respOk := false; respPayload := None; respCached := false |} g
  else
    match dedupe g !! dedupeKey (idempotencyKey req) with
    | Some cached =>
        respond {| respOk := ok cached; respPayload := Some (payload cached);
                   respCached := true |} g
    | None =>
        match requestedSessionKey req with
        | Some _ =>
            if sendPolicyDeny req then
              respond {| respOk := false; respPayload := None; respCached := false |} g
            else if storeHasPath req then
              {| dedupe := dedupe g; awaitingSave := awaitingSave g ++ [req];
                 started := started g; responses := responses g |}
            else acceptAndStart req now g
        | None => acceptAndStart req now g
        end
    end.

(** How a call of [agentCommand] ends. *)
Inductive RunOutcome :=
| Resolved (result : string)
| Rejected (err : string).

(** The [then] and [catch] callbacks of the [agentCommand] promise. *)
Definition finishRun (idem : string) (out : RunOutcome) (now : Z) (g : Gateway)
    : Gateway :=
  let '(entry, resp) :=
    match out with
    | Resolved result =>
        let p := Completed idem result in
        ({| ts := now; ok := true; payload := p; error := None |},
         {| respOk := true; respPayload := Some p; respCached := false |})
    | Rejected err =>
        let p := Failed idem err in
        ({| ts := now; ok := false; payload := p; error := Some err |},
         {| respOk := false; respPayload := Some p; respCached := false |})
    end in
  {| dedupe := <[dedupeKey idem := entry]> (dedupe g);
     awaitingSave := awaitingSave g;
     started := started g;
     responses := responses g ++ [resp] |}.

Inductive GatewayEvent :=
(** an [agent] request arrives *)
| Submit (req : AgentRequest) (now : Z)
(** the [saveSessionStore] awaited by suspended handler [i] settles *)
| SaveSettled (i : nat) (now : Z)
(** the run started for [idem] ends *)
| RunEnded (idem : string) (out : RunOutcome) (now : Z).

Definition gatewayStep (ev : GatewayEvent) (g : Gateway) : Gateway :=
  match ev with
  | Submit req now => handleAgent req now g
  | SaveSettled i now =>
      match awaitingSave g !! i with
      | Some req =>
          acceptAndStart req now
            {| dedupe := dedupe g; awaitingSave := delete i (awaitingSave g);
               started := started g; responses := responses g |}
      | None => g
      end
  | RunEnded idem out now =>
      if bool_decide (idem ∈ started g) then finishRun idem out now g else g
  end.

Definition gatewayRun (evs : list GatewayEvent) (g : Gateway) : Gateway :=
  foldl (fun g ev => gatewayStep ev g) g evs.

End AgentMethod.

(** ** Session initialisation and the heartbeat run
    ([auto-reply/reply/session.ts], [web/auto-reply.ts]) *)
Module SessionLifecycle.

Import SessionStore.

Definition DEFAULT_IDLE_MINUTES : Z := 60.

(** What [initSessionState] takes from its context besides the store:
    the configured idle minutes, the verdict of the reset-trigger loop
    ([isNewSession] as that loop leaves it), the resolved session key,
    the legacy group key and the parent session key if any, the clock and
    the value of [crypto.randomUUID()]. *)
Record InitInput := {
  cfgIdleMinutes : option Z;
  resetTriggered : bool;
  resolvedKey : string;
  legacyKey : option string;
  parentSessionKey : option string;
  clock : Z;
  randomUUID : string;
}.

Record SessionInitResult := {
  sessionEntry : SessionEntry;
  sessionStore : gmap string SessionEntry;
  resultSessionId : string;
  isNewSession : bool;
  resultSystemSent : bool;
  resultAbortedLastRun : bool;
}.

(** [Math.max(sessionCfg?.idleMinutes ?? DEFAULT_IDLE_MINUTES, 1)]. *)
Definition idleMinutes (i : InitInput) : Z :=
  Z.max (default DEFAULT_IDLE_MINUTES (cfgIdleMinutes i)) 1.

(** [entry && Date.now() - entry.updatedAt <= idleMs]. *)
Definition freshEntry (i : InitInput) (entry : option SessionEntry) : bool :=
  match entry with
  | Some e => clock i - updatedAt e <=? idleMinutes i * 60000
  | None => false
  end.

Definition nonEmpty (s : option string) : bool :=
  match s with
  | Some (String _ _) => true
  | _ => false
  end.

Section Init.

(** [forkSessionFromParent] (session manager and file system) and
    [resolveSessionTranscriptPath] are taken as given. *)
Variable forkSessionFromParent : SessionEntry -> option (string * string).
Variable resolveSessionTranscriptPath : string -> string.

(** The migration of an entry stored under the legacy group key. *)
Definition migrateLegacy (i : InitInput) (st : gmap string SessionEntry)
    : gmap string SessionEntry :=
  match legacyKey i with
  | Some legacy =>
      if bool_decide (legacy <> resolvedKey i) then
        match st !! legacy, st !! resolvedKey i with
        | Some legacyEntry, None => <[resolvedKey i := legacyEntry]> (delete legacy st)
        | _, _ => st
        end
      else st
  | None => st
  end.

(** [initSessionState], from the store returned by [loadSessionStore] to
    the store handed to [saveSessionStore]. The group metadata and the
    display name, which do not bear on the session id or on the time
    stamp, are left out. *)
Definition initSessionState (i : InitInput) (st : gmap string SessionEntry)
    : SessionInitResult :=
  let st := migrateLegacy i st in
  let entry := st !! resolvedKey i in
  let fresh := freshEntry i entry in
  let keep := negb (resetTriggered i) && fresh in
  let isNew := if keep then resetTriggered i else true in
  let baseEntry := if negb isNew && fresh then entry else None in
  let sid := match entry with
             | Some e => if keep then sessionId e else randomUUID i
             | None => randomUUID i
             end in
  let sent := if keep then default false (entry ≫= systemSent) else false in
  let aborted := if keep then default false (entry ≫= abortedLastRun) else false in
  let persisted (f : SessionEntry -> option string) : option string :=
    match (if keep then entry ≫= f else None) with
    | Some v => Some v
    | None => baseEntry ≫= f
    end in
  let built :=
    {| sessionId := sid; updatedAt := clock i;
       sessionFile := baseEntry ≫= sessionFile;
       systemSent := Some sent; abortedLastRun := Some aborted;
       thinkingLevel := persisted thinkingLevel;
       verboseLevel := persisted verboseLevel;
       modelOverride := persisted modelOverride;
       providerOverride := persisted providerOverride;
       lastTo := baseEntry ≫= lastTo |} in
  let forked :=
    match parentSessionKey i with
    | Some parent =>
        if isNew && nonEmpty (Some parent)
           && bool_decide (parent <> resolvedKey i)
        then st !! parent ≫= forkSessionFromParent
        else None
    | None => None
    end in
  let sid := match forked with Some (fsid, _) => fsid | None => sid end in
  let file :=
    match forked with
    | Some (_, ffile) => Some ffile
    | None => sessionFile built
    end in
  let file := if nonEmpty file then file
              else Some (resolveSessionTranscriptPath sid) in
  let final :=
    {| sessionId := sid; updatedAt := updatedAt built; sessionFile := file;
       systemSent := systemSent built; abortedLastRun := abortedLastRun built;
       thinkingLevel := thinkingLevel built; verboseLevel := verboseLevel built;
       modelOverride := modelOverride built;
       providerOverride := providerOverride built;
       lastTo := lastTo built |} in
  let merged :=
    {| sessionId := sessionId final; updatedAt := updatedAt final;
       sessionFile := sessionFile final;
       systemSent := systemSent final; abortedLastRun := abortedLastRun final;
       thinkingLevel := thinkingLevel final; verboseLevel := verboseLevel final;
       modelOverride := modelOverride final;
       providerOverride := providerOverride final;
       lastTo := match lastTo final with
                 | Some v => Some v
                 | None => entry ≫= lastTo
                 end |} in
  {| sessionEntry := final;
     sessionStore := <[resolvedKey i := merged]> st;
     resultSessionId := sid;
     isNewSession := isNew;
     resultSystemSent := sent;
     resultAbortedLastRun := aborted |}.

End Init.

(** *** The heartbeat run ([runWebHeartbeatOnce]) *)

Record ReplyPayload := {
  text : option string;
  mediaUrl : option string;
  mediaUrls : list string;
}.

Record HeartbeatOpts := {
  optSessionId : option string;
  overrideBody : option string;
  dryRun : bool;
}.

Inductive HeartbeatStatus :=
| ManualSent | ManualDryRun | OkEmpty | OkToken | DryRunOnly | Sent.

Section Heartbeat.

(** The reply pipeline behind [replyResolver] (session initialisation,
    the agent turn, and whatever they persist): its effect on the stored
    mapping at [now] and the payload picked by
    [resolveHeartbeatReplyPayload]. [shouldSkip] is the [shouldSkip]
    member of [stripHeartbeatToken(text, ...)]. *)
Variable replyResolver :
  Z -> gmap string SessionEntry -> gmap string SessionEntry * option ReplyPayload.
Variable shouldSkip : option string -> bool.

(** [getSessionSnapshot(cfg, to, true).entry] for the key [key]. *)
Definition getSessionSnapshot (key : string) (st : gmap string SessionEntry)
    : option SessionEntry := st !! key.

(** The write at the head of [runWebHeartbeatOnce] when a session id is
    passed in. *)
Definition applySessionIdOverride (key : string) (opts : HeartbeatOpts)
    (now : Z) (st : gmap string SessionEntry) : gmap string SessionEntry :=
  match optSessionId opts with
  | Some (String c s) =>
      let sid := String c s in
      match st !! key with
      | Some current =>
          <[key := {| sessionId := sid; updatedAt := now;
                      sessionFile := sessionFile current;
                      systemSent := systemSent current;
                      abortedLastRun := abortedLastRun current;
                      thinkingLevel := thinkingLevel current;
                      verboseLevel := verboseLevel current;
                      modelOverride := modelOverride current;
                      providerOverride := providerOverride current;
                      lastTo := lastTo current |}]> st
      | None =>
          <[key := {| sessionId := sid; updatedAt := now; sessionFile := None;
                      systemSent := None; abortedLastRun := None;
                      thinkingLevel := None; verboseLevel := None;
                      modelOverride := None; providerOverride := None;
                      lastTo := None |}]> st
      end
  | _ => st
  end.

(** The "restore previous updatedAt" block. *)
Definition restoreUpdatedAt (key : string) (snapshot : option SessionEntry)
    (st : gmap string SessionEntry) : gmap string SessionEntry :=
  match snapshot, st !! key with
  | Some before, Some current => <[key := setUpdatedAt current (updatedAt before)]> st
  | _, _ => st
  end.

(** [runWebHeartbeatOnce] for the session key [key], on the stored
    mapping: the status it emits ([None]: it throws because the override
    body is blank) and the mapping it leaves. *)
Definition runWebHeartbeatOnce (key : string) (opts : HeartbeatOpts) (now : Z)
    (st : gmap string SessionEntry)
    : option HeartbeatStatus * gmap string SessionEntry :=
  let st := applySessionIdOverride key opts now st in
  let snapshot := getSessionSnapshot key st in
  match overrideBody opts with
  | Some (String c body) =>
      if bool_decide (Js.trim (Js.lit (String c body)) = []) then (None, st)
      else if dryRun opts then (Some ManualDryRun, st)
      else (Some ManualSent, st)
  | _ =>
      let '(st, replyPayload) := replyResolver now st in
      match replyPayload with
      | None => (Some OkEmpty, st)
      | Some p =>
          if negb (nonEmpty (text p)) && negb (nonEmpty (mediaUrl p))
             && bool_decide (length (mediaUrls p) = 0%nat)
          then (Some OkEmpty, st)
          else
            let hasMedia :=
              nonEmpty (mediaUrl p) || bool_decide (0 < length (mediaUrls p))%nat in
            if shouldSkip (text p) && negb hasMedia
            then (Some OkToken, restoreUpdatedAt key snapshot st)
            else if dryRun opts then (Some DryRunOnly, st)
            else (Some Sent, st)
      end
  end.

End Heartbeat.

End SessionLifecycle.


(** ** Sample data for the worked examples *)
Module Samples.

Import FollowupQueue.

Definition params (session : string) : RunParams :=
  {| agentId := "main"; agentDir := "/agents/main"; sessionId := session;
     sessionKey := Some "agent:main:main"; sessionFile := "/s/" +:+ session;
     workspaceDir := "/work"; provider := "anthropic"; model := "default";
     timeoutMs := 600000 |}.

(** An item with prompt [p], message id [id] and the route
    ([channel], [to]). *)
Definition item (p : string) (id : option string) (channel to : option string)
    : FollowupRun :=
  {| prompt := lit p; messageId := lit <$> id; summaryLine := None;
     enqueuedAt := 0;
     originatingChannel := lit <$> channel; originatingTo := lit <$> to;
     originatingAccountId := None; originatingThreadId := None;
     run := params p |}.

Definition capTwo (m : QueueMode) (p : QueueDropPolicy) : QueueSettings :=
  {| s_mode := m; s_debounceMs := Some 0; s_cap := Some 2; s_dropPolicy := Some p |}.

(** A stand-in for [isRoutableChannel] that accepts every channel that
    is set. *)
Definition anyChannel (c : option jsstring) : bool := truthy c.

Definition slackA := item "A" (Some "m1") (Some "slack") (Some "C1").
Definition slackB := item "B" (Some "m2") (Some "slack") (Some "C1").
Definition slackC := item "C" (Some "m3") (Some "slack") (Some "C1").
Definition telegramB := item "B" (Some "m2") (Some "telegram") (Some "42").

(** Two items with the same prompt and route, and different message ids. *)
Definition hiFirst := item "hi" (Some "m1") (Some "slack") (Some "C1").
Definition hiAgain := item "hi" (Some "m2") (Some "slack") (Some "C1").

(** Two items from one channel, without a destination. *)
Definition noDestA := item "A" (Some "m1") (Some "slack") None.
Definition noDestB := item "B" (Some "m2") (Some "slack") None.

(** A queue object in mode [m] holding [its], with nothing dropped. *)
Definition queued (m : QueueMode) (its : list FollowupRun) : FollowupQueueState :=
  {| items := its; draining := true; lastEnqueuedAt := 3; mode := m;
     debounceMs := 0; cap := 20; dropPolicy := DropSummarize;
     droppedCount := 0; summaryLines := []; lastRun := Some (params "C") |}.

(** An overflow under [summarize] followed by a mixed batch in collect
    mode: [slackA] is dropped, the two others are handed out one by one,
    the loop breaks on the empty list and its [finally] block starts the
    next loop. *)
Definition overflowThenMixed : list Event :=
  [ EvEnqueue "k" slackA (capTwo Collect DropSummarize) None 1;
    EvEnqueue "k" telegramB (capTwo Collect DropSummarize) None 2;
    EvEnqueue "k" slackC (capTwo Collect DropSummarize) None 3;
    EvSchedule "k";
    EvIterate 0 4; EvIterate 0 5; EvIterate 0 6 ].

(** An [agent] request for a session whose store has a path, so that the
    handler awaits [saveSessionStore] before it acknowledges. *)
Definition agentRequest : AgentMethod.AgentRequest :=
  {| AgentMethod.idempotencyKey := "idem-1";
     AgentMethod.message := "hello";
     AgentMethod.requestedSessionKey := Some "agent:main:main";
     AgentMethod.paramsValid := true;
     AgentMethod.sendPolicyDeny := false;
     AgentMethod.storeHasPath := true |}.

(** The first write fails with [ENOENT], the retry succeeds. *)
Definition directoryVanished : SessionStore.SaveOutcomes :=
  {| SessionStore.mkdirFirst := None;
     SessionStore.writeTmp := Some SessionStore.ENOENT;
     SessionStore.renameTmp := None;
     SessionStore.mkdirRetry := None;
     SessionStore.writeDirect := None;
     SessionStore.rmTmp := None |}.

Definition allSucceed : SessionStore.SaveOutcomes :=
  {| SessionStore.mkdirFirst := None; SessionStore.writeTmp := None;
     SessionStore.renameTmp := None; SessionStore.mkdirRetry := None;
     SessionStore.writeDirect := None; SessionStore.rmTmp := None |}.

(** A stand-in for [JSON.stringify(store, null, 2)]; the empty mapping
    does print as two braces. *)
Definition emptyJson (st : gmap string SessionStore.SessionEntry) : string := "{}".

Definition entryAt (t : Z) : SessionStore.SessionEntry :=
  {| SessionStore.sessionId := "s-old"; SessionStore.updatedAt := t;
     SessionStore.sessionFile := None; SessionStore.systemSent := Some true;
     SessionStore.abortedLastRun := None; SessionStore.thinkingLevel := None;
     SessionStore.verboseLevel := None; SessionStore.modelOverride := None;
     SessionStore.providerOverride := None; SessionStore.lastTo := None |}.

(** Stand-ins for [isCacheEnabled] and [JSON5.parse]. *)
Definition cacheOn (ttl : Z) : bool := 0 <? ttl.
Definition parseNothing (raw : string) : option SessionStore.Parsed := None.

(** A cache that holds the store of ["/s/sessions.json"], loaded at time
    1000 from a file last modified at time 500. *)
Definition warmEntry : SessionStore.SessionStoreCacheEntry :=
  {| SessionStore.cachedStore := {[ "agent:main:main" := entryAt 0 ]};
     SessionStore.loadedAt := 1000;
     SessionStore.storePath := "/s/sessions.json";
     SessionStore.mtimeMs := Some 500 |}.
Definition warmCache : gmap string SessionStore.SessionStoreCacheEntry :=
  {[ "/s/sessions.json" := warmEntry ]}.

(** Ten seconds later, with the file untouched. *)
Definition quietEnv : SessionStore.LoadEnv :=
  {| SessionStore.now := 11000;
     SessionStore.ttl := SessionStore.DEFAULT_SESSION_STORE_TTL_MS;
     SessionStore.getFileMtimeMs := fun _ => Some 500;
     SessionStore.readFileSync := fun _ => None |}.

(** A message that arrives one millisecond after the default idle time
    of an entry updated at time 0 has run out. *)
Definition lateMessage : SessionLifecycle.InitInput :=
  {| SessionLifecycle.cfgIdleMinutes := None;
     SessionLifecycle.resetTriggered := false;
     SessionLifecycle.resolvedKey := "agent:main:main";
     SessionLifecycle.legacyKey := None;
     SessionLifecycle.parentSessionKey := None;
     SessionLifecycle.clock := 3600001;
     SessionLifecycle.randomUUID := "s-new" |}.

Definition noFork (parent : SessionStore.SessionEntry) : option (string * string) :=
  None.
Definition transcriptOf (sessionId : string) : string := sessionId +:+ ".jsonl".
Definition quietReply (now : Z) (st : gmap string SessionStore.SessionEntry)
    : gmap string SessionStore.SessionEntry * option SessionLifecycle.ReplyPayload :=
  (st, None).
Definition neverSkip (text : option string) : bool := false.

(** An overflow under [summarize], after which a later enqueue switches
    the drop policy of the queue to [old]; the two remaining items are
    then drained one by one. *)
Definition overflowThenPolicyChange : list Event :=
  [ EvEnqueue "k" slackA (capTwo Followup DropSummarize) None 1;
    EvEnqueue "k" slackB (capTwo Followup DropSummarize) None 2;
    EvEnqueue "k" slackC (capTwo Followup DropSummarize) None 3;
    EvEnqueue "k" hiFirst (capTwo Followup DropOld) None 4;
    EvSchedule "k";
    EvIterate 0 5; EvIterate 0 6 ].

(** Two items queued under ["k"] with a cap of two. *)
Definition fullRegistry (m : QueueMode) (p : QueueDropPolicy) : Registry :=
  fst (enqueueFollowupRun "k" slackB (capTwo m p) None 2
         (fst (enqueueFollowupRun "k" slackA (capTwo m p) None 1 emptyRegistry))).

(** An item whose prompt has white space around it and runs of white
    space inside, and a registry with that item and [slackB] queued under
    ["k"] with a cap of two and the policy [summarize]. *)
Definition untidy :=
  item "  fix   the build  " (Some "m0") (Some "slack") (Some "C1").
Definition untidyRegistry : Registry :=
  fst (enqueueFollowupRun "k" slackB (capTwo Followup DropSummarize) None 2
         (fst (enqueueFollowupRun "k" untidy (capTwo Followup DropSummarize)
                 None 1 emptyRegistry))).

(** The session key of the heartbeat examples, and a message for it that
    arrives at time [t]. *)
Definition mainSession : string := "agent:main:main".
Definition messageAt (t : Z) : SessionLifecycle.InitInput :=
  {| SessionLifecycle.cfgIdleMinutes := None;
     SessionLifecycle.resetTriggered := false;
     SessionLifecycle.resolvedKey := mainSession;
     SessionLifecycle.legacyKey := None;
     SessionLifecycle.parentSessionKey := None;
     SessionLifecycle.clock := t;
     SessionLifecycle.randomUUID := "s-new" |}.

(** A stand-in for the reply pipeline of a heartbeat: the session is
    initialised for [mainSession] at the current time, and the reply is
    the bare heartbeat token, which [skipToken] takes as an
    acknowledgement. *)
Definition ackPayload : SessionLifecycle.ReplyPayload :=
  {| SessionLifecycle.text := Some "HEARTBEAT_OK";
     SessionLifecycle.mediaUrl := None;
     SessionLifecycle.mediaUrls := [] |}.
Definition ackPipeline (now : Z) (st : gmap string SessionStore.SessionEntry)
    : gmap string SessionStore.SessionEntry * option SessionLifecycle.ReplyPayload :=
  (SessionLifecycle.sessionStore
     (SessionLifecycle.initSessionState noFork transcriptOf (messageAt now) st),
   Some ackPayload).
Definition skipToken (text : option string) : bool :=
  bool_decide (text = Some "HEARTBEAT_OK").

(** A heartbeat run without options, and one that is given the session
    id of the stored entry. *)
Definition plainHeartbeat : SessionLifecycle.HeartbeatOpts :=
  {| SessionLifecycle.optSessionId := None;
     SessionLifecycle.overrideBody := None;
     SessionLifecycle.dryRun := false |}.
Definition heartbeatWithSessionId : SessionLifecycle.HeartbeatOpts :=
  {| SessionLifecycle.optSessionId := Some "s-old";
     SessionLifecycle.overrideBody := None;
     SessionLifecycle.dryRun := false |}.

End Samples.



(** ** More of the string methods *)
Module JsText.

Definition COLON : N := 58%N.
Definition DASH : N := 45%N.
Definition UNDERSCORE : N := 95%N.

(** Truthiness of a string: [""] is the only falsy one. *)
Definition nonEmpty (s : jsstring) : bool :=
  match s with
  | [] => false
  | _ :: _ => true
  end.

(** [a || b] on strings. *)
Definition orText (a b : jsstring) : jsstring := if nonEmpty a then a else b.

(** [s.split(sep)] for a separator of one code unit; the result holds at
    least one piece. *)
Fixpoint split (sep : N) (s : jsstring) : list jsstring :=
  match s with
  | [] => [[]]
  | c :: s' =>
      if (c =? sep)%N then [] :: split sep s'
      else match split sep s' with
           | piece :: pieces => (c :: piece) :: pieces
           | [] => [[c]]
           end
  end.

(** [s.startsWith(p)]. *)
Fixpoint startsWith (s p : jsstring) : bool :=
  match p, s with
  | [], _ => true
  | c :: p', d :: s' => (c =? d)%N && startsWith s' p'
  | _ :: _, [] => false
  end.

(** [s.includes(p)]. *)
Fixpoint includes (s p : jsstring) : bool :=
  startsWith s p
  || match s with
     | [] => false
     | _ :: s' => includes s' p
     end.

Definition isDigit (c : N) : bool := ((48 <=? c) && (c <=? 57))%N.
Definition isLower (c : N) : bool := ((97 <=? c) && (c <=? 122))%N.
Definition isUpper (c : N) : bool := ((65 <=? c) && (c <=? 90))%N.

(** Every white unit of the string is a space that does not follow a
    white unit; [prevWhite] says whether the string follows one. *)
Fixpoint singleSpaces (prevWhite : bool) (s : jsstring) : Prop :=
  match s with
  | [] => True
  | c :: s' =>
      (isWhite c = true -> c = SPACE /\ prevWhite = false)
      /\ singleSpaces (isWhite c) s'
  end.

(** Lower-casing of the ASCII letters, every other code unit left as it
    is: what [toLowerCase] does on ASCII text. *)
Definition lowerAscii (s : jsstring) : jsstring :=
  List.map (fun c => if isUpper c then (c + 32)%N else c) s.

End JsText.

(** ** Session keys ([routing/session-key.ts]) *)
Module SessionKeys.

Import JsText.

Definition DEFAULT_AGENT_ID : jsstring := lit "main".
Definition DEFAULT_MAIN_KEY : jsstring := lit "main".
Definition DEFAULT_ACCOUNT_ID : jsstring := lit "default".

Record ParsedAgentSessionKey := {
  agentId : jsstring;
  rest : jsstring;
}.

Inductive PeerKind := Dm | Group | Channel.

#[global] Instance PeerKind_eq_dec : EqDecision PeerKind.
Proof. solve_decision. Defined.

Definition peerKindText (k : PeerKind) : jsstring :=
  match k with
  | Dm => lit "dm"
  | Group => lit "group"
  | Channel => lit "channel"
  end.

(** The class [[a-z0-9]] under the [i] flag, and [[a-z0-9_-]] with and
    without it. A regular expression without the [u] flag folds case one
    code unit at a time and never maps a unit above 127 to an ASCII
    letter, so the letters are the ASCII ones. *)
Definition isIdStart (c : N) : bool := isLower c || isUpper c || isDigit c.
Definition isIdChar (c : N) : bool :=
  isIdStart c || (c =? UNDERSCORE)%N || (c =? DASH)%N.
Definition isSlugChar (c : N) : bool :=
  isLower c || isDigit c || (c =? UNDERSCORE)%N || (c =? DASH)%N.
Definition isDash (c : N) : bool := (c =? DASH)%N.

(** [/^[a-z0-9][a-z0-9_-]{0,63}$/i.test(s)]. *)
Definition matchesId (s : jsstring) : bool :=
  match s with
  | [] => false
  | c :: s' => isIdStart c && forallb isIdChar s' && (length s' <=? 63)%nat
  end.

(** [s.replace(/[^a-z0-9_-]+/g, "-")]: every maximal run of units outside
    the class becomes one dash. [inRun] records that the previous unit was
    outside the class. *)
Fixpoint dashInvalid (inRun : bool) (s : jsstring) : jsstring :=
  match s with
  | [] => []
  | c :: s' =>
      if isSlugChar c then c :: dashInvalid false s'
      else if inRun then dashInvalid true s'
      else DASH :: dashInvalid true s'
  end.

(** [s.replace(/^-+/, "")] and [s.replace(/-+$/, "")]. *)
Definition stripLeadingDashes (s : jsstring) : jsstring := dropWhile isDash s.
Definition stripTrailingDashes (s : jsstring) : jsstring :=
  rev (dropWhile isDash (rev s)).

Section Keys.

(** [String.prototype.toLowerCase], which maps by the Unicode tables. *)
Variable toLowerCase : jsstring -> jsstring.

Definition normalizeToken (value : option jsstring) : jsstring :=
  toLowerCase (trim (default [] value)).

Definition normalizeMainKey (value : option jsstring) : jsstring :=
  let trimmed := trim (default [] value) in
  if nonEmpty trimmed then trimmed else DEFAULT_MAIN_KEY.

Definition normalizeAgentId (value : option jsstring) : jsstring :=
  let trimmed := trim (default [] value) in
  if negb (nonEmpty trimmed) then DEFAULT_AGENT_ID
  else if matchesId trimmed then trimmed
  else
    orText
      (take 64
         (stripTrailingDashes
            (stripLeadingDashes (dashInvalid false (toLowerCase trimmed)))))
      DEFAULT_AGENT_ID.

Definition normalizeAccountId (value : option jsstring) : jsstring :=
  let trimmed := trim (default [] value) in
  if negb (nonEmpty trimmed) then DEFAULT_ACCOUNT_ID
  else if matchesId trimmed then trimmed
  else
    orText
      (take 64
         (stripTrailingDashes
            (stripLeadingDashes (dashInvalid false (toLowerCase trimmed)))))
      DEFAULT_ACCOUNT_ID.

Definition parseAgentSessionKey (sessionKey : option jsstring)
    : option ParsedAgentSessionKey :=
  let raw := trim (default [] sessionKey) in
  if negb (nonEmpty raw) then None
  else
    let parts := List.filter nonEmpty (split COLON raw) in
    if (length parts <? 3)%nat then None
    else if negb (bool_decide (parts !! 0%nat = Some (lit "agent"))) then None
    else
      let agentId := trim <$> parts !! 1%nat in
      let rest := join (lit ":") (drop 2 parts) in
      if negb (truthy agentId) || negb (nonEmpty rest) then None
      else Some {| agentId := default [] agentId; rest := rest |}.

Definition resolveAgentIdFromSessionKey (sessionKey : option jsstring) : jsstring :=
  normalizeAgentId
    (Some (from_option agentId DEFAULT_AGENT_ID (parseAgentSessionKey sessionKey))).

Definition isSubagentSessionKey (sessionKey : option jsstring) : bool :=
  let raw := trim (default [] sessionKey) in
  if negb (nonEmpty raw) then false
  else if startsWith (toLowerCase raw) (lit "subagent:") then true
  else
    startsWith
      (toLowerCase (from_option rest [] (parseAgentSessionKey (Some raw))))
      (lit "subagent:").

Definition buildAgentMainSessionKey (agentId : jsstring)
    (mainKey : option jsstring) : jsstring :=
  lit "agent:" ++ normalizeAgentId (Some agentId) ++ lit ":"
  ++ normalizeMainKey mainKey.

Definition buildAgentPeerSessionKey (agentId : jsstring)
    (mainKey : option jsstring) (provider : option jsstring)
    (peerKind : option PeerKind) (peerId : option jsstring) : jsstring :=
  let peerKind := default Dm peerKind in
  if bool_decide (peerKind = Dm) then buildAgentMainSessionKey agentId mainKey
  else
    let provider := orText (toLowerCase (trim (default [] provider))) (lit "unknown") in
    let peerId := orText (trim (default [] peerId)) (lit "unknown") in
    lit "agent:" ++ normalizeAgentId (Some agentId) ++ lit ":" ++ provider
    ++ lit ":" ++ peerKindText peerKind ++ lit ":" ++ peerId.

Definition buildGroupHistoryKey (provider : jsstring)
    (accountId : option jsstring) (peerKind : PeerKind) (peerId : jsstring)
    : jsstring :=
  let provider := orText (normalizeToken (Some provider)) (lit "unknown") in
  let accountId := normalizeAccountId accountId in
  let peerId := orText (trim peerId) (lit "unknown") in
  provider ++ lit ":" ++ accountId ++ lit ":" ++ peerKindText peerKind
  ++ lit ":" ++ peerId.

(** [resolveThreadSessionKeys]: the session key and the parent key. *)
Definition resolveThreadSessionKeys (baseSessionKey : jsstring)
    (threadId : option jsstring) (parentSessionKey : option jsstring)
    (useSuffix : option bool) : jsstring * option jsstring :=
  let threadId := trim (default [] threadId) in
  if negb (nonEmpty threadId) then (baseSessionKey, None)
  else
    let useSuffix := default true useSuffix in
    (if useSuffix then baseSessionKey ++ lit ":thread:" ++ threadId
     else baseSessionKey,
     parentSessionKey).

End Keys.

(** *** Vocabulary of the statements *)

(** An identifier that can be used as a path segment: 1 to 64 code
    units out of [A-Za-z0-9_-], the first of which is not a dash. *)
Definition pathSafe (s : jsstring) : Prop :=
  (0 < length s <= 64)%nat
  /\ Forall (fun c => isIdChar c = true) s
  /\ head s <> Some DASH.

End SessionKeys.

(** ** Session keys of inbound messages ([config/sessions.ts]) *)
Module InboundKeys.

Import JsText SessionKeys.

Inductive SessionScope := PerSender | Global.

Inductive SessionChatType := DirectChat | GroupChat | RoomChat.

#[global] Instance SessionScope_eq_dec : EqDecision SessionScope.
Proof. solve_decision. Defined.
#[global] Instance SessionChatType_eq_dec : EqDecision SessionChatType.
Proof. solve_decision. Defined.

(** The members of [MsgContext] that the key resolution reads. *)
Record MsgContext := {
  From : option jsstring;
  ChatType : option jsstring;
  Provider : option jsstring;
  SessionKey : option jsstring;
}.

Record GroupKeyResolution := {
  key : jsstring;
  legacyKey : option jsstring;
  provider : option jsstring;
  id : option jsstring;
  chatType : option SessionChatType;
}.

Definition GROUP_SURFACES : list jsstring :=
  [ lit "whatsapp"; lit "telegram"; lit "discord"; lit "signal";
    lit "imessage"; lit "webchat"; lit "slack" ].

Inductive GroupKind := KindGroup | KindChannel.

#[global] Instance GroupKind_eq_dec : EqDecision GroupKind.
Proof. solve_decision. Defined.

(** The variables [provider], [kind] and [id] of
    [resolveGroupSessionKey], which [parseParts] assigns. *)
Record Parsed := {
  p_provider : option jsstring;
  p_kind : option GroupKind;
  p_id : jsstring;
}.

Definition setId (st : Parsed) (v : jsstring) : Parsed :=
  {| p_provider := p_provider st; p_kind := p_kind st; p_id := v |}.

Definition parseKind (value : jsstring) : GroupKind :=
  if bool_decide (value = lit "channel") then KindChannel else KindGroup.

(** [["group", "channel"].includes(value)]. *)
Definition isKindWord (value : jsstring) : bool :=
  bool_decide (value ∈ [lit "group"; lit "channel"]).

Definition parseParts (parts : list jsstring) (st : Parsed) : Parsed :=
  let part0 := default [] (parts !! 0%nat) in
  let part1 := default [] (parts !! 1%nat) in
  if (2 <=? length parts)%nat && bool_decide (part0 ∈ GROUP_SURFACES) then
    if (3 <=? length parts)%nat then
      if isKindWord part1 then
        {| p_provider := Some part0; p_kind := Some (parseKind part1);
           p_id := join (lit ":") (drop 2 parts) |}
      else
        {| p_provider := Some part0; p_kind := p_kind st;
           p_id := join (lit ":") (drop 1 parts) |}
    else {| p_provider := Some part0; p_kind := p_kind st; p_id := part1 |}
  else if (2 <=? length parts)%nat && isKindWord part0 then
    {| p_provider := p_provider st; p_kind := Some (parseKind part0);
       p_id := join (lit ":") (drop 1 parts) |}
  else st.

(** [raw.startsWith("group:") || raw.includes(":group:") ||
    raw.includes(":channel:")]. *)
Definition looksLikeGroupKey (raw : jsstring) : bool :=
  startsWith raw (lit "group:") || includes raw (lit ":group:")
  || includes raw (lit ":channel:").

Section Resolve.

Variable toLowerCase : jsstring -> jsstring.
(** [normalizeE164] of [utils.ts], which is not part of the sources at
    hand. *)
Variable normalizeE164 : jsstring -> jsstring.

Definition resolveGroupSessionKey (ctx : MsgContext) : option GroupKeyResolution :=
  let from := trim (default [] (From ctx)) in
  if negb (nonEmpty from) then None
  else
    let chatType := (fun s => toLowerCase (trim s)) <$> ChatType ctx in
    let isGroup :=
      bool_decide (chatType = Some (lit "group"))
      || startsWith from (lit "group:")
      || includes from (lit "@g.us")
      || includes from (lit ":group:")
      || includes from (lit ":channel:") in
    if negb isGroup then None
    else
      let providerHint := (fun s => toLowerCase (trim s)) <$> Provider ctx in
      let hasLegacyGroupPrefix := startsWith from (lit "group:") in
      let raw := trim (if hasLegacyGroupPrefix
                       then drop (length (lit "group:")) from else from) in
      let init := {| p_provider := None; p_kind := None; p_id := [] |} in
      let st :=
        if hasLegacyGroupPrefix then
          let legacyParts := List.filter nonEmpty (split COLON raw) in
          if (1 <? length legacyParts)%nat then parseParts legacyParts init
          else setId init raw
        else if includes from (lit "@g.us") && negb (includes from (lit ":"))
        then setId init from
        else
          let st := parseParts (List.filter nonEmpty (split COLON from)) init in
          if negb (nonEmpty (p_id st)) then setId st (orText raw from) else st in
      let resolvedProvider :=
        match p_provider st with
        | Some p => Some p
        | None => providerHint
        end in
      if negb (truthy resolvedProvider) then
        let legacy := lit "group:" ++ (if hasLegacyGroupPrefix then raw else from) in
        Some {| key := legacy; legacyKey := Some legacy; provider := None;
                id := Some (orText raw from); chatType := Some GroupChat |}
      else
        let isChannel := bool_decide (p_kind st = Some KindChannel) in
        let resolvedKind := if isChannel then lit "channel" else lit "group" in
        let ident := orText (p_id st) (orText raw from) in
        Some {| key := default [] resolvedProvider ++ lit ":" ++ resolvedKind
                       ++ lit ":" ++ ident;
                legacyKey :=
                  if hasLegacyGroupPrefix || includes from (lit "@g.us")
                  then Some (lit "group:" ++ ident) else None;
                provider := resolvedProvider;
                id := Some ident;
                chatType := Some (if isChannel then RoomChat else GroupChat) |}.

Definition deriveSessionKey (scope : SessionScope) (ctx : MsgContext) : jsstring :=
  if bool_decide (scope = Global) then lit "global"
  else
    match resolveGroupSessionKey ctx with
    | Some resolvedGroup => key resolvedGroup
    | None =>
        let from := if truthy (From ctx)
                    then normalizeE164 (default [] (From ctx)) else [] in
        orText from (lit "unknown")
    end.

Definition resolveSessionKey (scope : SessionScope) (ctx : MsgContext)
    (mainKey : option jsstring) : jsstring :=
  let explicit := trim <$> SessionKey ctx in
  if truthy explicit then default [] explicit
  else
    let raw := deriveSessionKey scope ctx in
    if bool_decide (scope = Global) then raw
    else
      let canonicalMainKey := normalizeMainKey mainKey in
      let canonical :=
        buildAgentMainSessionKey toLowerCase DEFAULT_AGENT_ID (Some canonicalMainKey) in
      if negb (looksLikeGroupKey raw) then canonical
      else lit "agent:" ++ DEFAULT_AGENT_ID ++ lit ":" ++ raw.

(** [resolveAgentMainSessionKey({cfg, agentId})], with [mainKey] the
    value of [cfg.session.mainKey]. *)
Definition resolveAgentMainSessionKey (mainKey : option jsstring)
    (agentId : jsstring) : jsstring :=
  buildAgentMainSessionKey toLowerCase agentId (Some (normalizeMainKey mainKey)).

End Resolve.

End InboundKeys.

(** ** Queue settings ([auto-reply/reply/queue.ts]) *)
Module QueueConfig.

Import JsText FollowupQueue.

(** [cfg.messages.queue]. *)
Record QueueConfigEntry := {
  cfgMode : option jsstring;
  byChannel : option (gmap jsstring jsstring);
  cfgDebounceMs : option Z;
  cfgCap : option Z;
  cfgDrop : option jsstring;
}.

(** The queue members of a [SessionEntry]. *)
Record SessionQueueFields := {
  queueMode : option jsstring;
  queueDebounceMs : option Z;
  queueCap : option Z;
  queueDrop : option QueueDropPolicy;
}.

(** The members of [inlineOptions] that are read. *)
Record InlineOptions := {
  o_debounceMs : option Z;
  o_cap : option Z;
  o_dropPolicy : option QueueDropPolicy;
}.

Record ResolveParams := {
  cfgQueue : option QueueConfigEntry;
  channel : option jsstring;
  sessionEntry : option SessionQueueFields;
  inlineMode : option QueueMode;
  inlineOptions : option InlineOptions;
}.

(** [a ?? b]. *)
Definition nullish {A} (a b : option A) : option A :=
  match a with
  | Some v => Some v
  | None => b
  end.

(** [cleaned === w1 || cleaned === w2 || ...]. *)
Definition oneOf (cleaned : jsstring) (words : list string) : bool :=
  bool_decide (cleaned ∈ lit <$> words).

Section Resolve.

Variable toLowerCase : jsstring -> jsstring.

Definition normalizeQueueMode (raw : option jsstring) : option QueueMode :=
  if negb (truthy raw) then None
  else
    let cleaned := toLowerCase (trim (default [] raw)) in
    if oneOf cleaned ["queue"; "queued"]%string then Some Steer
    else if oneOf cleaned ["interrupt"; "interrupts"; "abort"]%string then Some Interrupt
    else if oneOf cleaned ["steer"; "steering"]%string then Some Steer
    else if oneOf cleaned ["followup"; "follow-ups"; "followups"]%string
    then Some Followup
    else if oneOf cleaned ["collect"; "coalesce"]%string then Some Collect
    else if oneOf cleaned ["steer+backlog"; "steer-backlog"; "steer_backlog"]%string
    then Some SteerBacklog
    else None.

Definition normalizeQueueDropPolicy (raw : option jsstring) : option QueueDropPolicy :=
  if negb (truthy raw) then None
  else
    let cleaned := toLowerCase (trim (default [] raw)) in
    if oneOf cleaned ["old"; "oldest"]%string then Some DropOld
    else if oneOf cleaned ["new"; "newest"]%string then Some DropNew
    else if oneOf cleaned ["summarize"; "summary"]%string then Some DropSummarize
    else None.

Definition defaultQueueModeForChannel (channel : option jsstring) : QueueMode :=
  Collect.

Definition resolveQueueSettings (params : ResolveParams) : QueueSettings :=
  let channelKey := (fun s => toLowerCase (trim s)) <$> channel params in
  let queueCfg := cfgQueue params in
  let providerModeRaw :=
    if truthy channelKey then
      match queueCfg ≫= byChannel with
      | Some table => table !! default [] channelKey
      | None => None
      end
    else None in
  let resolvedMode :=
    default (defaultQueueModeForChannel channelKey)
      (nullish (inlineMode params)
         (nullish (normalizeQueueMode (sessionEntry params ≫= queueMode))
            (nullish (normalizeQueueMode providerModeRaw)
               (normalizeQueueMode (queueCfg ≫= cfgMode))))) in
  let debounceRaw :=
    default DEFAULT_QUEUE_DEBOUNCE_MS
      (nullish (inlineOptions params ≫= o_debounceMs)
         (nullish (sessionEntry params ≫= queueDebounceMs)
            (queueCfg ≫= cfgDebounceMs))) in
  let capRaw :=
    default DEFAULT_QUEUE_CAP
      (nullish (inlineOptions params ≫= o_cap)
         (nullish (sessionEntry params ≫= queueCap) (queueCfg ≫= cfgCap))) in
  let dropRaw :=
    default DEFAULT_QUEUE_DROP
      (nullish (inlineOptions params ≫= o_dropPolicy)
         (nullish (sessionEntry params ≫= queueDrop)
            (normalizeQueueDropPolicy (queueCfg ≫= cfgDrop)))) in
  {| s_mode := resolvedMode;
     s_debounceMs := Some (Z.max 0 debounceRaw);
     s_cap := Some (Z.max 1 capRaw);
     s_dropPolicy := Some dropRaw |}.

End Resolve.

End QueueConfig.

(** ** The inline [/queue] directive ([auto-reply/reply/queue.ts]) *)
From Stdlib Require QArith Qround.

Module QueueDirective.

Import JsText FollowupQueue QueueConfig.

(** A JavaScript number as far as the parsers of the directive tell
    numbers apart. *)
Inductive JsNumber :=
| NumNaN
| NumInfinity (negative : bool)
| NumFinite (q : QArith_base.Q).

(** What [Math.round] makes of a number that is neither [NaN] nor
    negative: an integer, or [Infinity]. *)
Inductive Rounded :=
| RoundedInfinity
| RoundedTo (n : Z).

(** [Math.floor] and [Math.round] on a finite number. *)
Definition floorQ (q : QArith_base.Q) : Z := Qround.Qfloor q.
Definition roundQ (q : QArith_base.Q) : Z :=
  Qround.Qfloor (QArith_base.Qplus q (QArith_base.Qmake 1 2)).
(** [!q] and [q < 0] on a finite number. *)
Definition isZeroQ (q : QArith_base.Q) : bool :=
  QArith_base.Qeq_bool q (QArith_base.Qmake 0 1).
Definition isNegativeQ (q : QArith_base.Q) : bool :=
  negb (QArith_base.Qle_bool (QArith_base.Qmake 0 1) q).

Record DirectiveArgs := {
  consumed : nat;
  queueMode : option QueueMode;
  queueReset : bool;
  rawMode : option jsstring;
  debounceMs : option Rounded;
  cap : option Z;
  dropPolicy : option QueueDropPolicy;
  rawDebounce : option jsstring;
  rawCap : option jsstring;
  rawDrop : option jsstring;
  hasOptions : bool;
}.

Record Directive := {
  cleaned : jsstring;
  hasDirective : bool;
  parsed : DirectiveArgs;
}.

(** The members that [extractQueueDirective] leaves out when there is
    no directive, and the variables of [parseQueueDirectiveArgs] at
    their declaration, with [consumed] set. *)
Definition noArgs (consumed : nat) : DirectiveArgs :=
  {| consumed := consumed; queueMode := None; queueReset := false;
     rawMode := None; debounceMs := None; cap := None; dropPolicy := None;
     rawDebounce := None; rawCap := None; rawDrop := None;
     hasOptions := false |}.

(** [takeWhile]: the longest prefix whose units satisfy [p]. *)
Fixpoint takeWhile {A} (p : A -> bool) (l : list A) : list A :=
  match l with
  | [] => []
  | x :: l' => if p x then x :: takeWhile p l' else []
  end.

(** [token.split(/[:=]/)]. *)
Fixpoint splitOption (s : jsstring) : list jsstring :=
  match s with
  | [] => [[]]
  | c :: s' =>
      if (c =? 58)%N || (c =? 61)%N then [] :: splitOption s'
      else match splitOption s' with
           | piece :: pieces => (c :: piece) :: pieces
           | [] => [[c]]
           end
  end.

(** [takeToken] on the text from index [i] on: the token and the text
    that is left after the white space behind it. *)
Definition takeToken (rest : jsstring) : option (jsstring * jsstring) :=
  match rest with
  | [] => None
  | _ :: _ =>
      let token := takeWhile (fun c => negb (isWhite c)) rest in
      if negb (nonEmpty token) then None
      else Some (token, dropWhile isWhite (drop (length token) rest))
  end.

Section Parse.

Variable toLowerCase : jsstring -> jsstring.
(** [parseDurationMs(text, { defaultUnit: "ms" })] of
    [cli/parse-duration.ts], which is not part of the sources at hand
    ([None]: it throws), and [Number(text)]. *)
Variable parseDurationMs : jsstring -> option JsNumber.
Variable toNumber : jsstring -> JsNumber.

Definition parseQueueDebounce (raw : option jsstring) : option Rounded :=
  if negb (truthy raw) then None
  else
    match parseDurationMs (trim (default [] raw)) with
    | Some (NumFinite q) =>
        if isZeroQ q || isNegativeQ q then None
        else Some (RoundedTo (roundQ q))
    | Some (NumInfinity false) => Some RoundedInfinity
    | Some (NumInfinity true) => None
    | Some NumNaN => None
    | None => None
    end.

Definition parseQueueCap (raw : option jsstring) : option Z :=
  if negb (truthy raw) then None
  else
    match toNumber (default [] raw) with
    | NumFinite q => if floorQ q <? 1 then None else Some (floorQ q)
    | _ => None
    end.

(** [consumed = i] with the fields of [args] otherwise as they are. *)
Definition at_ (len : nat) (rest : jsstring) (args : DirectiveArgs) : DirectiveArgs :=
  {| consumed := len - length rest; queueMode := queueMode args;
     queueReset := queueReset args; rawMode := rawMode args;
     debounceMs := debounceMs args; cap := cap args;
     dropPolicy := dropPolicy args; rawDebounce := rawDebounce args;
     rawCap := rawCap args; rawDrop := rawDrop args;
     hasOptions := hasOptions args |}.

(** [token.split(/[:=]/)[1] ?? ""]. *)
Definition optionValue (token : jsstring) : jsstring :=
  default [] (splitOption token !! 1%nat).

(** The [while (i < len)] loop of [parseQueueDirectiveArgs], with [rest]
    the text from index [i] on; every pass takes at least one unit off
    [rest], and [fuel] is the number of passes allowed. *)
Fixpoint tokenLoop (fuel : nat) (len : nat) (rest : jsstring)
    (args : DirectiveArgs) : DirectiveArgs :=
  match fuel with
  | O => args
  | S fuel' =>
      if negb (nonEmpty rest) then args
      else
        match takeToken rest with
        | None => args
        | Some (token, rest') =>
            let lowered := toLowerCase (trim token) in
            if oneOf lowered ["default"; "reset"; "clear"]%string then
              at_ len rest'
                {| consumed := consumed args; queueMode := queueMode args;
                   queueReset := true; rawMode := rawMode args;
                   debounceMs := debounceMs args; cap := cap args;
                   dropPolicy := dropPolicy args; rawDebounce := rawDebounce args;
                   rawCap := rawCap args; rawDrop := rawDrop args;
                   hasOptions := hasOptions args |}
            else if startsWith lowered (lit "debounce:")
                    || startsWith lowered (lit "debounce=") then
              tokenLoop fuel' len rest'
                (at_ len rest'
                   {| consumed := consumed args; queueMode := queueMode args;
                      queueReset := queueReset args; rawMode := rawMode args;
                      debounceMs := parseQueueDebounce (Some (optionValue token));
                      cap := cap args; dropPolicy := dropPolicy args;
                      rawDebounce := Some (optionValue token);
                      rawCap := rawCap args; rawDrop := rawDrop args;
                      hasOptions := true |})
            else if startsWith lowered (lit "cap:")
                    || startsWith lowered (lit "cap=") then
              tokenLoop fuel' len rest'
                (at_ len rest'
                   {| consumed := consumed args; queueMode := queueMode args;
                      queueReset := queueReset args; rawMode := rawMode args;
                      debounceMs := debounceMs args;
                      cap := parseQueueCap (Some (optionValue token));
                      dropPolicy := dropPolicy args;
                      rawDebounce := rawDebounce args;
                      rawCap := Some (optionValue token); rawDrop := rawDrop args;
                      hasOptions := true |})
            else if startsWith lowered (lit "drop:")
                    || startsWith lowered (lit "drop=") then
              tokenLoop fuel' len rest'
                (at_ len rest'
                   {| consumed := consumed args; queueMode := queueMode args;
                      queueReset := queueReset args; rawMode := rawMode args;
                      debounceMs := debounceMs args; cap := cap args;
                      dropPolicy :=
                        normalizeQueueDropPolicy toLowerCase (Some (optionValue token));
                      rawDebounce := rawDebounce args; rawCap := rawCap args;
                      rawDrop := Some (optionValue token);
                      hasOptions := true |})
            else
              match normalizeQueueMode toLowerCase (Some token) with
              | Some mode =>
                  tokenLoop fuel' len rest'
                    (at_ len rest'
                       {| consumed := consumed args; queueMode := Some mode;
                          queueReset := queueReset args; rawMode := Some token;
                          debounceMs := debounceMs args; cap := cap args;
                          dropPolicy := dropPolicy args;
                          rawDebounce := rawDebounce args; rawCap := rawCap args;
                          rawDrop := rawDrop args;
                          hasOptions := hasOptions args |})
              | None => args
              end
        end
  end.

Definition parseQueueDirectiveArgs (raw : jsstring) : DirectiveArgs :=
  let len := length raw in
  let rest := dropWhile isWhite raw in
  let rest :=
    match rest with
    | c :: rest' => if (c =? COLON)%N then dropWhile isWhite rest' else rest
    | [] => rest
    end in
  tokenLoop (S (length rest)) len rest (noArgs (len - length rest)).

(** The look-ahead [(?=$|\s|:)]. *)
Definition directiveEnds (rest : jsstring) : bool :=
  match rest with
  | [] => true
  | c :: _ => isWhite c || (c =? COLON)%N
  end.

(** [\/queue(?=$|\s|:)] under the [i] flag, at the start of [s]. *)
Definition directiveAt (s : jsstring) : bool :=
  bool_decide (lowerAscii (take 6 s) = lit "/queue") && directiveEnds (drop 6 s).

(** [re.exec(body)] for [/(?:^|\s)\/queue(?=$|\s|:)/i], with [s] the
    text from index [index] on: [match.index] and [match[0]] of the first
    match. *)
Fixpoint findDirective (index : nat) (s : jsstring) : option (nat * jsstring) :=
  if (index =? 0)%nat && directiveAt s then Some (index, take 6 s)
  else
    match s with
    | [] => None
    | c :: s' =>
        if isWhite c && directiveAt s' then Some (index, c :: take 6 s')
        else findDirective (S index) s'
    end.

(** [s.indexOf(p)], from index [index] on. *)
Fixpoint indexOfFrom (index : nat) (s p : jsstring) : Z :=
  if startsWith s p then Z.of_nat index
  else
    match s with
    | [] => -1
    | _ :: s' => indexOfFrom (S index) s' p
    end.

(** An index of [slice] brought into the range of the string. *)
Definition sliceIndex (len : nat) (i : Z) : nat :=
  if i <? 0 then Z.to_nat (Z.max 0 (Z.of_nat len + i))
  else Nat.min (Z.to_nat i) len.

(** [s.slice(from, to)] and [s.slice(from)]. *)
Definition slice (s : jsstring) (from to : Z) : jsstring :=
  let a := sliceIndex (length s) from in
  let b := sliceIndex (length s) to in
  take (b - a) (drop a s).
Definition sliceFrom (s : jsstring) (from : Z) : jsstring :=
  drop (sliceIndex (length s) from) s.

Definition extractQueueDirective (body : option jsstring) : Directive :=
  if negb (truthy body) then
    {| cleaned := []; hasDirective := false; parsed := noArgs 0 |}
  else
    let body := default [] body in
    match findDirective 0 body with
    | None => {| cleaned := trim body; hasDirective := false; parsed := noArgs 0 |}
    | Some (index, matched) =>
        let start := Z.of_nat index + indexOfFrom 0 matched (lit "/queue") in
        let argsStart := start + Z.of_nat (length (lit "/queue")) in
        let args := sliceFrom body argsStart in
        let parsed := parseQueueDirectiveArgs args in
        let cleanedRaw :=
          slice body 0 start ++ lit " "
          ++ sliceFrom body (argsStart + Z.of_nat (consumed parsed)) in
        {| cleaned := trim (collapseWhite cleanedRaw); hasDirective := true;
           parsed := parsed |}
    end.

End Parse.

(** *** Vocabulary of the statements *)

(** What holds of the arguments parsed so far, in a text of [len] units:
    a cap is at least 1, a finite debounce time at least 0, the mode is
    not the legacy one, and no more than [len] units are consumed. *)
Definition validArgs (len : nat) (args : DirectiveArgs) : Prop :=
  (forall c, cap args = Some c -> 1 <= c)
  /\ (forall n, debounceMs args = Some (RoundedTo n) -> 0 <= n)
  /\ queueMode args <> Some QueueLegacy
  /\ (consumed args <= len)%nat.

End QueueDirective.

(** ** Where an [agent] run delivers ([gateway/server-methods/agent.ts]) *)
Module AgentDelivery.

Import JsText.

(** What the delivery part of the handler reads: the provider asked for
    ([normalizeMessageProvider(request.provider) ?? "last"], with
    [normalizeMessageProvider] not part of the sources at hand), the
    members [to] and [deliver] of the request, the last provider and
    destination of the session entry, and [cfg.whatsapp.allowFrom]. *)
Record DeliveryRequest := {
  requestedProvider : jsstring;
  requestTo : option jsstring;
  requestDeliver : option bool;
  sessionLastProvider : option jsstring;
  sessionLastTo : option jsstring;
  whatsappAllowFrom : option (list jsstring);
}.

Definition DELIVERABLE : list jsstring :=
  [ lit "whatsapp"; lit "telegram"; lit "discord"; lit "signal"; lit "imessage" ].

Section Delivery.

(** [normalizeE164] of [utils.ts]. *)
Variable normalizeE164 : jsstring -> jsstring.

Definition lastTo (r : DeliveryRequest) : jsstring :=
  match sessionLastTo r with
  | Some t => trim t
  | None => []
  end.

(** [lastProvider && lastProvider !== "webchat" ? lastProvider : "whatsapp"]. *)
Definition lastOrWhatsapp (r : DeliveryRequest) : jsstring :=
  match sessionLastProvider r with
  | Some p =>
      if nonEmpty p && negb (bool_decide (p = lit "webchat")) then p
      else lit "whatsapp"
  | None => lit "whatsapp"
  end.

Definition resolvedProvider (r : DeliveryRequest) : jsstring :=
  if bool_decide (requestedProvider r = lit "last") then lastOrWhatsapp r
  else if bool_decide (requestedProvider r ∈ DELIVERABLE ++ [lit "webchat"])
  then requestedProvider r
  else lastOrWhatsapp r.

(** [typeof request.to === "string" && request.to.trim()
     ? request.to.trim() : undefined]. *)
Definition explicitTo (r : DeliveryRequest) : option jsstring :=
  match requestTo r with
  | Some t => if nonEmpty (trim t) then Some (trim t) else None
  | None => None
  end.

Definition resolvedTo (r : DeliveryRequest) : option jsstring :=
  match explicitTo r with
  | Some explicit => Some explicit
  | None =>
      if bool_decide (resolvedProvider r ∈ DELIVERABLE)
      then (if nonEmpty (lastTo r) then Some (lastTo r) else None)
      else None
  end.

Definition sanitizedTo (r : DeliveryRequest) : option jsstring :=
  if negb (bool_decide (resolvedProvider r = lit "whatsapp")) then resolvedTo r
  else if bool_decide (is_Some (explicitTo r)) then resolvedTo r
  else
    let rawAllow := default [] (whatsappAllowFrom r) in
    if bool_decide (lit "*" ∈ rawAllow) then resolvedTo r
    else
      let allowFrom :=
        List.filter (fun val => (1 <? length val)%nat)
          (List.map normalizeE164 rawAllow) in
      if bool_decide (length allowFrom = 0%nat) then resolvedTo r
      else
        let normalizedLast :=
          match resolvedTo r with
          | Some t => if nonEmpty (trim t) then Some (normalizeE164 t) else None
          | None => None
          end in
        match normalizedLast with
        | Some n =>
            if nonEmpty n && bool_decide (n ∈ allowFrom) then Some n
            else head allowFrom
        | None => head allowFrom
        end.

Definition deliver (r : DeliveryRequest) : bool :=
  bool_decide (requestDeliver r = Some true)
  && negb (bool_decide (resolvedProvider r = lit "webchat")).

End Delivery.

End AgentDelivery.

(** ** The reply of a heartbeat run and the reset triggers
    ([web/auto-reply.ts], [auto-reply/reply/session.ts]) *)
Module ReplySelection.

Import JsText SessionLifecycle.

(** What [replyResolver] hands back: nothing, one payload, or an array
    whose elements can be missing. *)
Inductive ReplyResult :=
| NoReply
| OneReply (p : ReplyPayload)
| ManyReplies (ps : list (option ReplyPayload)).

(** [payload.text || payload.mediaUrl ||
    (payload.mediaUrls && payload.mediaUrls.length > 0)]. *)
Definition hasContent (p : ReplyPayload) : bool :=
  nonEmpty (text p) || nonEmpty (mediaUrl p) || (0 <? length (mediaUrls p))%nat.

(** The [for] loop of [resolveHeartbeatReplyPayload] over the elements
    it has not looked at yet, nearest first. *)
Fixpoint scanBackwards (remaining : list (option ReplyPayload))
    : option ReplyPayload :=
  match remaining with
  | [] => None
  | None :: remaining' => scanBackwards remaining'
  | Some payload :: remaining' =>
      if hasContent payload then Some payload else scanBackwards remaining'
  end.

Definition resolveHeartbeatReplyPayload (replyResult : ReplyResult)
    : option ReplyPayload :=
  match replyResult with
  | NoReply => None
  | OneReply p => Some p
  | ManyReplies ps => scanBackwards (rev ps)
  end.

(** The reset-trigger loop of [initSessionState], with
    [trimmedBody] and [strippedForReset] as the code computes them before
    the loop: [isNewSession] and [bodyStripped] as the loop leaves them. *)
Fixpoint scanResetTriggers (resetTriggers : list jsstring)
    (resetAuthorized : bool) (trimmedBody strippedForReset : jsstring)
    : bool * option jsstring :=
  match resetTriggers with
  | [] => (false, None)
  | trigger :: rest =>
      if negb (JsText.nonEmpty trigger)
      then scanResetTriggers rest resetAuthorized trimmedBody strippedForReset
      else if negb resetAuthorized then (false, None)
      else if bool_decide (trimmedBody = trigger)
              || bool_decide (strippedForReset = trigger)
      then (true, Some [])
      else
        let triggerPrefix := trigger ++ lit " " in
        if startsWith trimmedBody triggerPrefix
           || startsWith strippedForReset triggerPrefix
        then (true, Some (trimStart (drop (length trigger) strippedForReset)))
        else scanResetTriggers rest resetAuthorized trimmedBody strippedForReset
  end.

Definition DEFAULT_RESET_TRIGGERS : list jsstring := [lit "/new"; lit "/reset"].

(** [sessionCfg?.resetTriggers?.length ? sessionCfg.resetTriggers
     : DEFAULT_RESET_TRIGGERS]. *)
Definition resetTriggersOf (configured : option (list jsstring)) : list jsstring :=
  match configured with
  | Some (t :: ts) => t :: ts
  | _ => DEFAULT_RESET_TRIGGERS
  end.

(** *** Vocabulary of the statements *)

(** No payload of the list carries text or media. *)
Definition allEmpty (ps : list (option ReplyPayload)) : Prop :=
  Forall (fun o => forall q, o = Some q -> hasContent q = false) ps.

(** The trigger [t] fits the message: one of the two forms of the body
    is the trigger, or starts with the trigger and a space. *)
Definition fits (trimmedBody strippedForReset t : jsstring) : Prop :=
  trimmedBody = t \/ strippedForReset = t
  \/ startsWith trimmedBody (t ++ lit " ") = true
  \/ startsWith strippedForReset (t ++ lit " ") = true.

End ReplySelection.

(** ** Helpers of the gateway session methods ([gateway/session-utils.ts]) *)
Module SessionUtils.

Import JsText SessionKeys.

Section Cap.

Context {T : Type}.
(** [jsonUtf8Bytes]: the size of an item as JSON text. *)
Variable jsonUtf8Bytes : T -> Z.

(** The [while] loop of [capArrayByJsonBytes]; [rest] holds the sizes
    from index [start] on. *)
Fixpoint dropOldest (rest : list Z) (bytes : Z) (start : nat) (maxBytes : Z)
    : Z * nat :=
  match rest with
  | part :: ((_ :: _) as rest') =>
      if maxBytes <? bytes
      then dropOldest rest' (bytes - (part + 1)) (S start) maxBytes
      else (bytes, start)
  | _ => (bytes, start)
  end.

Definition capArrayByJsonBytes (items : list T) (maxBytes : Z) : list T * Z :=
  match items with
  | [] => (items, 2)
  | _ :: _ =>
      let parts := List.map jsonUtf8Bytes items in
      let bytes :=
        2 + fold_left Z.add parts 0 + (Z.of_nat (length items) - 1) in
      let '(bytes, start) := dropOldest parts bytes 0 maxBytes in
      (if (0 <? start)%nat then drop start items else items, bytes)
  end.

End Cap.

(** The [kind] of a session row. *)
Inductive SessionRowKind := RowGlobal | RowUnknown | RowGroup | RowDirect.

(** [classifySessionKey(key, entry)], with [entryChatType] the value of
    [entry?.chatType]. *)
Definition classifySessionKey (key : jsstring)
    (entryChatType : option InboundKeys.SessionChatType) : SessionRowKind :=
  if bool_decide (key = lit "global") then RowGlobal
  else if bool_decide (key = lit "unknown") then RowUnknown
  else if bool_decide (entryChatType = Some InboundKeys.GroupChat)
          || bool_decide (entryChatType = Some InboundKeys.RoomChat)
  then RowGroup
  else if startsWith key (lit "group:") || includes key (lit ":group:")
          || includes key (lit ":channel:")
  then RowGroup
  else RowDirect.

Section Canonical.

Variable toLowerCase : jsstring -> jsstring.

Definition canonicalizeSessionKeyForAgent (agentId key : jsstring) : jsstring :=
  if bool_decide (key = lit "global") || bool_decide (key = lit "unknown") then key
  else if startsWith key (lit "agent:") then key
  else lit "agent:" ++ normalizeAgentId toLowerCase (Some agentId) ++ lit ":" ++ key.

End Canonical.

(** *** Vocabulary of the statements *)

(** What the loop takes off the byte count for the sizes [parts]. *)
Definition released (parts : list Z) : Z :=
  foldr (fun p acc => p + 1 + acc) 0 parts.

(** The size that [capArrayByJsonBytes] reckons for an array of items:
    two brackets, the items and the commas between them. *)
Definition arrayBytes {T} (jsonUtf8Bytes : T -> Z) (items : list T) : Z :=
  2 + foldr Z.add 0 (List.map jsonUtf8Bytes items)
  + (Z.of_nat (length items) - 1).

End SessionUtils.

(** ** More vocabulary for the follow-up queue *)
Module QueueEvents.

Import FollowupQueue.

(** The key whose queue an event works on: the key passed to
    [enqueueFollowupRun] or [scheduleFollowupDrain], or the key of the
    drain loop that makes a step. *)
Definition eventKey (ev : Event) (w : World) : option string :=
  match ev with
  | EvEnqueue key _ _ _ _ => Some key
  | EvSchedule key => Some key
  | EvIterate i _ => loopKey <$> loops w !! i
  | EvReject i => loopKey <$> loops w !! i
  end.

(** The call that delivers a pending overflow notice ahead of the queued
    items, in the modes other than [collect]. *)
Definition pendingNotice (now : Z) (q : FollowupQueueState)
    : list (CallKind * FollowupRun) :=
  match fst (buildSummaryPrompt q), lastRun q with
  | Some notice, Some r => [(SummaryCall, synthesized notice r now)]
  | _, _ => []
  end.

End QueueEvents.

(** ** More vocabulary for the [agent] method *)
Module GatewayTraces.

Import AgentMethod.

(** The runs started for the key [key]. *)
Definition runsFor (key : string) (g : Gateway) : list string :=
  List.filter (fun id => bool_decide (id = key)) (started g).

(** The key has an entry and no handler for it is suspended. *)
Definition settled (key : string) (g : Gateway) : Prop :=
  is_Some (dedupe g !! dedupeKey key)
  /\ (forall req, req ∈ awaitingSave g -> idempotencyKey req <> key).

End GatewayTraces.

(** ** More sample data *)
Module MoreSamples.

Import JsText InboundKeys.

(** A stand-in for [normalizeE164]: a plus sign and the digits of the
    text. *)
Definition plainNumber (s : jsstring) : jsstring :=
  43%N :: List.filter isDigit s.

(** A message from a WhatsApp group, by the group's JID. *)
Definition whatsappGroup : MsgContext :=
  {| From := Some (lit "120363@g.us"); ChatType := Some (lit "group");
     Provider := Some (lit "WhatsApp"); SessionKey := None |}.

(** A direct message. *)
Definition directMessage : MsgContext :=
  {| From := Some (lit "+49 170 1234567"); ChatType := None;
     Provider := Some (lit "whatsapp"); SessionKey := Some (lit "  ") |}.

(** Queue settings with an inline cap of zero and nothing configured. *)
Definition inlineCapZero : QueueConfig.ResolveParams :=
  {| QueueConfig.cfgQueue := None; QueueConfig.channel := Some (lit "Slack");
     QueueConfig.sessionEntry := None; QueueConfig.inlineMode := None;
     QueueConfig.inlineOptions :=
       Some {| QueueConfig.o_debounceMs := None; QueueConfig.o_cap := Some 0;
               QueueConfig.o_dropPolicy := None |} |}.

(** A request without a recipient, for a session last reached on
    WhatsApp at a number that is no longer allowed. *)
Definition staleRecipient : AgentDelivery.DeliveryRequest :=
  {| AgentDelivery.requestedProvider := lit "last";
     AgentDelivery.requestTo := None;
     AgentDelivery.requestDeliver := Some true;
     AgentDelivery.sessionLastProvider := Some (lit "whatsapp");
     AgentDelivery.sessionLastTo := Some (lit "+1 555 0100");
     AgentDelivery.whatsappAllowFrom := Some [lit "+49 170 1234567"; lit "x"] |}.

(** Sizes of three array items as JSON text. *)
Definition itemBytes (item : string) : Z := Z.of_nat (String.length item) + 2.

(** The registry after one accepted enqueue under each of two keys. *)
Definition twoKeys : FollowupQueue.World :=
  FollowupQueue.runEvents Samples.anyChannel
    [ FollowupQueue.EvEnqueue "a" Samples.slackA
        (Samples.capTwo FollowupQueue.Followup FollowupQueue.DropOld) None 1;
      FollowupQueue.EvEnqueue "b" Samples.slackB
        (Samples.capTwo FollowupQueue.Followup FollowupQueue.DropOld) None 2 ]
    FollowupQueue.initialWorld.

(** One second after [Samples.quietEnv], with the file as it was. *)
Definition laterEnv : SessionStore.LoadEnv :=
  {| SessionStore.now := 12000;
     SessionStore.ttl := SessionStore.DEFAULT_SESSION_STORE_TTL_MS;
     SessionStore.getFileMtimeMs := fun _ => Some 500;
     SessionStore.readFileSync := fun _ => None |}.

(** A message for a group whose entry is still filed under the legacy
    key, half an hour after that entry was last updated. *)
Definition groupMessage : SessionLifecycle.InitInput :=
  {| SessionLifecycle.cfgIdleMinutes := None;
     SessionLifecycle.resetTriggered := false;
     SessionLifecycle.resolvedKey := "agent:main:whatsapp:group:1@g.us";
     SessionLifecycle.legacyKey := Some "group:1@g.us";
     SessionLifecycle.parentSessionKey := None;
     SessionLifecycle.clock := 1800000;
     SessionLifecycle.randomUUID := "s-new" |}.

(** The same message with a reset trigger. *)
Definition groupReset : SessionLifecycle.InitInput :=
  {| SessionLifecycle.cfgIdleMinutes := None;
     SessionLifecycle.resetTriggered := true;
     SessionLifecycle.resolvedKey := "agent:main:whatsapp:group:1@g.us";
     SessionLifecycle.legacyKey := Some "group:1@g.us";
     SessionLifecycle.parentSessionKey := None;
     SessionLifecycle.clock := 1800000;
     SessionLifecycle.randomUUID := "s-new" |}.

(** Stand-ins for [Number] and for [parseDurationMs] with milliseconds
    as the unit, on texts of decimal digits; any other text is taken as
    not a number. *)
Definition digitsValue (s : jsstring) : option Z :=
  if nonEmpty s && forallb isDigit s
  then Some (fold_left (fun acc c => 10 * acc + (Z.of_N c - 48)) s 0)
  else None.
Definition digitsNumber (s : jsstring) : QueueDirective.JsNumber :=
  match digitsValue s with
  | Some n => QueueDirective.NumFinite (QArith_base.Qmake n 1)
  | None => QueueDirective.NumNaN
  end.
Definition digitsDuration (s : jsstring) : option QueueDirective.JsNumber :=
  match digitsValue s with
  | Some n => Some (QueueDirective.NumFinite (QArith_base.Qmake n 1))
  | None => None
  end.

End MoreSamples.

(** * Properties *)

(** ** Strings *)
Module JsFacts.

Lemma dropWhile_length {A} (p : A -> bool) (l : list A) :
  (length (dropWhile p l) <= length l)%nat.
Proof.
  induction l as [|x l IH]; simpl; [lia|].
  destruct (p x); simpl; lia.
Qed.

Lemma trimEnd_length (s : jsstring) : (length (trimEnd s) <= length s)%nat.
Proof.
  unfold trimEnd. rewrite length_rev.
  etransitivity; [apply dropWhile_length|]. by rewrite length_rev.
Qed.

Lemma dropWhile_app {A} (p : A -> bool) (l1 l2 : list A) :
  dropWhile p (l1 ++ l2)
  = if forallb p l1 then dropWhile p l2 else dropWhile p l1 ++ l2.
Proof.
  induction l1 as [|a l1 IH]; simpl; [done|].
  destruct (p a); simpl; [exact IH|done].
Qed.

Lemma forallb_rev {A} (p : A -> bool) (l : list A) :
  forallb p (rev l) = forallb p l.
Proof.
  induction l as [|a l IH]; simpl; [done|].
  rewrite forallb_app, IH. simpl. rewrite andb_true_r. apply andb_comm.
Qed.

Lemma trimEnd_app (a b : jsstring) :
  trimEnd (a ++ b) = if forallb isWhite b then trimEnd a else a ++ trimEnd b.
Proof.
  unfold trimEnd. rewrite rev_app_distr, dropWhile_app, forallb_rev.
  destruct (forallb isWhite b); [done|].
  by rewrite rev_app_distr, rev_involutive.
Qed.

Lemma trimEnd_white (b : jsstring) : forallb isWhite b = true -> trimEnd b = [].
Proof.
  intros H. pose proof (trimEnd_app [] b) as E. simpl in E. by rewrite H in E.
Qed.

End JsFacts.

(** ** The follow-up queue *)
Module FollowupQueueFacts.

Import FollowupQueue JsFacts.

#[local] Arguments lit : simpl never.
#[local] Arguments join : simpl never.
#[local] Arguments trim : simpl never.
#[local] Arguments numToString : simpl never.
#[local] Arguments overflowLines : simpl never.
#[local] Arguments buildCollectPrompt : simpl never.
#[local] Arguments buildQueueSummaryLine : simpl never.
#[local] Arguments hasCrossChannelItems : simpl never.

Lemma elideText_length (t : jsstring) (limit : nat) :
  (1 <= limit)%nat -> (length (elideText t limit) <= limit)%nat.
Proof.
  intros Hl. unfold elideText.
  destruct (length t <=? limit)%nat eqn:E.
  - by apply Nat.leb_le.
  - rewrite length_app. simpl.
    pose proof (trimEnd_length (take (limit - 1) t)) as H.
    rewrite length_take in H. lia.
Qed.

Lemma buildQueueSummaryLine_length (r : FollowupRun) :
  (length (buildQueueSummaryLine r) <= 160)%nat.
Proof. unfold buildQueueSummaryLine. apply elideText_length. lia. Qed.

Lemma hasSameRouting_route (r item : FollowupRun) :
  hasSameRouting r item = true <-> route item = route r.
Proof.
  unfold hasSameRouting, route.
  rewrite !andb_true_iff, !bool_decide_eq_true.
  split; [intros [[[-> ->] ->] ->]; done | intros [= -> -> -> ->]; done].
Qed.

Lemma enqueueOnto_dedupe queue r dm now :
  dedupeHit dm r queue = true -> enqueueOnto queue r dm now = (queue, false).
Proof.
  unfold dedupeHit, enqueueOnto.
  destruct (default DedupeMessageId dm); intros H; simpl.
  - by rewrite H.
  - rewrite H. simpl. by destruct (isRunAlreadyQueued r queue false).
  - done.
Qed.

(** When no de-duplication exit is taken the call goes on to the capacity
    test with the time and the run parameters already recorded. *)
Lemma enqueueOnto_pass queue r dm now :
  dedupeHit dm r queue = false ->
  enqueueOnto queue r dm now = enqueueOnto queue r (Some DedupeNone) now.
Proof.
  unfold dedupeHit, enqueueOnto.
  destruct (default DedupeMessageId dm); intros H; simpl; by rewrite ?H.
Qed.

Lemma lookupQueue_store key ref q reg :
  FOLLOWUP_QUEUES reg !! key = Some ref ->
  lookupQueue key (store ref q reg) = Some q.
Proof.
  intros H. unfold lookupQueue, store. simpl. rewrite H. simpl.
  by rewrite lookup_insert_eq.
Qed.

(** [enqueueFollowupRun] acts on the registered object as [enqueueOnto]
    acts on the object returned by [getFollowupQueue]. *)
Lemma enqueueFollowupRun_lookup key r settings dm now reg :
  exists reg',
    enqueueFollowupRun key r settings dm now reg
    = (reg', snd (enqueueOnto (queueFor key settings reg) r dm now))
    /\ lookupQueue key reg'
       = Some (fst (enqueueOnto (queueFor key settings reg) r dm now)).
Proof.
  unfold enqueueFollowupRun, getFollowupQueue, queueFor, lookupQueue.
  destruct (FOLLOWUP_QUEUES reg !! key) as [ref|] eqn:Hk; simpl.
  - rewrite lookup_insert_eq.
    destruct (enqueueOnto _ r dm now) as [q' b] eqn:E. simpl.
    eexists. split; [reflexivity|]. simpl. rewrite Hk. simpl.
    by rewrite lookup_insert_eq.
  - rewrite lookup_insert_eq.
    destruct (enqueueOnto _ r dm now) as [q' b] eqn:E. simpl.
    eexists. split; [reflexivity|]. simpl.
    rewrite lookup_insert_eq. simpl. by rewrite lookup_insert_eq.
Qed.



Lemma applySettings_items existing settings :
  items (applySettings existing settings) = from_option items [] existing.
Proof. by destruct existing. Qed.

Lemma recordDropped_items q dropped : items (recordDropped q dropped) = items q.
Proof. done. Qed.

Lemma enqueueOnto_items queue r dm now y :
  y ∈ items (fst (enqueueOnto queue r dm now)) -> y ∈ items queue \/ y = r.
Proof.
  unfold enqueueOnto.
  destruct (_ && isRunAlreadyQueued r queue false); [simpl; auto|].
  destruct (_ && isRunAlreadyQueued r queue true); [simpl; auto|].
  simpl.
  destruct ((0 <? cap queue) && _); simpl.
  - destruct (bool_decide (dropPolicy queue = DropNew)); [simpl; auto|].
    destruct (bool_decide (dropPolicy queue = DropSummarize)); simpl;
      rewrite elem_of_app, list_elem_of_singleton; intros [H|H]; auto;
      left; eapply subseteq_drop; eauto.
  - rewrite elem_of_app, list_elem_of_singleton. tauto.
Qed.

Section Trace.

Variable isRoutableChannel : option jsstring -> bool.
Variable x : FollowupRun.

Lemma queuedNowhere_store ref q reg :
  queuedNowhere x reg -> x ∉ items q -> queuedNowhere x (store ref q reg).
Proof.
  intros Hreg Hq ref' q'. unfold store; simpl.
  rewrite lookup_insert. case_decide; [by intros [= <-]|]. apply Hreg.
Qed.

Lemma scheduleFollowupDrain_frame key w :
  queuedNowhere x (registry w) ->
  queuedNowhere x (registry (scheduleFollowupDrain key w))
  /\ executed (scheduleFollowupDrain key w) = executed w.
Proof.
  intros Hw. unfold scheduleFollowupDrain.
  destruct (FOLLOWUP_QUEUES (registry w) !! key) as [ref|]; [|done].
  destruct (heap (registry w) !! ref) as [q|] eqn:Hq; [|done].
  destruct (draining q); [done|]. simpl. split; [|done].
  apply queuedNowhere_store; [done|]. simpl. by eapply Hw.
Qed.

Lemma runFinally_frame l w :
  queuedNowhere x (registry w) ->
  queuedNowhere x (registry (runFinally l w))
  /\ executed (runFinally l w) = executed w.
Proof.
  intros Hw. unfold runFinally.
  destruct (heap (registry w) !! loopQueue l) as [q|] eqn:Hq; [|done].
  assert (Hs : queuedNowhere x (store (loopQueue l) (setDraining q false) (registry w))).
  { apply queuedNowhere_store; [done|]. simpl. by eapply Hw. }
  match goal with |- context [if ?b then _ else _] => destruct b end.
  - simpl. done.
  - match goal with |- context [scheduleFollowupDrain ?k ?w0] =>
      destruct (scheduleFollowupDrain_frame k w0 Hs) as [H1 H2] end.
    split; [done|]. by rewrite H2.
Qed.

Lemma drainIteration_items now force q :
  match drainIteration isRoutableChannel now force q with
  | IterRun kind call q' _ =>
      items q' ⊆ items q /\ (kind = ItemCall -> call ∈ items q)
  | IterBreak q' => items q' ⊆ items q
  end.
Proof.
  assert (Hshift : forall q1 f, items q1 = items q ->
    match match items q1 with
          | [] => IterBreak q1
          | next :: rest => IterRun ItemCall next (setItems q1 rest) f
          end with
    | IterRun kind call q' _ =>
        items q' ⊆ items q /\ (kind = ItemCall -> call ∈ items q)
    | IterBreak q' => items q' ⊆ items q
    end).
  { intros q1 f E1. rewrite E1.
    destruct (items q) as [|next rest] eqn:E; simpl; rewrite ?E1, ?E;
      [set_solver|].
    split; [set_solver|]. intros _. by left. }
  unfold drainIteration.
  destruct (bool_decide (mode q = Collect)).
  - destruct force; [by apply Hshift|].
    destruct (hasCrossChannelItems isRoutableChannel (items q)); [by apply Hshift|].
    unfold buildSummaryPrompt. simpl.
    destruct (negb _ || _); simpl;
      destruct (from_option _ _ _); simpl; try split; try discriminate;
      set_solver.
  - unfold buildSummaryPrompt.
    destruct (negb _ || _); simpl; [by apply Hshift|].
    destruct (join _ _); simpl; [by apply (Hshift (setDropped q 0 []))|].
    destruct (lastRun q); simpl; [|set_solver].
    split; [set_solver|discriminate].
Qed.

Lemma enqueue_frame key r settings dm now reg :
  r <> x -> queuedNowhere x reg ->
  queuedNowhere x (fst (enqueueFollowupRun key r settings dm now reg)).
Proof.
  intros Hr Hreg. unfold enqueueFollowupRun, getFollowupQueue.
  assert (Hstep : forall existing,
             (forall q, existing = Some q -> x ∉ items q) ->
             x ∉ items (fst (enqueueOnto (applySettings existing settings) r dm now))).
  { intros existing He Hin.
    apply enqueueOnto_items in Hin as [Hin| ->]; [|done].
    rewrite applySettings_items in Hin.
    destruct existing as [q|]; simpl in Hin; [by eapply He|set_solver]. }
  destruct (FOLLOWUP_QUEUES reg !! key) as [ref|] eqn:Hk; simpl.
  - rewrite lookup_insert_eq.
    specialize (Hstep (heap reg !! ref) (fun q Hq => Hreg ref q Hq)).
    destruct (enqueueOnto _ r dm now) as [q' b]. simpl in *.
    apply queuedNowhere_store; [|done].
    apply queuedNowhere_store; [done|].
    rewrite applySettings_items.
    destruct (heap reg !! ref) as [q|] eqn:Hq; simpl; [by eapply Hreg|set_solver].
  - rewrite lookup_insert_eq.
    specialize (Hstep None (fun q Hq => ltac:(discriminate))).
    destruct (enqueueOnto _ r dm now) as [q' b]. simpl in *.
    intros ref' q''. simpl. rewrite lookup_insert.
    case_decide; [by intros [= <-]|].
    rewrite lookup_insert. case_decide; [intros [= <-]; simpl; set_solver|].
    apply Hreg.
Qed.

(** One event: what it adds to the log of executor calls is not a queued
    item equal to [x], unless the event itself enqueues [x]. *)
Lemma step_never_executes ev w :
  queuedNowhere x (registry w) -> ~ enqueues x ev ->
  queuedNowhere x (registry (step isRoutableChannel ev w))
  /\ exists new,
       executed (step isRoutableChannel ev w) = executed w ++ new
       /\ Forall (fun c => callKind c = ItemCall -> callRun c <> x) new.
Proof.
  intros Hw Hev.
  assert (Hnil : forall w' : World,
             executed w' = executed w ->
             exists new, executed w' = executed w ++ new
               /\ Forall (fun c => callKind c = ItemCall -> callRun c <> x) new).
  { intros w' ->. exists []. by rewrite app_nil_r. }
  destruct ev as [key r settings dm now|key|i now|i]; simpl.
  - split; [|by apply Hnil]. apply enqueue_frame; [|done]. exact Hev.
  - destruct (scheduleFollowupDrain_frame key w Hw) as [H1 H2]. split; [done|].
    by apply Hnil.
  - destruct (loops w !! i) as [l|]; [|split; [done|by apply Hnil]].
    destruct (heap (registry w) !! loopQueue l) as [q|] eqn:Hq;
      [|split; [done|by apply Hnil]].
    destruct (loopTest q); simpl.
    2:{ match goal with |- context [runFinally l ?w0] =>
          destruct (runFinally_frame l w0 Hw) as [H1 H2] end.
        split; [done|]. by apply Hnil. }
    destruct (debounceElapsed now q); simpl; [|split; [done|by apply Hnil]].
    pose proof (drainIteration_items now (forceIndividualCollect l) q) as Hit.
    destruct (drainIteration isRoutableChannel now (forceIndividualCollect l) q)
      as [kind call q' force'|q'].
    + destruct Hit as [Hsub Hcall]. simpl. split.
      * apply queuedNowhere_store; [done|]. intros Hin. by eapply Hw, Hsub.
      * exists [ {| callKey := loopKey l; callKind := kind; callRun := call |} ].
        split; [done|]. constructor; [|constructor]. simpl.
        intros Hk ->. by eapply Hw, Hcall.
    + assert (Hs : queuedNowhere x (store (loopQueue l) q' (registry w))).
      { apply queuedNowhere_store; [done|]. intros Hin. by eapply Hw, Hit. }
      match goal with |- context [runFinally l ?w0] =>
        destruct (runFinally_frame l w0 Hs) as [H1 H2] end.
      split; [done|]. by apply Hnil.
  - destruct (loops w !! i) as [l|]; [|split; [done|by apply Hnil]].
    match goal with |- context [runFinally l ?w0] =>
      destruct (runFinally_frame l w0 Hw) as [H1 H2] end.
    split; [done|]. by apply Hnil.
Qed.

(** An item that is queued nowhere and is not enqueued again is never
    handed to the executor as a queued item. *)
Lemma never_executed evs w :
  queuedNowhere x (registry w) -> Forall (fun ev => ~ enqueues x ev) evs ->
  exists new,
    executed (runEvents isRoutableChannel evs w) = executed w ++ new
    /\ Forall (fun c => callKind c = ItemCall -> callRun c <> x) new.
Proof.
  revert w. induction evs as [|ev evs IH]; intros w Hw Hevs.
  - exists []. simpl. by rewrite app_nil_r.
  - inversion Hevs as [|? ? Hev Hrest]; subst.
    destruct (step_never_executes ev w Hw Hev) as (Hw' & new1 & E1 & F1).
    destruct (IH _ Hw' Hrest) as (new2 & E2 & F2).
    exists (new1 ++ new2). unfold runEvents in *. simpl. rewrite E2, E1.
    rewrite app_assoc. split; [done|]. by apply Forall_app.
Qed.

End Trace.


(** *** Enqueueing *)

Lemma enqueueYields_intro key r settings dm now reg :
  enqueueYields key r settings dm now reg
    (fst (enqueueOnto (queueFor key settings reg) r dm now))
    (snd (enqueueOnto (queueFor key settings reg) r dm now)).
Proof. apply enqueueFollowupRun_lookup. Qed.

Lemma queueFor_items key settings reg :
  items (queueFor key settings reg) = from_option items [] (lookupQueue key reg).
Proof. apply applySettings_items. Qed.

(** The capacity test when the call is not a duplicate. *)
Lemma enqueueOnto_full_new queue r dm now :
  dedupeHit dm r queue = false ->
  0 < cap queue -> cap queue <= Z.of_nat (length (items queue)) ->
  dropPolicy queue = DropNew ->
  enqueueOnto queue r dm now = (setEnqueued queue now (run r), false).
Proof.
  intros Hd Hc Hlen Hp. rewrite (enqueueOnto_pass _ _ _ _ Hd).
  unfold enqueueOnto. simpl.
  replace (0 <? cap queue) with true by (symmetry; by apply Z.ltb_lt).
  replace (cap queue <=? _) with true by (symmetry; by apply Z.leb_le).
  simpl. by rewrite Hp.
Qed.

(** The number of items that the overflow handling takes off the front:
    [queue.items.length - cap + 1]. *)
Lemma enqueueOnto_full_evict queue r dm now :
  dedupeHit dm r queue = false ->
  0 < cap queue -> cap queue <= Z.of_nat (length (items queue)) ->
  dropPolicy queue <> DropNew ->
  enqueueOnto queue r dm now =
    (let dropCount := Z.to_nat (Z.of_nat (length (items queue)) - cap queue + 1) in
     let q1 := setItems (setEnqueued queue now (run r))
                 (drop dropCount (items queue)) in
     let q2 := if bool_decide (dropPolicy queue = DropSummarize)
               then recordDropped q1 (take dropCount (items queue)) else q1 in
     setItems q2 (items q2 ++ [r]), true).
Proof.
  intros Hd Hc Hlen Hp. rewrite (enqueueOnto_pass _ _ _ _ Hd).
  unfold enqueueOnto. simpl.
  replace (0 <? cap queue) with true by (symmetry; by apply Z.ltb_lt).
  replace (cap queue <=? _) with true by (symmetry; apply Z.leb_le; lia).
  simpl. by rewrite bool_decide_eq_false_2 by done.
Qed.

Lemma enqueueOnto_room queue r dm now :
  dedupeHit dm r queue = false ->
  (0 < cap queue -> Z.of_nat (length (items queue)) < cap queue) ->
  enqueueOnto queue r dm now
  = (setItems (setEnqueued queue now (run r)) (items queue ++ [r]), true).
Proof.
  intros Hd Hroom. rewrite (enqueueOnto_pass _ _ _ _ Hd).
  unfold enqueueOnto. simpl.
  destruct (0 <? cap queue) eqn:E1; [|done].
  apply Z.ltb_lt in E1. specialize (Hroom E1).
  replace (cap queue <=? _) with false by (symmetry; apply Z.leb_gt; lia).
  done.
Qed.

(** A summary call takes its run parameters from [lastRun]. *)
Lemma summary_call_run isRoutable now force queue call queue' force' :
  drainIteration isRoutable now force queue = IterRun SummaryCall call queue' force' ->
  lastRun queue = Some (run call).
Proof.
  unfold drainIteration, buildSummaryPrompt.
  repeat (match goal with
          | |- context [if ?b then _ else _] => destruct b
          | |- context [match items queue with _ => _ end] => destruct (items queue)
          | |- context [match lastRun ?a with _ => _ end] => destruct (lastRun a) eqn:?
          | |- context [match from_option ?f ?d ?o with _ => _ end] =>
              destruct (from_option f d o) eqn:?
          end; simpl in *); try discriminate.
  all: by intros [= <- _ _].
Qed.

(** C10. A call of [enqueueFollowupRun] that is turned away because the
    queue is at its cap under the drop policy [new] returns [false] after
    it has set [lastEnqueuedAt] to the current time and [lastRun] to the
    run parameters of the rejected item; the list of items is as it was.
    A summary-only run synthesized from the queue in that state carries
    those parameters. *)
Theorem rejected_enqueue_records_time_and_run key r settings dm now reg :
  dedupeHit dm r (queueFor key settings reg) = false ->
  0 < cap (queueFor key settings reg) ->
  cap (queueFor key settings reg)
    <= Z.of_nat (length (items (queueFor key settings reg))) ->
  dropPolicy (queueFor key settings reg) = DropNew ->
  exists before queue',
    lookupQueue key reg = Some before
    /\ enqueueYields key r settings dm now reg queue' false
    /\ lastEnqueuedAt queue' = now
    /\ lastRun queue' = Some (run r)
    /\ items queue' = items before
    /\ droppedCount queue' = droppedCount before
    /\ summaryLines queue' = summaryLines before
    /\ draining queue' = draining before
    /\ forall isRoutable now' force later call queue'' force',
         lastRun later = lastRun queue' ->
         drainIteration isRoutable now' force later
           = IterRun SummaryCall call queue'' force' ->
         run call = run r.
Proof.
  intros Hd Hc Hlen Hp.
  destruct (lookupQueue key reg) as [before|] eqn:Hb.
  2:{ rewrite queueFor_items, Hb in Hlen. simpl in Hlen. lia. }
  pose proof (enqueueYields_intro key r settings dm now reg) as Hy.
  rewrite (enqueueOnto_full_new _ _ _ _ Hd Hc Hlen Hp) in Hy. simpl in Hy.
  exists before, (setEnqueued (queueFor key settings reg) now (run r)).
  unfold queueFor in *. rewrite Hb in *. simpl.
  repeat split; try done.
  intros isRoutable now' force later call queue'' force' Hl Hit.
  apply summary_call_run in Hit. simpl in Hl. congruence.
Qed.

Lemma rejected_enqueue_records_time_and_run_witness :
  exists queue',
    enqueueYields "k" Samples.slackC (Samples.capTwo Followup DropNew) None 3
      (Samples.fullRegistry Followup DropNew) queue' false
    /\ lastEnqueuedAt queue' = 3
    /\ lastRun queue' = Some (run Samples.slackC)
    /\ length (items queue') = 2%nat.
Proof.
  destruct (rejected_enqueue_records_time_and_run "k" Samples.slackC
              (Samples.capTwo Followup DropNew) None 3
              (Samples.fullRegistry Followup DropNew))
    as (before & queue' & Hb & Hy & Ht & Hr & Hi & _);
    [vm_compute; reflexivity | vm_compute; reflexivity
    | vm_compute; discriminate | vm_compute; reflexivity |].
  exists queue'. repeat split; try assumption.
  rewrite Hi. vm_compute in Hb. injection Hb as <-. reflexivity.
Defined.

Lemma last_drop_snoc {A} (l : list A) (a : A) (n : nat) :
  (n <= length l)%nat -> last (drop n (l ++ [a])) = Some a.
Proof. intros H. rewrite drop_app_le by done. apply last_snoc. Qed.

(** A list that is not empty ends in its last element. *)
Lemma snoc_of_cons {A} (x : A) (l : list A) :
  exists front final, x :: l = front ++ [final] /\ last (x :: l) = Some final.
Proof.
  revert x. induction l as [|y l IH]; intros x.
  - by exists [], x.
  - destruct (IH y) as (front & final & E & L).
    exists (x :: front), final. split; [by rewrite E|].
    rewrite last_cons, L. done.
Qed.

(** The text that [buildQueueSummaryLine] elides: never empty when
    something is left after the cut. *)
Lemma elideText_nonempty (text : jsstring) (limit : nat) :
  text <> [] -> elideText text limit <> [].
Proof.
  intros H. unfold elideText. destruct (_ <=? _)%nat; [done|].
  intros E. by apply app_eq_nil in E as [_ E].
Qed.

(** C2. An enqueue that is not a duplicate, onto a queue whose length has
    reached its cap ([cap <= length], the test of the code; the length
    exceeds the cap only after the cap was lowered). The items before the
    last [cap - 1] are the ones to evict: the front item [oldest] and, when
    the length exceeds the cap, the [more] behind it. Under [new] the
    item is rejected and the queue keeps its items. Under [old] the front
    items are evicted, the new one is appended, the length is the cap,
    nothing is recorded about the evicted ones, and no later event hands
    one of them to the executor as a queued item (as long as no equal item
    is queued or enqueued again). Under [summarize] the front items are
    evicted, the dropped count grows by one for each, and the synopsis of
    each is appended to the summary lines, of which the last [cap] are
    kept, so that the newest line is the synopsis of the item evicted
    last. The synopsis of an item is its summary line, or its prompt when
    the summary line is missing or blank, with every run of white space
    turned into one space and trimmed; a text of more than 160 code units
    is cut to its first 159, trimmed at the end, with an ellipsis
    appended. *)
Theorem enqueue_at_cap_applies_drop_policy isRoutable key r settings dm now w queue :
  queue = queueFor key settings (registry w) ->
  dedupeHit dm r queue = false ->
  0 < cap queue ->
  cap queue <= Z.of_nat (length (items queue)) ->
  exists oldest more kept queue' accepted,
    items queue = (oldest :: more) ++ kept
    /\ Z.of_nat (length more) = Z.of_nat (length (items queue)) - cap queue
    /\ enqueueYields key r settings dm now (registry w) queue' accepted
    /\ match dropPolicy queue with
       | DropNew =>
           accepted = false /\ items queue' = items queue
           /\ (Z.of_nat (length (items queue)) = cap queue ->
               Z.of_nat (length (items queue')) = cap queue')
       | DropOld =>
           accepted = true /\ items queue' = kept ++ [r]
           /\ Z.of_nat (length (items queue')) = cap queue'
           /\ droppedCount queue' = droppedCount queue
           /\ summaryLines queue' = summaryLines queue
           /\ forall evicted evs,
                evicted ∈ oldest :: more ->
                queuedNowhere evicted
                  (registry (step isRoutable (EvEnqueue key r settings dm now) w)) ->
                Forall (fun ev => ~ enqueues evicted ev) evs ->
                exists new,
                  executed (runEvents isRoutable evs
                              (step isRoutable (EvEnqueue key r settings dm now) w))
                  = executed w ++ new
                  /\ Forall (fun c => callKind c = ItemCall -> callRun c <> evicted) new
       | DropSummarize =>
           accepted = true /\ items queue' = kept ++ [r]
           /\ Z.of_nat (length (items queue')) = cap queue'
           /\ droppedCount queue' = droppedCount queue + 1 + Z.of_nat (length more)
           /\ (exists shifted,
                 summaryLines queue ++ List.map buildQueueSummaryLine (oldest :: more)
                 = shifted ++ summaryLines queue')
           /\ Z.of_nat (length (summaryLines queue')) <= cap queue'
           /\ last (summaryLines queue')
              = buildQueueSummaryLine <$> last (oldest :: more)
           /\ forall item,
                let text :=
                  trim (collapseWhite
                          (orElse (trim <$> summaryLine item) (trim (prompt item)))) in
                buildQueueSummaryLine item
                = (if (length text <=? 160)%nat then text
                   else trimEnd (take 159 text) ++ [ELLIPSIS])
                /\ (length (buildQueueSummaryLine item) <= 160)%nat
                /\ (text <> [] -> buildQueueSummaryLine item <> [])
       end.
Proof.
  intros -> Hd Hc Hlen.
  set (queue := queueFor key settings (registry w)) in *.
  set (dropCount := Z.to_nat (Z.of_nat (length (items queue)) - cap queue + 1)).
  assert (0 < dropCount <= length (items queue))%nat as Hcount by (unfold dropCount; lia).
  destruct (take dropCount (items queue)) as [|oldest more] eqn:Ht.
  { apply (f_equal length) in Ht. rewrite length_take in Ht. simpl in Ht. lia. }
  assert (length (oldest :: more) = dropCount) as Hdropped.
  { rewrite <- Ht, length_take. lia. }
  assert (items queue = (oldest :: more) ++ drop dropCount (items queue)) as Hi.
  { by rewrite <- Ht, take_drop. }
  pose proof (enqueueYields_intro key r settings dm now (registry w)) as Hy.
  fold queue in Hy.
  exists oldest, more, (drop dropCount (items queue)). do 2 eexists.
  split; [exact Hi|]. split; [simpl in Hdropped; unfold dropCount in Hdropped; lia|].
  split; [exact Hy|].
  assert (length (drop dropCount (items queue) ++ [r]) = Z.to_nat (cap queue)) as Hleft.
  { rewrite length_app, length_drop. simpl. unfold dropCount. lia. }
  destruct (dropPolicy queue) eqn:Hp.
  - rewrite (enqueueOnto_full_evict queue r dm now) by (done || congruence).
    fold dropCount. cbv zeta. rewrite Hp. simpl.
    repeat split; try done; try lia.
    intros evicted evs _ Hn Hevs.
    destruct (never_executed isRoutable evicted evs
                (step isRoutable (EvEnqueue key r settings dm now) w) Hn Hevs)
      as (new & E & F).
    exists new. split; [exact E|exact F].
  - rewrite (enqueueOnto_full_new queue r dm now) by done. done.
  - rewrite (enqueueOnto_full_evict queue r dm now) by (done || congruence).
    fold dropCount. cbv zeta. rewrite Hp, Ht. simpl.
    destruct (snoc_of_cons oldest more) as (front & final & Hsnoc & Hlast).
    set (lines := summaryLines queue
                  ++ buildQueueSummaryLine oldest
                     :: List.map buildQueueSummaryLine more).
    assert (lines = (summaryLines queue ++ List.map buildQueueSummaryLine front)
                    ++ [buildQueueSummaryLine final]) as Hlines.
    { unfold lines.
      change (buildQueueSummaryLine oldest :: List.map buildQueueSummaryLine more)
        with (List.map buildQueueSummaryLine (oldest :: more)).
      by rewrite Hsnoc, List.map_app, app_assoc. }
    repeat split; try done; try lia.
    + exists (take (length lines - Z.to_nat (Z.max 0 (cap queue))) lines).
      by rewrite take_drop.
    + rewrite length_drop. lia.
    + rewrite Hlast. cbn [fmap option_fmap option_map]. rewrite Hlines.
      apply last_drop_snoc.
      rewrite length_app. simpl. lia.
    + apply buildQueueSummaryLine_length.
    + apply elideText_nonempty.
Qed.

Lemma enqueue_at_cap_applies_drop_policy_witness :
  exists queue',
    enqueueYields "k" Samples.slackC (Samples.capTwo Followup DropSummarize) None 3
      Samples.untidyRegistry queue' true
    /\ items queue' = [Samples.slackB; Samples.slackC]
    /\ droppedCount queue' = 1
    /\ last (summaryLines queue') = Some (lit "fix the build").
Proof.
  destruct (enqueue_at_cap_applies_drop_policy Samples.anyChannel "k" Samples.slackC
              (Samples.capTwo Followup DropSummarize) None 3
              {| registry := Samples.untidyRegistry; loops := []; executed := [] |}
              _ eq_refl)
    as (oldest & more & kept & queue' & accepted & Hi & Hm & Hy & Hpol);
    [vm_compute; reflexivity | vm_compute; reflexivity
    | vm_compute; discriminate |].
  destruct more as [|next more]; [|vm_compute in Hm; lia].
  vm_compute in Hi. injection Hi as <- <-.
  change (dropPolicy _) with DropSummarize in Hpol.
  destruct Hpol as (-> & Hitems & _ & Hcount & _ & _ & Hline & _).
  exists queue'. repeat split; try assumption.
Defined.

(** *** De-duplication *)

Lemma existsb_witness {A} (f : A -> bool) (l : list A) (a : A) :
  a ∈ l -> f a = true -> existsb f l = true.
Proof.
  intros Hin Hf. apply existsb_exists. exists a. split; [|done].
  by apply list_elem_of_In.
Qed.

Lemma isRunAlreadyQueued_by_id r queue fallback item :
  hasMessageId r = true ->
  item ∈ items queue -> messageId item = messageId r -> route item = route r ->
  isRunAlreadyQueued r queue fallback = true.
Proof.
  intros Hid Hin Hm Hr. unfold isRunAlreadyQueued.
  unfold hasMessageId in Hid. rewrite Hid.
  apply (existsb_witness _ _ item Hin).
  rewrite Hm, bool_decide_eq_true_2 by done. simpl.
  by apply hasSameRouting_route.
Qed.

Lemma isRunAlreadyQueued_fallback_ignored r queue :
  hasMessageId r = true ->
  isRunAlreadyQueued r queue true = isRunAlreadyQueued r queue false.
Proof.
  intros Hid. unfold isRunAlreadyQueued.
  unfold hasMessageId in Hid. by rewrite Hid.
Qed.

Lemma isRunAlreadyQueued_by_prompt r queue item :
  hasMessageId r = false ->
  item ∈ items queue -> prompt item = prompt r -> route item = route r ->
  isRunAlreadyQueued r queue true = true.
Proof.
  intros Hid Hin Hp Hr. unfold isRunAlreadyQueued.
  unfold hasMessageId in Hid. rewrite Hid. simpl.
  apply (existsb_witness _ _ item Hin).
  rewrite Hp, bool_decide_eq_true_2 by done. simpl.
  by apply hasSameRouting_route.
Qed.

Lemma enqueueOnto_prompt_with_id queue r now :
  hasMessageId r = true ->
  enqueueOnto queue r (Some DedupePrompt) now
  = enqueueOnto queue r (Some DedupeMessageId) now.
Proof.
  intros Hid.
  destruct (dedupeHit (Some DedupeMessageId) r queue) eqn:E.
  - rewrite !enqueueOnto_dedupe; try done.
    unfold dedupeHit in *. simpl in *.
    by rewrite isRunAlreadyQueued_fallback_ignored.
  - rewrite (enqueueOnto_pass _ _ (Some DedupeMessageId)) by done.
    apply enqueueOnto_pass.
    unfold dedupeHit in *. simpl in *.
    by rewrite isRunAlreadyQueued_fallback_ignored.
Qed.

(** C3, as the code has it. In [message-id] mode, which is the default, an
    item with a message id whose id and route match a queued item is
    dropped and the queue keeps its items. In [prompt] mode the prompt is
    only a fallback: an item that carries a message id is treated exactly
    as in [message-id] mode, and an item without one is dropped when its
    prompt and route match a queued item. In [none] mode nothing is
    dropped as a duplicate: with room in the queue the item is appended
    whatever is queued already. *)
Theorem dedupe_by_mode key r settings now reg :
  (forall dm item,
      dm = None \/ dm = Some DedupeMessageId ->
      hasMessageId r = true ->
      item ∈ items (queueFor key settings reg) ->
      messageId item = messageId r -> route item = route r ->
      enqueueYields key r settings dm now reg (queueFor key settings reg) false)
  /\ (hasMessageId r = true ->
      enqueueFollowupRun key r settings (Some DedupePrompt) now reg
      = enqueueFollowupRun key r settings (Some DedupeMessageId) now reg)
  /\ (forall item,
      hasMessageId r = false ->
      item ∈ items (queueFor key settings reg) ->
      prompt item = prompt r -> route item = route r ->
      enqueueYields key r settings (Some DedupePrompt) now reg
        (queueFor key settings reg) false)
  /\ ((0 < cap (queueFor key settings reg) ->
       Z.of_nat (length (items (queueFor key settings reg)))
       < cap (queueFor key settings reg)) ->
      enqueueYields key r settings (Some DedupeNone) now reg
        (setItems (setEnqueued (queueFor key settings reg) now (run r))
           (items (queueFor key settings reg) ++ [r]))
        true).
Proof.
  repeat split.
  - intros dm item Hdm Hid Hin Hm Hr.
    pose proof (enqueueYields_intro key r settings dm now reg) as Hy.
    rewrite enqueueOnto_dedupe in Hy; [exact Hy|].
    unfold dedupeHit. destruct Hdm as [-> | ->]; simpl;
      by eapply isRunAlreadyQueued_by_id.
  - intros Hid. unfold enqueueFollowupRun.
    destruct (getFollowupQueue key settings reg) as [reg1 ref].
    destruct (heap reg1 !! ref); [|done].
    by rewrite enqueueOnto_prompt_with_id.
  - intros item Hid Hin Hp Hr.
    pose proof (enqueueYields_intro key r settings (Some DedupePrompt) now reg) as Hy.
    rewrite enqueueOnto_dedupe in Hy; [exact Hy|].
    unfold dedupeHit. simpl. by eapply isRunAlreadyQueued_by_prompt.
  - intros Hroom.
    pose proof (enqueueYields_intro key r settings (Some DedupeNone) now reg) as Hy.
    rewrite enqueueOnto_room in Hy; done.
Qed.

Lemma dedupe_by_mode_witness :
  enqueueYields "k" Samples.slackB (Samples.capTwo Followup DropOld) None 3
    (Samples.fullRegistry Followup DropOld)
    (queueFor "k" (Samples.capTwo Followup DropOld)
       (Samples.fullRegistry Followup DropOld))
    false.
Proof.
  apply (proj1 (dedupe_by_mode "k" Samples.slackB (Samples.capTwo Followup DropOld) 3
                  (Samples.fullRegistry Followup DropOld))
           None Samples.slackB);
    [left; reflexivity | reflexivity | | reflexivity | reflexivity].
  vm_compute. apply list_elem_of_further, list_elem_of_here.
Defined.

(** C3, the sentence on [prompt] mode as the specification words it: the
    incoming item has the prompt and the route of a queued item, and is
    appended all the same, because it carries a message id of its own. *)
Lemma prompt_mode_keeps_same_prompt :
  let reg := fst (enqueueFollowupRun "k" Samples.hiFirst
                    (Samples.capTwo Followup DropOld) (Some DedupePrompt) 1
                    emptyRegistry) in
  prompt Samples.hiAgain = prompt Samples.hiFirst
  /\ route Samples.hiAgain = route Samples.hiFirst
  /\ lookupQueue "k" reg ≫= (fun q => Some (items q)) = Some [Samples.hiFirst]
  /\ exists reg',
       enqueueFollowupRun "k" Samples.hiAgain (Samples.capTwo Followup DropOld)
         (Some DedupePrompt) 2 reg = (reg', true)
       /\ lookupQueue "k" reg' ≫= (fun q => Some (items q))
          = Some [Samples.hiFirst; Samples.hiAgain].
Proof.
  repeat split. eexists. split; vm_compute; reflexivity.
Qed.

(** *** Collecting *)

Section Collect.

Variable isRoutableChannel : option jsstring -> bool.


(** What the scan of [hasCrossChannelItems] computes. *)
Lemma scanRoutes_spec its keys hasUnkeyed :
  match scanRoutes isRoutableChannel its keys hasUnkeyed with
  | None => Exists (fun i => isUnkeyed i = false /\ isRouted isRoutableChannel i = false) its
  | Some (keys', hasUnkeyed') =>
      Forall (fun i => isUnkeyed i = true \/ isRouted isRoutableChannel i = true) its
      /\ (forall k, k ∈ keys' <->
                    k ∈ keys \/ exists i, i ∈ its /\ isUnkeyed i = false /\ routeKey i = k)
      /\ hasUnkeyed' = hasUnkeyed || existsb isUnkeyed its
  end.
Proof.
  revert keys hasUnkeyed.
  induction its as [|item rest IH]; intros keys hu; simpl.
  - split; [constructor|]. split; [|by rewrite orb_false_r].
    intros k. split; [auto|]. intros [H|(i & Hi & _)]; [done|]. by inversion Hi.
  - destruct (isUnkeyed item) eqn:Hu.
    + specialize (IH keys true).
      destruct (scanRoutes isRoutableChannel rest keys true) as [[keys' hu']|].
      * destruct IH as (Hall & Hkeys & Hhu). split; [constructor; auto|].
        split; [|by rewrite Hhu, orb_true_r].
        intros k. rewrite Hkeys. split; intros [H|(i & Hi & Hiu & Hk)]; auto.
        -- right. exists i. split; [by right|done].
        -- apply elem_of_cons in Hi as [->|Hi]; [congruence|].
           right. eauto.
      * by apply Exists_cons_tl.
    + destruct (negb (isRoutableChannel (originatingChannel item))
                || negb (truthy (originatingTo item))) eqn:Hr.
      * apply Exists_cons_hd. split; [done|].
        unfold isRouted. rewrite Hu. simpl.
        apply orb_true_iff in Hr as [Hr|Hr]; apply negb_true_iff in Hr;
          rewrite Hr; by rewrite ?andb_false_r.
      * apply orb_false_iff in Hr as [Hr1 Hr2].
        apply negb_false_iff in Hr1, Hr2.
        specialize (IH (keys ∪ {[routeKey item]}) hu).
        destruct (scanRoutes isRoutableChannel rest (keys ∪ {[routeKey item]}) hu) as [[keys' hu']|].
        -- destruct IH as (Hall & Hkeys & Hhu). split.
           { constructor; [|done]. right. unfold isRouted.
             by rewrite Hu, Hr1, Hr2. }
           split; [|done].
           intros k. rewrite Hkeys, elem_of_union, elem_of_singleton.
           split.
           ++ intros [[H|H]|(i & Hi & Hiu & Hk)]; auto.
              ** right. exists item. split; [by left|done].
              ** right. exists i. split; [by right|done].
           ++ intros [H|(i & Hi & Hiu & Hk)]; auto.
              apply elem_of_cons in Hi as [->|Hi]; [auto|].
              right. eauto.
        -- by apply Exists_cons_tl.
Qed.

Lemma routed_keyed i : isRouted isRoutableChannel i = true -> isUnkeyed i = false.
Proof.
  unfold isRouted. destruct (isUnkeyed i); [|done]. by rewrite ?andb_false_l.
Qed.

(** [hasCrossChannelItems] says no exactly for the collectable lists. *)
Lemma hasCrossChannelItems_false its :
  hasCrossChannelItems isRoutableChannel its = false <-> collectable isRoutableChannel its.
Proof.
  unfold hasCrossChannelItems, collectable.
  pose proof (scanRoutes_spec its ∅ false) as Hs.
  destruct (scanRoutes isRoutableChannel its ∅ false) as [[keys hu]|].
  - destruct Hs as (Hall & Hkeys & ->). simpl.
    rewrite Forall_forall in Hall.
    assert (Hk : forall k, k ∈ keys <->
                 exists i, i ∈ its /\ isUnkeyed i = false /\ routeKey i = k).
    { intros k. rewrite Hkeys. split; [intros [H|H]; [set_solver|done]|auto]. }
    clear Hkeys.
    assert (Hex : existsb isUnkeyed its = false <->
                  forall i, i ∈ its -> isUnkeyed i = false).
    { split.
      - intros Hf i Hi. destruct (isUnkeyed i) eqn:Hu; [|done].
        rewrite <- Hf. symmetry. apply existsb_exists.
        exists i. split; [by apply list_elem_of_In|done].
      - intros Hf. apply not_true_is_false. intros Ht.
        apply existsb_exists in Ht as (i & Hi & Hu).
        apply list_elem_of_In in Hi. specialize (Hf i Hi). congruence. }
    split.
    + case_bool_decide as Hsz.
      * intros _. left. apply size_empty_iff in Hsz.
        apply Forall_forall. intros i Hi.
        destruct (isUnkeyed i) eqn:Hu; [done|].
        assert (routeKey i ∈ keys) as Hin by (apply Hk; eauto).
        rewrite Hsz in Hin. set_solver.
      * destruct (existsb isUnkeyed its) eqn:Hun; [done|].
        rewrite bool_decide_eq_false. intros Hle. right.
        assert (size keys = 1%nat) as H1 by lia.
        apply size_1_elem_of in H1 as [k Hkk].
        exists k. apply Forall_forall. intros i Hi.
        assert (isUnkeyed i = false) as Hu by (by apply Hex).
        split.
        -- destruct (Hall i Hi) as [?|?]; [congruence|done].
        -- assert (routeKey i ∈ keys) as Hin by (apply Hk; eauto).
           rewrite Hkk in Hin. set_solver.
    + intros [Hun|(k & Hro)].
      * rewrite Forall_forall in Hun.
        rewrite bool_decide_eq_true_2; [done|].
        apply size_empty_iff, elem_of_equiv_empty. intros k. rewrite Hk.
        intros (i & Hi & Hu & _). specialize (Hun i Hi). congruence.
      * rewrite Forall_forall in Hro.
        case_bool_decide; [done|].
        assert (existsb isUnkeyed its = false) as ->.
        { apply Hex. intros i Hi. destruct (Hro i Hi) as [Hr _].
          by apply routed_keyed. }
        apply bool_decide_eq_false.
        assert (keys ⊆ {[k]}) as Hsub.
        { intros k'. rewrite Hk. intros (i & Hi & _ & <-).
          destruct (Hro i Hi) as [_ ->]. set_solver. }
        apply subseteq_size in Hsub. rewrite size_singleton in Hsub. lia.
  - split; [done|]. intros [Hun|(k & Hro)]; exfalso.
    + apply Exists_exists in Hs as (i & Hi & Hu & _).
      rewrite Forall_forall in Hun. specialize (Hun i Hi). congruence.
    + apply Exists_exists in Hs as (i & Hi & _ & Hr).
      rewrite Forall_forall in Hro. destruct (Hro i Hi) as [Hr' _]. congruence.
Qed.


Lemma occurInOrder_after parts s t :
  occurInOrder parts s -> occurInOrder parts (t ++ s).
Proof.
  destruct parts as [|p rest]; simpl; [done|].
  intros (before & after & -> & H). exists (t ++ before), after.
  split; [by rewrite <- app_assoc|done].
Qed.

Lemma join_head (sep b : jsstring) (bs : list jsstring) :
  join sep (b :: bs) = b ++ concat (List.map (app sep) bs).
Proof.
  revert b. induction bs as [|b' bs IH]; intros b.
  - simpl. by rewrite app_nil_r.
  - change (join sep (b :: b' :: bs)) with (b ++ sep ++ join sep (b' :: bs)).
    rewrite IH. simpl. by rewrite <- app_assoc.
Qed.

Lemma occurInOrder_blocks sep parts blocks :
  Forall2 (fun p b => exists before after, b = before ++ p ++ after) parts blocks ->
  occurInOrder parts (concat (List.map (app sep) blocks)).
Proof.
  induction 1 as [|p b parts blocks (before & after & ->) _ IH]; simpl; [done|].
  exists (sep ++ before), (after ++ concat (List.map (app sep) blocks)).
  split; [by rewrite <- !app_assoc|]. by apply occurInOrder_after.
Qed.

Lemma collectBlock_holds_prompt idx item :
  exists before after,
    collectBlock idx item = before ++ trimEnd (prompt item) ++ after.
Proof.
  unfold collectBlock, trim.
  assert (Hs : forall rest, trimStart (lit "---" ++ rest) = lit "---" ++ rest)
    by (intros; reflexivity).
  rewrite Hs, !app_assoc, trimEnd_app.
  destruct (forallb isWhite (prompt item)) eqn:E.
  - rewrite (trimEnd_white _ E). eexists _, []. by rewrite !app_nil_r.
  - eexists _, []. by rewrite app_nil_r.
Qed.

Lemma imap_blocks (f : nat -> FollowupRun -> jsstring) its :
  (forall idx item, exists before after,
      f idx item = before ++ trimEnd (prompt item) ++ after) ->
  Forall2 (fun p b => exists before after, b = before ++ p ++ after)
    (List.map (fun i => trimEnd (prompt i)) its) (imap f its).
Proof.
  revert f. induction its as [|item its IH]; intros f Hf; simpl; [constructor|].
  constructor; [apply Hf|]. apply IH. intros idx it. apply Hf.
Qed.

(** The collected prompt opens with the header, goes on with the overflow
    summary if there is one, and then holds the prompts of the items in
    the order of the queue, each without its trailing white space. *)
Lemma buildCollectPrompt_layout its summary :
  exists rest,
    buildCollectPrompt its summary
    = COLLECT_HEADER
      ++ (if truthy summary then [LF; LF] ++ default [] summary else [])
      ++ rest
    /\ occurInOrder (List.map (fun i => trimEnd (prompt i)) its) rest.
Proof.
  unfold buildCollectPrompt.
  change ([COLLECT_HEADER] ++ ?l) with (COLLECT_HEADER :: l).
  rewrite join_head.
  exists (concat (List.map (app [LF; LF]) (imap collectBlock its))).
  split.
  - destruct (truthy summary); simpl; by rewrite <- ?app_assoc.
  - apply occurInOrder_blocks, imap_blocks, collectBlock_holds_prompt.
Qed.

Lemma buildSummaryPrompt_setItems q its :
  buildSummaryPrompt (setItems q its)
  = (fst (buildSummaryPrompt q), setItems (snd (buildSummaryPrompt q)) its).
Proof.
  unfold buildSummaryPrompt. simpl. by destruct (negb _ || _).
Qed.

Lemma last_cons_is_Some {A} (x : A) (l : list A) : is_Some (last (x :: l)).
Proof.
  revert x. induction l as [|y l IH]; intros x; [by eexists|]. apply (IH y).
Qed.

(** The collecting pass of the loop body. *)
Lemma drainIteration_collects now q :
  mode q = Collect ->
  hasCrossChannelItems isRoutableChannel (items q) = false ->
  items q <> [] ->
  exists call lastItem,
    drainIteration isRoutableChannel now false q
    = IterRun CollectCall call (setItems (snd (buildSummaryPrompt q)) []) false
    /\ last (items q) = Some lastItem
    /\ run call = run lastItem
    /\ prompt call = buildCollectPrompt (items q) (fst (buildSummaryPrompt q)).
Proof.
  intros Hm Hc Hne. unfold drainIteration.
  rewrite bool_decide_eq_true_2 by done. rewrite Hc.
  rewrite buildSummaryPrompt_setItems.
  destruct (items q) as [|first others] eqn:Hi; [done|].
  destruct (last_cons_is_Some first others) as [lastItem Hl].
  rewrite Hl. simpl. eexists _, lastItem. repeat split; done.
Qed.

Lemma loopTest_cons q next rest : items q = next :: rest -> loopTest q = true.
Proof. intros Hi. unfold loopTest. by rewrite Hi. Qed.

(** When nothing stays pending after the collecting pass, the loop ends
    after that one call. *)
Lemma loopTest_collected q :
  droppedCount q <= 0 \/ dropPolicy q = DropSummarize ->
  loopTest (setItems (snd (buildSummaryPrompt q)) []) = false.
Proof.
  intros Hend. unfold loopTest, buildSummaryPrompt. cbn [items setItems length].
  destruct (bool_decide (dropPolicy q = DropSummarize)) eqn:Hpol; cbn [negb orb].
  - destruct (droppedCount q <=? 0) eqn:Hd; cbn [snd droppedCount setItems setDropped].
    + apply Z.leb_le in Hd. apply orb_false_iff. split; [done|].
      by apply Z.ltb_ge.
    + done.
  - cbn [snd droppedCount setItems]. apply bool_decide_eq_false in Hpol.
    destruct Hend as [Hd|Hd]; [|done].
    apply orb_false_iff. split; [done|]. by apply Z.ltb_ge.
Qed.

Lemma drainLoop_single now q fuel kind call q1 force :
  loopTest q = true ->
  drainIteration isRoutableChannel now false q = IterRun kind call q1 force ->
  loopTest q1 = false ->
  drainLoop isRoutableChannel (S (S fuel)) now false q = ([(kind, call)], q1).
Proof.
  intros Ht E Hstop.
  change (drainLoop isRoutableChannel (S (S fuel)) now false q)
    with (if loopTest q then
            match drainIteration isRoutableChannel now false q with
            | IterRun kind call queue' force' =>
                let '(calls, final) := drainLoop isRoutableChannel (S fuel) now force' queue' in
                ((kind, call) :: calls, final)
            | IterBreak queue' => ([], queue')
            end
          else ([], q)).
  rewrite Ht, E. cbn [drainLoop]. by rewrite Hstop.
Qed.

(** Once the loop has switched to one item per call it hands out the
    queued items one by one, in collect mode, and never switches back. *)
Lemma drainIteration_forced now q :
  match drainIteration isRoutableChannel now true q with
  | IterRun kind call q' force' =>
      force' = true /\ kind <> CollectCall
      /\ (mode q = Collect -> kind = ItemCall /\ items q = call :: items q')
  | IterBreak _ => mode q = Collect -> items q = []
  end.
Proof.
  unfold drainIteration.
  destruct (bool_decide (mode q = Collect)) eqn:Hm.
  - destruct (items q) as [|next rest]; simpl; [done|]. repeat split; done.
  - apply bool_decide_eq_false in Hm.
    unfold buildSummaryPrompt.
    destruct (negb _ || _); simpl.
    + destruct (items q) as [|next rest]; simpl; [done|]. repeat split; done.
    + destruct (join _ _); simpl.
      * destruct (items q) as [|next rest]; simpl; [done|]. repeat split; done.
      * destruct (lastRun q); simpl; [|done]. repeat split; done.
Qed.

Lemma drainIteration_forced_collect now q :
  mode q = Collect ->
  drainIteration isRoutableChannel now true q
  = match items q with
    | [] => IterBreak q
    | next :: rest => IterRun ItemCall next (setItems q rest) true
    end.
Proof.
  intros Hm. unfold drainIteration. by rewrite bool_decide_eq_true_2.
Qed.

Lemma drainLoop_forced now q fuel :
  mode q = Collect -> (length (items q) < fuel)%nat ->
  exists q', drainLoop isRoutableChannel fuel now true q
             = (List.map (pair ItemCall) (items q), q')
             /\ items q' = [].
Proof.
  revert q. induction fuel as [|fuel IH]; intros q Hm Hlen; [lia|].
  simpl. rewrite (drainIteration_forced_collect now q Hm).
  destruct (items q) as [|next rest] eqn:Hi.
  - destruct (loopTest q); by exists q.
  - rewrite (loopTest_cons q next rest Hi).
    destruct (IH (setItems q rest)) as (q' & E & Hq'); [done|simpl in *; lia|].
    rewrite E. simpl. by exists q'.
Qed.

Lemma drainLoop_cross now q fuel :
  mode q = Collect ->
  hasCrossChannelItems isRoutableChannel (items q) = true ->
  (length (items q) < fuel)%nat ->
  exists q', drainLoop isRoutableChannel fuel now false q
             = (List.map (pair ItemCall) (items q), q')
             /\ items q' = [].
Proof.
  intros Hm Hc Hlen. destruct fuel as [|fuel]; [lia|].
  simpl. unfold drainIteration.
  rewrite bool_decide_eq_true_2 by done. rewrite Hc.
  destruct (items q) as [|next rest] eqn:Hi.
  - exfalso. assert (hasCrossChannelItems isRoutableChannel [] = false) as E.
    { apply hasCrossChannelItems_false. left. constructor. }
    congruence.
  - rewrite (loopTest_cons q next rest Hi).
    destruct (drainLoop_forced now (setItems q rest) fuel) as (q' & E & Hq');
      [done|simpl in *; lia|].
    rewrite E. simpl. by exists q'.
Qed.


(** C1, as the code has it. In collect mode one pass of the drain loop
    merges every queued item into a single executor call exactly when the
    items are collectable: none of them carries a route, or all of them
    carry the same route key with a routable channel and a destination.
    The prompt of that call is the header, then the pending overflow
    summary if there is one, then the prompts of the items in arrival
    order (each without its trailing white space); the item list is left
    empty, and the loop ends after that one call unless a dropped count
    stays pending under another drop policy. When the items are not
    collectable the loop issues one executor call per item, in arrival
    order. Once the loop has switched
    to one call per item it never collects again: the flag stays set and
    no later pass issues a collected call. *)
Theorem collect_mode_drain now q :
  mode q = Collect ->
  (hasCrossChannelItems isRoutableChannel (items q) = false
   <-> collectable isRoutableChannel (items q))
  /\ (collectable isRoutableChannel (items q) -> items q <> [] ->
      exists call lastItem rest,
        drainIteration isRoutableChannel now false q
        = IterRun CollectCall call (setItems (snd (buildSummaryPrompt q)) []) false
        /\ last (items q) = Some lastItem
        /\ run call = run lastItem
        /\ prompt call
           = COLLECT_HEADER
             ++ (if truthy (fst (buildSummaryPrompt q))
                 then [LF; LF] ++ default [] (fst (buildSummaryPrompt q))
                 else [])
             ++ rest
        /\ occurInOrder (List.map (fun i => trimEnd (prompt i)) (items q)) rest
        /\ (droppedCount q <= 0 \/ dropPolicy q = DropSummarize ->
            forall fuel,
              drainLoop isRoutableChannel (S (S fuel)) now false q
              = ([(CollectCall, call)], setItems (snd (buildSummaryPrompt q)) [])))
  /\ (~ collectable isRoutableChannel (items q) ->
      forall fuel, (length (items q) < fuel)%nat ->
      exists q', drainLoop isRoutableChannel fuel now false q
                 = (List.map (pair ItemCall) (items q), q')
                 /\ items q' = [])
  /\ (forall now' later,
      match drainIteration isRoutableChannel now' true later with
      | IterRun kind call later' force' =>
          force' = true /\ kind <> CollectCall
          /\ (mode later = Collect ->
              kind = ItemCall /\ items later = call :: items later')
      | IterBreak _ => mode later = Collect -> items later = []
      end).
Proof.
  intros Hm. split; [apply hasCrossChannelItems_false|].
  split; [|split].
  - intros Hc Hne. apply hasCrossChannelItems_false in Hc.
    destruct (drainIteration_collects now q Hm Hc Hne)
      as (call & lastItem & E & Hl & Hr & Hp).
    destruct (buildCollectPrompt_layout (items q) (fst (buildSummaryPrompt q)))
      as (rest & Hlay & Hocc).
    exists call, lastItem, rest. rewrite Hp.
    refine (conj E (conj Hl (conj Hr (conj Hlay (conj Hocc _))))).
    intros Hend fuel.
    apply (drainLoop_single now q fuel CollectCall call _ false); [|done|].
    + destruct (items q) as [|first others] eqn:Hi; [done|].
      by apply (loopTest_cons q first others).
    + by apply loopTest_collected.
  - intros Hn fuel Hlen. apply drainLoop_cross; [done| |done].
    destruct (hasCrossChannelItems isRoutableChannel (items q)) eqn:E; [done|].
    by apply hasCrossChannelItems_false in E.
  - intros now' later. apply drainIteration_forced.
Qed.

End Collect.

Lemma collect_mode_drain_witness :
  exists call q',
    drainIteration Samples.anyChannel 10 false
      (Samples.queued Collect [Samples.slackA; Samples.slackB; Samples.slackC])
    = IterRun CollectCall call q' false
    /\ items q' = [].
Proof.
  destruct (collect_mode_drain Samples.anyChannel 10
              (Samples.queued Collect [Samples.slackA; Samples.slackB; Samples.slackC])
              eq_refl)
    as (_ & Hmerge & _).
  destruct Hmerge as (call & lastItem & rest & E & _).
  - right. exists (routeKey Samples.slackA).
    repeat constructor.
  - discriminate.
  - exists call. eexists. split; [exact E|reflexivity].
Defined.

(** C1, the sentence on merging as the specification words it: two
    queued items with one and the same originating route (a channel and
    no destination) are not merged; each gets an executor call of its
    own. The channel test plays no part: the missing destination alone
    makes [hasCrossChannelItems] answer [true]. *)
Lemma same_route_items_drained_one_by_one :
  route Samples.noDestA = route Samples.noDestB
  /\ executed
       (runEvents Samples.anyChannel
          [ EvEnqueue "k" Samples.noDestA (Samples.capTwo Collect DropSummarize) None 1;
            EvEnqueue "k" Samples.noDestB (Samples.capTwo Collect DropSummarize) None 2;
            EvSchedule "k";
            EvIterate 0 3; EvIterate 0 4; EvIterate 0 5 ]
          initialWorld)
     = [ {| callKey := "k"; callKind := ItemCall; callRun := Samples.noDestA |};
         {| callKey := "k"; callKind := ItemCall; callRun := Samples.noDestB |} ].
Proof. split; vm_compute; reflexivity. Qed.

(** *** The registry and the drain loops *)

Lemma wfQueue_applySettings existing settings :
  (forall q, existing = Some q -> wfQueue q) ->
  wfQueue (applySettings existing settings).
Proof.
  unfold wfQueue. destruct existing as [q|]; simpl.
  - intros H. destruct (H q eq_refl) as (Hc & Hd & Hl).
    repeat split; try done.
    destruct (s_cap settings) as [c|]; [|done].
    destruct (0 <? c) eqn:E; [by apply Z.ltb_lt|done].
  - intros _. repeat split; try done; try lia.
    destruct (s_cap settings) as [c|]; [|done].
    destruct (0 <? c) eqn:E; [by apply Z.ltb_lt|done].
Qed.

Lemma applySettings_draining q settings :
  draining (applySettings (Some q) settings) = draining q.
Proof. done. Qed.

Lemma enqueueOnto_keeps q r dm now :
  wfQueue q ->
  wfQueue (fst (enqueueOnto q r dm now))
  /\ draining (fst (enqueueOnto q r dm now)) = draining q.
Proof.
  intros (Hc & Hd & Hl). unfold enqueueOnto, wfQueue.
  destruct (_ && isRunAlreadyQueued r q false); [done|].
  destruct (_ && isRunAlreadyQueued r q true); [done|].
  simpl.
  destruct ((0 <? cap q) && _); simpl; [|by repeat split].
  destruct (bool_decide (dropPolicy q = DropNew)); simpl; [by repeat split|].
  destruct (bool_decide (dropPolicy q = DropSummarize)); simpl;
    repeat split; try done; lia.
Qed.

Section Invariant.

Variable isRoutableChannel : option jsstring -> bool.

Lemma drainIteration_keeps now force q :
  wfQueue q ->
  match drainIteration isRoutableChannel now force q with
  | IterRun _ _ q' _ | IterBreak q' => wfQueue q' /\ draining q' = draining q
  end.
Proof.
  intros (Hc & Hd & Hl).
  assert (Hshift : forall q1 f, wfQueue q1 -> draining q1 = draining q ->
    match match items q1 with
          | [] => IterBreak q1
          | next :: rest => IterRun ItemCall next (setItems q1 rest) f
          end with
    | IterRun _ _ q' _ | IterBreak q' => wfQueue q' /\ draining q' = draining q
    end).
  { intros q1 f Hw Hdr. destruct (items q1); simpl; done. }
  assert (Hq : wfQueue q) by done.
  assert (Hreset : wfQueue (setDropped q 0 [])).
  { unfold wfQueue. simpl. repeat split; try done; lia. }
  unfold drainIteration.
  destruct (bool_decide (mode q = Collect)).
  - destruct force; [by apply Hshift|].
    destruct (hasCrossChannelItems isRoutableChannel (items q)); [by apply Hshift|].
    unfold buildSummaryPrompt. simpl.
    destruct (negb _ || _); simpl; destruct (from_option _ _ _); simpl;
      unfold wfQueue; simpl; repeat split; try done; lia.
  - unfold buildSummaryPrompt.
    destruct (negb _ || _); simpl; [by apply Hshift|].
    destruct (join _ _); simpl; [by apply (Hshift (setDropped q 0 []))|].
    destruct (lastRun q); simpl; done.
Qed.

(** Replacing a queue object by one with the same flag keeps the world
    coherent; the loops may change their own flag. *)
Lemma coherent_store w ref q q' ls :
  coherent w ->
  heap (registry w) !! ref = Some q ->
  draining q' = draining q -> wfQueue q' ->
  loopKey <$> ls = loopKey <$> loops w ->
  (forall l', l' ∈ ls ->
     exists l, l ∈ loops w /\ loopKey l = loopKey l' /\ loopQueue l = loopQueue l') ->
  coherent {| registry := store ref q' (registry w); loops := ls;
              executed := executed w |}.
Proof.
  intros (Hnd & Hloops & Hflag & Halloc & Hinj & Hwf) Hq Hdr Hw' Hkeys Hls.
  unfold coherent, store; simpl.
  assert (Hback : forall key l, l ∈ loops w -> loopKey l = key ->
                  exists l', l' ∈ ls /\ loopKey l' = key).
  { intros key l Hl Hk.
    assert (key ∈ loopKey <$> ls) as Hin.
    { rewrite Hkeys. apply list_elem_of_fmap. by exists l. }
    apply list_elem_of_fmap in Hin as (l' & -> & Hl'). by exists l'. }
  refine (conj _ (conj _ (conj _ (conj _ (conj _ _))))).
  - by rewrite Hkeys.
  - intros l' Hl'. destruct (Hls l' Hl') as (l1 & Hl1 & Hk1 & Hq1).
    destruct (Hloops l1 Hl1) as (HF1 & q1 & Hh1 & Hd1).
    rewrite <- Hk1, <- Hq1. split; [done|].
    rewrite lookup_insert. case_decide as Hr.
    + exists q'. split; [done|]. subst. rewrite Hdr. congruence.
    + by exists q1.
  - intros key ref0 q0 HF. rewrite lookup_insert. case_decide as Hr.
    + intros [= <-] Hd0. subst.
      destruct (Hflag key ref0 q HF Hq) as (l & Hl & Hk); [congruence|].
      by eapply Hback.
    + intros Hh0 Hd0. destruct (Hflag key ref0 q0 HF Hh0 Hd0) as (l & Hl & Hk).
      by eapply Hback.
  - intros key ref0 HF. destruct (Halloc key ref0 HF) as [Hlt Hs].
    split; [done|]. rewrite lookup_insert. case_decide; [by eexists|done].
  - exact Hinj.
  - intros ref0 q0. rewrite lookup_insert. case_decide.
    + by intros [= <-].
    + apply Hwf.
Qed.

Lemma loops_split (ls : list DrainLoop) i l :
  ls !! i = Some l ->
  exists l1 l2,
    ls = l1 ++ l :: l2 /\ delete i ls = l1 ++ l2
    /\ forall l', <[i := l']> ls = l1 ++ l' :: l2.
Proof.
  intros Hi. exists (take i ls), (drop (S i) ls).
  split; [by rewrite take_drop_middle|].
  split; [apply delete_take_drop|].
  intros l'. apply insert_take_drop. by eapply lookup_lt_Some.
Qed.

(** [scheduleFollowupDrain] keeps the world coherent. *)
Lemma coherent_schedule key w :
  coherent w -> coherent (scheduleFollowupDrain key w).
Proof.
  intros Hco. unfold scheduleFollowupDrain.
  destruct (FOLLOWUP_QUEUES (registry w) !! key) as [ref|] eqn:HF; [|done].
  destruct (heap (registry w) !! ref) as [q|] eqn:Hq; [|done].
  destruct (draining q) eqn:Hd; [done|].
  destruct Hco as (Hnd & Hloops & Hflag & Halloc & Hinj & Hwf).
  assert (Hfresh : forall l, l ∈ loops w -> loopKey l <> key).
  { intros l Hl Hk. destruct (Hloops l Hl) as (HFl & ql & Hhl & Hdl).
    rewrite Hk, HF in HFl. simplify_eq. congruence. }
  unfold coherent, store; simpl.
  refine (conj _ (conj _ (conj _ (conj _ (conj _ _))))).
  - rewrite fmap_app. apply NoDup_app. split; [done|]. split.
    + intros k Hk. simpl. rewrite list_elem_of_singleton. intros ->.
      apply list_elem_of_fmap in Hk as (l & Hkl & Hl). by eapply Hfresh.
    + simpl. apply NoDup_singleton.
  - intros l. rewrite elem_of_app, list_elem_of_singleton. intros [Hl| ->].
    + destruct (Hloops l Hl) as (HFl & ql & Hhl & Hdl). split; [done|].
      rewrite lookup_insert_ne; [by exists ql|].
      intros Heq. apply (Hfresh l Hl). eapply Hinj; [exact HFl|]. by rewrite <- Heq.
    + simpl. split; [done|]. rewrite lookup_insert_eq. by eexists.
  - intros key0 ref0 q0 HF0. rewrite lookup_insert. case_decide as Hr.
    + intros _ _. subst ref0. assert (key0 = key) as -> by by eapply Hinj.
      eexists. split; [apply elem_of_app; right; by apply list_elem_of_singleton|done].
    + intros Hh0 Hd0. destruct (Hflag key0 ref0 q0 HF0 Hh0 Hd0) as (l & Hl & Hk).
      exists l. split; [apply elem_of_app; by left|done].
  - intros key0 ref0 HF0. destruct (Halloc key0 ref0 HF0) as [Hlt Hs].
    split; [done|]. rewrite lookup_insert. case_decide; [by eexists|done].
  - exact Hinj.
  - intros ref0 q0. rewrite lookup_insert. case_decide.
    + intros [= <-]. destruct (Hwf ref q Hq) as (? & ? & ?). done.
    + apply Hwf.
Qed.


Lemma loops_leave (ls : list DrainLoop) i l :
  ls !! i = Some l -> NoDup (loopKey <$> ls) ->
  NoDup (loopKey <$> delete i ls)
  /\ (forall l', l' ∈ delete i ls -> l' ∈ ls /\ loopKey l' <> loopKey l)
  /\ (forall l', l' ∈ ls -> loopKey l' <> loopKey l -> l' ∈ delete i ls).
Proof.
  intros Hi Hnd. destruct (loops_split ls i l Hi) as (l1 & l2 & -> & -> & _).
  rewrite fmap_app, fmap_cons in Hnd.
  apply NoDup_app in Hnd as (Hn1 & Hdis & Hn2).
  apply NoDup_cons in Hn2 as (Hout & Hn2).
  split; [|split].
  - rewrite fmap_app. apply NoDup_app. split; [done|]. split; [|done].
    intros k Hk Hk2. apply (Hdis k Hk). by right.
  - intros l'. rewrite !elem_of_app, elem_of_cons. intros [Hl'|Hl'].
    + split; [by left|]. intros Hk. apply (Hdis (loopKey l')).
      * apply list_elem_of_fmap. by exists l'.
      * rewrite Hk. by left.
    + split; [right; by right|]. intros Hk. apply Hout. rewrite <- Hk.
      apply list_elem_of_fmap. by exists l'.
  - intros l'. rewrite !elem_of_app, elem_of_cons.
    intros [Hl'|[->|Hl']] Hk; [by left|done|by right].
Qed.

(** The loop has left and its flag is cleared: still coherent. *)
Lemma coherent_release w i l q' :
  coherent w -> loops w !! i = Some l -> wfQueue q' ->
  coherent {| registry := store (loopQueue l) (setDraining q' false)
                            (store (loopQueue l) q' (registry w));
              loops := delete i (loops w); executed := executed w |}.
Proof.
  intros (Hnd & Hloops & Hflag & Halloc & Hinj & Hwf) Hi Hw'.
  destruct (loops_leave (loops w) i l Hi Hnd) as (Hnd' & Hsub & Hsup).
  assert (Hl : l ∈ loops w) by by eapply list_elem_of_lookup_2.
  destruct (Hloops l Hl) as (HFl & ql & Hhl & Hdl).
  unfold coherent, store; simpl. rewrite insert_insert_eq.
  refine (conj _ (conj _ (conj _ (conj _ (conj _ _))))).
  - done.
  - intros l' Hl'. destruct (Hsub l' Hl') as [Hin Hne].
    destruct (Hloops l' Hin) as (HF' & q1 & Hh1 & Hd1). split; [done|].
    rewrite lookup_insert_ne; [by exists q1|].
    intros Heq. apply Hne. eapply Hinj; [exact HF'|]. by rewrite <- Heq.
  - intros key0 ref0 q0 HF0. rewrite lookup_insert. case_decide as Hr.
    + intros [= <-]. done.
    + intros Hh0 Hd0. destruct (Hflag key0 ref0 q0 HF0 Hh0 Hd0) as (l' & Hl' & Hk).
      exists l'. split; [|done]. apply Hsup; [done|].
      intros Heq. apply Hr. rewrite Hk in Heq. rewrite <- Heq in HFl. congruence.
  - intros key0 ref0 HF0. destruct (Halloc key0 ref0 HF0) as [Hlt Hs].
    split; [done|]. rewrite lookup_insert. case_decide; [by eexists|done].
  - exact Hinj.
  - intros ref0 q0. rewrite lookup_insert. case_decide.
    + intros [= <-]. destruct Hw' as (? & ? & ?). done.
    + apply Hwf.
Qed.

(** Removing a key that no loop works on. *)
Lemma coherent_unregister key reg ls ex :
  coherent {| registry := reg; loops := ls; executed := ex |} ->
  (forall l, l ∈ ls -> loopKey l <> key) ->
  coherent {| registry := {| heap := heap reg;
                             FOLLOWUP_QUEUES := delete key (FOLLOWUP_QUEUES reg);
                             nextRef := nextRef reg |};
              loops := ls; executed := ex |}.
Proof.
  intros (Hnd & Hloops & Hflag & Halloc & Hinj & Hwf) Hno.
  unfold coherent in *; simpl in *.
  refine (conj _ (conj _ (conj _ (conj _ (conj _ _))))).
  - done.
  - intros l Hl. destruct (Hloops l Hl) as (HF & Hq). split; [|done].
    rewrite lookup_delete_ne; [done|]. intros Heq. by apply (Hno l Hl).
  - intros key0 ref0 q0 HF0. apply lookup_delete_Some in HF0 as [_ HF0].
    by apply (Hflag key0 ref0 q0).
  - intros key0 ref0 HF0. apply lookup_delete_Some in HF0 as [_ HF0].
    by apply (Halloc key0 ref0).
  - intros k1 k2 ref0 H1 H2. apply lookup_delete_Some in H1 as [_ H1].
    apply lookup_delete_Some in H2 as [_ H2]. by eapply Hinj.
  - done.
Qed.

(** The [finally] block keeps the world coherent. *)
Lemma coherent_finally w i l q' :
  coherent w -> loops w !! i = Some l -> wfQueue q' ->
  coherent (runFinally l (leaving i l q' w)).
Proof.
  intros Hco Hi Hw'. unfold runFinally, leaving. simpl.
  rewrite lookup_insert_eq.
  pose proof (coherent_release w i l q' Hco Hi Hw') as Hrel.
  destruct (_ && _).
  - apply (coherent_unregister (loopKey l)) in Hrel; [exact Hrel|].
    destruct Hco as (Hnd & _).
    destruct (loops_leave (loops w) i l Hi Hnd) as (_ & Hsub & _).
    intros l' Hl'. by destruct (Hsub l' Hl').
  - by apply coherent_schedule.
Qed.

(** Leaving the loop with the object untouched. *)
Lemma runFinally_untouched l reg ls ex q :
  heap reg !! loopQueue l = Some q ->
  runFinally l {| registry := reg; loops := ls; executed := ex |}
  = runFinally l
      {| registry := store (loopQueue l) q reg; loops := ls; executed := ex |}.
Proof.
  intros Hq. unfold runFinally, store. simpl.
  rewrite Hq, lookup_insert_eq, !insert_insert_eq. done.
Qed.


(** [getFollowupQueue] registering a new object. *)
Lemma coherent_register key qnew w :
  coherent w -> FOLLOWUP_QUEUES (registry w) !! key = None ->
  draining qnew = false -> wfQueue qnew ->
  coherent {| registry :=
                {| heap := <[nextRef (registry w) := qnew]> (heap (registry w));
                   FOLLOWUP_QUEUES :=
                     <[key := nextRef (registry w)]> (FOLLOWUP_QUEUES (registry w));
                   nextRef := S (nextRef (registry w)) |};
              loops := loops w; executed := executed w |}.
Proof.
  intros (Hnd & Hloops & Hflag & Halloc & Hinj & Hwf) HF Hd Hw.
  unfold coherent; simpl.
  refine (conj _ (conj _ (conj _ (conj _ (conj _ _))))).
  - done.
  - intros l Hl. destruct (Hloops l Hl) as (HFl & ql & Hhl & Hdl).
    destruct (Halloc _ _ HFl) as [Hlt _]. split.
    + rewrite lookup_insert_ne; [done|]. intros Heq. rewrite <- Heq in HFl. congruence.
    + rewrite lookup_insert_ne by lia. eauto.
  - intros key0 ref0 q0. rewrite lookup_insert. case_decide as Hk.
    + intros [= <-]. rewrite lookup_insert_eq. intros [= <-]. congruence.
    + intros HF0. destruct (Halloc _ _ HF0) as [Hlt _].
      rewrite lookup_insert_ne by lia. by apply (Hflag key0 ref0 q0).
  - intros key0 ref0. rewrite lookup_insert. case_decide as Hk.
    + intros [= <-]. split; [lia|]. rewrite lookup_insert_eq. by eexists.
    + intros HF0. destruct (Halloc _ _ HF0) as [Hlt Hs].
      split; [lia|]. by rewrite lookup_insert_ne by lia.
  - intros k1 k2 ref0. rewrite !lookup_insert.
    repeat case_decide; subst; try done.
    + intros [= <-] H2. destruct (Halloc _ _ H2). lia.
    + intros H1 [= <-]. destruct (Halloc _ _ H1). lia.
    + apply Hinj.
  - intros ref0 q0. rewrite lookup_insert. case_decide.
    + by intros [= <-].
    + apply Hwf.
Qed.

Lemma coherent_enqueue key r settings dm now w :
  coherent w ->
  coherent {| registry := fst (enqueueFollowupRun key r settings dm now (registry w));
              loops := loops w; executed := executed w |}.
Proof.
  intros Hco. unfold enqueueFollowupRun, getFollowupQueue.
  assert (Hid : forall l', l' ∈ loops w ->
             exists l, l ∈ loops w /\ loopKey l = loopKey l' /\ loopQueue l = loopQueue l')
    by (intros l' ?; by exists l').
  destruct (FOLLOWUP_QUEUES (registry w) !! key) as [ref|] eqn:HF.
  - cbn [heap store]. rewrite lookup_insert_eq.
    pose proof Hco as (_ & _ & _ & Halloc & _ & Hwf).
    destruct (Halloc key ref HF) as [_ [q Hq]]. rewrite Hq.
    set (q1 := applySettings (Some q) settings).
    assert (Hw1 : wfQueue q1).
    { apply wfQueue_applySettings. intros ? [= <-]. by eapply Hwf. }
    pose proof (enqueueOnto_keeps q1 r dm now Hw1) as [Hw2 Hd2].
    destruct (enqueueOnto q1 r dm now) as [q2 b]. cbn [fst snd] in *.
    pose proof (coherent_store w ref q q1 (loops w)
                  Hco Hq eq_refl Hw1 eq_refl Hid) as Hc1.
    exact (coherent_store _ ref q1 q2 (loops w) Hc1
             (lookup_insert_eq _ _ _) Hd2 Hw2 eq_refl Hid).
  - cbn [heap store]. rewrite lookup_insert_eq.
    set (q1 := applySettings None settings).
    assert (Hw1 : wfQueue q1).
    { apply wfQueue_applySettings. intros ? [=]. }
    pose proof (enqueueOnto_keeps q1 r dm now Hw1) as [Hw2 Hd2].
    destruct (enqueueOnto q1 r dm now) as [q2 b]. cbn [fst snd] in *.
    pose proof (coherent_register key q1 w Hco HF eq_refl Hw1) as Hc1.
    exact (coherent_store _ (nextRef (registry w)) q1 q2 (loops w) Hc1
             (lookup_insert_eq _ _ _) Hd2 Hw2 eq_refl Hid).
Qed.

Lemma coherent_executed reg ls ex ex' :
  coherent {| registry := reg; loops := ls; executed := ex |} ->
  coherent {| registry := reg; loops := ls; executed := ex' |}.
Proof. done. Qed.

(** Every event keeps the world coherent. *)
Lemma coherent_step ev w :
  coherent w -> coherent (step isRoutableChannel ev w).
Proof.
  intros Hco. destruct ev as [key r settings dm now|key|i now|i]; simpl.
  - by apply coherent_enqueue.
  - by apply coherent_schedule.
  - destruct (loops w !! i) as [l|] eqn:Hi; [|done].
    destruct (heap (registry w) !! loopQueue l) as [q|] eqn:Hq; [|done].
    assert (Hwq : wfQueue q) by (destruct Hco as (_ & _ & _ & _ & _ & Hwf); by eapply Hwf).
    destruct (loopTest q); simpl.
    2:{ rewrite (runFinally_untouched l _ _ _ q Hq).
        by apply (coherent_finally w i l q). }
    destruct (debounceElapsed now q); simpl; [|done].
    pose proof (drainIteration_keeps now (forceIndividualCollect l) q Hwq) as Hk.
    destruct (drainIteration isRoutableChannel now (forceIndividualCollect l) q)
      as [kind call q' force'|q']; destruct Hk as [Hw' Hd'].
    + destruct (loops_split (loops w) i l Hi) as (l1 & l2 & Hls & _ & Hins).
      apply (coherent_executed _ _ (executed w)).
      apply (coherent_store w (loopQueue l) q q' _ Hco Hq Hd' Hw').
      * rewrite list_fmap_insert. simpl. apply list_insert_id.
        by rewrite list_lookup_fmap, Hi.
      * intros l'. rewrite Hins, Hls, !elem_of_app, !elem_of_cons.
        intros [Hl'|[->|Hl']].
        -- exists l'. split; [set_solver|done].
        -- exists l. split; [set_solver|done].
        -- exists l'. split; [set_solver|done].
    + by apply (coherent_finally w i l q').
  - destruct (loops w !! i) as [l|] eqn:Hi; [|done].
    pose proof Hco as (_ & Hloops & _ & _ & _ & Hwf).
    destruct (Hloops l) as (_ & q & Hq & _); [by eapply list_elem_of_lookup_2|].
    rewrite (runFinally_untouched l _ _ _ q Hq).
    apply (coherent_finally w i l q); [done|done|by eapply Hwf].
Qed.

Lemma coherent_initial : coherent initialWorld.
Proof.
  unfold coherent, initialWorld, emptyRegistry; simpl.
  refine (conj _ (conj _ (conj _ (conj _ (conj _ _))))); try done.
  - constructor.
  - intros l Hl. by apply elem_of_nil in Hl.
Qed.

(** Every reachable world is coherent. *)
Lemma reachable_coherent w : reachable isRoutableChannel w -> coherent w.
Proof.
  intros [evs ->]. unfold runEvents.
  induction evs as [|ev evs IH] using rev_ind; simpl; [apply coherent_initial|].
  rewrite foldl_app. simpl. by apply coherent_step.
Qed.




Lemma overflow_prompt_cons q :
  exists s, join [LF] (overflowLines q) = 91%N :: s.
Proof.
  unfold overflowLines. rewrite join_head. eexists. reflexivity.
Qed.

Lemma buildSummaryPrompt_pending q :
  0 < droppedCount q -> dropPolicy q = DropSummarize ->
  buildSummaryPrompt q = (Some (join [LF] (overflowLines q)), setDropped q 0 []).
Proof.
  intros Hd Hp. unfold buildSummaryPrompt.
  rewrite bool_decide_eq_true_2 by done. simpl.
  replace (droppedCount q <=? 0) with false by (symmetry; apply Z.leb_gt; lia).
  done.
Qed.

Lemma setItems_same q its : items q = its -> setItems q its = q.
Proof. intros <-. by destruct q. Qed.

Lemma hasCrossChannelItems_nil : hasCrossChannelItems isRoutableChannel [] = false.
Proof. apply hasCrossChannelItems_false. left. constructor. Qed.

(** C6, as the code has it. A pass of the drain loop that finds no queued
    item, a positive dropped count and the drop policy [summarize] issues
    one executor call with the run parameters recorded last and resets
    the dropped count and the summary lines, after which the loop test
    fails. In the modes other than collect the prompt of the call is the
    overflow summary; in collect mode it is the header of a collected
    prompt followed by the overflow summary, and a loop that has switched
    to one call per item breaks instead and leaves the summary pending. *)
Theorem pending_overflow_is_delivered w ref q now force :
  reachable isRoutableChannel w ->
  heap (registry w) !! ref = Some q ->
  items q = [] -> 0 < droppedCount q -> dropPolicy q = DropSummarize ->
  exists r,
    lastRun q = Some r
    /\ (mode q <> Collect ->
        drainIteration isRoutableChannel now force q
        = IterRun SummaryCall (synthesized (join [LF] (overflowLines q)) r now)
            (setDropped q 0 []) force)
    /\ (mode q = Collect ->
        drainIteration isRoutableChannel now false q
        = IterRun CollectCall
            (synthesized (COLLECT_HEADER ++ [LF; LF] ++ join [LF] (overflowLines q))
               r now)
            (setDropped q 0 []) false
        /\ drainIteration isRoutableChannel now true q = IterBreak q)
    /\ loopTest (setDropped q 0 []) = false
    /\ droppedCount (setDropped q 0 []) = 0
    /\ summaryLines (setDropped q 0 []) = [].
Proof.
  intros Hre Hq Hi Hd Hp.
  pose proof (reachable_coherent w Hre) as (_ & _ & _ & _ & _ & Hwf).
  destruct (Hwf ref q Hq) as (_ & _ & Hl). destruct (Hl Hd) as [r Hr].
  destruct (overflow_prompt_cons q) as [s Hs].
  exists r. split; [done|]. split; [|split; [|split; [|done]]].
  - intros Hm. unfold drainIteration.
    rewrite bool_decide_eq_false_2 by done.
    rewrite (buildSummaryPrompt_pending q Hd Hp). rewrite Hs. simpl. by rewrite Hr.
  - intros Hm. split.
    + unfold drainIteration. rewrite bool_decide_eq_true_2 by done.
      rewrite Hi, hasCrossChannelItems_nil, buildSummaryPrompt_setItems.
      rewrite (buildSummaryPrompt_pending q Hd Hp). simpl. rewrite Hr.
      rewrite setItems_same by done.
      unfold buildCollectPrompt, synthesized. rewrite Hs. simpl. reflexivity.
    + rewrite (drainIteration_forced_collect isRoutableChannel now q Hm). by rewrite Hi.
  - unfold loopTest. simpl. by rewrite Hi.
Qed.


End Invariant.



Lemma pending_overflow_is_delivered_witness :
  exists w ref q r,
    heap (registry w) !! ref = Some q /\ lastRun q = Some r
    /\ drainIteration Samples.anyChannel 9 false q
       = IterRun CollectCall
           (synthesized (COLLECT_HEADER ++ [LF; LF] ++ join [LF] (overflowLines q)) r 9)
           (setDropped q 0 []) false.
Proof.
  set (w := runEvents Samples.anyChannel Samples.overflowThenMixed initialWorld).
  assert (Hq : exists q, heap (registry w) !! 0%nat = Some q) by (vm_compute; by eexists).
  destruct Hq as [q Hq].
  destruct (pending_overflow_is_delivered Samples.anyChannel w 0%nat q 9 false)
    as (r & Hr & _ & Hc & _).
  - by exists Samples.overflowThenMixed.
  - exact Hq.
  - vm_compute in Hq. injection Hq as <-. reflexivity.
  - vm_compute in Hq. injection Hq as <-. reflexivity.
  - vm_compute in Hq. injection Hq as <-. reflexivity.
  - exists w, 0%nat, q, r. split; [exact Hq|]. split; [exact Hr|].
    apply Hc. vm_compute in Hq. injection Hq as <-. reflexivity.
Defined.

(** C6, as the specification words it, fails in two ways. In collect mode
    the call made for a pending overflow summary on an empty queue does
    not have the overflow summary as its prompt: the summary comes after
    the header of a collected prompt (the state is the one reached by
    [Samples.overflowThenMixed]). And when the drop policy of the queue is
    no longer [summarize], a pass that finds no item and a positive
    dropped count makes no call and resets nothing (the state is the one
    reached by [Samples.overflowThenPolicyChange]). *)
Lemma collect_mode_wraps_pending_summary :
  (exists q call q',
    lookupQueue "k"
      (registry (runEvents Samples.anyChannel Samples.overflowThenMixed initialWorld))
    = Some q
    /\ items q = [] /\ droppedCount q = 1 /\ dropPolicy q = DropSummarize
    /\ loops (runEvents Samples.anyChannel Samples.overflowThenMixed initialWorld)
       = [ {| loopKey := "k"; loopQueue := 0; forceIndividualCollect := false |} ]
    /\ drainIteration Samples.anyChannel 9 false q = IterRun CollectCall call q' false
    /\ prompt call <> join [LF] (overflowLines q)
    /\ prompt call = COLLECT_HEADER ++ [LF; LF] ++ join [LF] (overflowLines q))
  /\ (exists q,
      lookupQueue "k"
        (registry (runEvents Samples.anyChannel Samples.overflowThenPolicyChange
                     initialWorld))
      = Some q
      /\ items q = [] /\ droppedCount q = 1 /\ dropPolicy q = DropOld
      /\ drainIteration Samples.anyChannel 9 false q = IterBreak q).
Proof.
  split.
  - eexists _, _, _. split; [vm_compute; reflexivity|].
    split; [reflexivity|]. split; [reflexivity|]. split; [reflexivity|].
    split; [vm_compute; reflexivity|].
    split; [vm_compute; reflexivity|].
    split; [vm_compute; discriminate|vm_compute; reflexivity].
  - eexists. split; [vm_compute; reflexivity|].
    split; [reflexivity|]. split; [reflexivity|]. split; [reflexivity|].
    vm_compute. reflexivity.
Qed.

End FollowupQueueFacts.

(** ** The [agent] gateway method *)
Module AgentMethodFacts.

Import AgentMethod.

(** A request whose key has an entry in the cache is answered from the
    cache: nothing is started and the cache is left alone. *)
Lemma handleAgent_cached req now g e :
  paramsValid req = true ->
  dedupe g !! dedupeKey (idempotencyKey req) = Some e ->
  handleAgent req now g
  = respond {| respOk := ok e; respPayload := Some (payload e); respCached := true |} g.
Proof. intros Hv He. unfold handleAgent. by rewrite Hv, He. Qed.

(** Once the acknowledgement of a request is stored, a repeat of the
    request gets the same accepted run id back and starts nothing. *)
Lemma retry_after_acknowledgement req now now' g :
  paramsValid req = true ->
  let g1 := acceptAndStart req now g in
  started (handleAgent req now' g1) = started g1
  /\ dedupe (handleAgent req now' g1) = dedupe g1
  /\ last (responses (handleAgent req now' g1))
     = Some {| respOk := true;
               respPayload := Some (Accepted (idempotencyKey req) now);
               respCached := true |}.
Proof.
  intros Hv g1.
  rewrite (handleAgent_cached req now' g1
             {| ts := now; ok := true; payload := Accepted (idempotencyKey req) now;
                error := None |} Hv).
  - unfold respond. simpl. repeat split. by rewrite last_snoc.
  - unfold g1, acceptAndStart. simpl. by rewrite lookup_insert_eq.
Qed.

(** After the run has ended, a repeat of the request gets the final
    outcome back and starts nothing. *)
Lemma retry_after_completion req out now now' g :
  paramsValid req = true ->
  let g1 := finishRun (idempotencyKey req) out now g in
  started (handleAgent req now' g1) = started g1
  /\ last (responses (handleAgent req now' g1))
     = Some {| respOk := match out with Resolved _ => true | Rejected _ => false end;
               respPayload :=
                 Some (match out with
                       | Resolved result => Completed (idempotencyKey req) result
                       | Rejected err => Failed (idempotencyKey req) err
                       end);
               respCached := true |}.
Proof.
  intros Hv g1. unfold handleAgent. rewrite Hv. simpl.
  unfold g1, finishRun. destruct out; simpl; rewrite lookup_insert_eq; simpl;
    by rewrite last_snoc.
Qed.

(** C5. Two submits with one idempotency key, the second arriving while
    the handler of the first is suspended at [await saveSessionStore]:
    both handlers find the cache empty, both acknowledge, and
    [agentCommand] is called twice for the same run id. *)
Theorem concurrent_submits_start_two_runs :
  started (gatewayRun [ Submit Samples.agentRequest 1;
                        Submit Samples.agentRequest 2;
                        SaveSettled 0 3;
                        SaveSettled 0 4 ] emptyGateway)
  = ["idem-1"; "idem-1"]
  /\ started (gatewayRun [ Submit Samples.agentRequest 1;
                           SaveSettled 0 2;
                           Submit Samples.agentRequest 3 ] emptyGateway)
     = ["idem-1"].
Proof. split; vm_compute; reflexivity. Qed.

End AgentMethodFacts.

(** ** The session store *)
Module SessionStoreFacts.

Import SessionStore.

#[local] Arguments writeFileStates : simpl never.
#[local] Arguments lastState : simpl never.
#[local] Arguments renameFile : simpl never.

Lemma substring_all (s : string) : substring 0 (String.length s) s = s.
Proof. induction s as [|c s IH]; simpl; [done|]. by rewrite IH. Qed.

Lemma append_length (s t : string) :
  String.length (s +:+ t) = (String.length s + String.length t)%nat.
Proof. induction s as [|c s IH]; simpl; [done|]. by rewrite IH. Qed.

(** The temporary file is the store path with a suffix, hence a
    different path. *)
Lemma tmpPath_suffix path pid uuid :
  tmpPath path pid uuid = path +:+ ("." +:+ pid +:+ "." +:+ uuid +:+ ".tmp").
Proof. reflexivity. Qed.

Lemma tmpPath_fresh path pid uuid : tmpPath path pid uuid <> path.
Proof.
  rewrite tmpPath_suffix. intros H. apply (f_equal String.length) in H.
  rewrite append_length in H. simpl in H. lia.
Qed.

Lemma writeFileStates_other path data fs p s :
  p <> path -> s ∈ writeFileStates path data fs -> s !! p = fs !! p.
Proof.
  intros Hp Hs. unfold writeFileStates in Hs.
  apply list_elem_of_fmap in Hs as (k & -> & _). by rewrite lookup_insert_ne.
Qed.

Lemma writeFileStates_last path data fs :
  lastState fs (writeFileStates path data fs) = <[path := data]> fs.
Proof.
  unfold lastState, writeFileStates.
  rewrite seq_S, fmap_app. simpl. rewrite List.last_last.
  by rewrite substring_all.
Qed.


Lemma lastState_write fs pre path data x :
  lastState fs (pre ++ writeFileStates path data x) = <[path := data]> x.
Proof.
  unfold lastState, writeFileStates.
  rewrite seq_S, fmap_app, app_assoc. simpl. rewrite List.last_last.
  by rewrite substring_all.
Qed.

Lemma lastState_app fs states s : lastState fs (states ++ [s]) = s.
Proof. unfold lastState. apply List.last_last. Qed.

Section Save.

Variable stringify : gmap string SessionEntry -> string.

(** The [try] block when its [catch] does not see [ENOENT]: the target
    is only ever replaced as a whole, and the error, if any, is passed
    on. *)
Lemma writeOrFallback_primary path tmp json o fs :
  tmp <> path -> tookFallback o = false ->
  Forall (untorn path (fs !! path) json) (writeOrFallback path tmp json o fs).1
  /\ untorn path (fs !! path) json
       (lastState fs (writeOrFallback path tmp json o fs).1)
  /\ (writeOrFallback path tmp json o fs).2
     = match writeTmp o with Some e => Some e | None => renameTmp o end
  /\ (writeTmp o = None -> renameTmp o = None ->
      lastState fs (writeOrFallback path tmp json o fs).1 !! path = Some json).
Proof.
  intros Htmp Hfb. unfold tookFallback in Hfb. unfold writeOrFallback.
  assert (Hw : Forall (untorn path (fs !! path) json) (writeFileStates tmp json fs)).
  { apply Forall_forall. intros s Hs. left.
    by apply (writeFileStates_other tmp json fs). }
  assert (Hl : untorn path (fs !! path) json
                 (lastState fs (writeFileStates tmp json fs))).
  { left. rewrite writeFileStates_last. by rewrite lookup_insert_ne. }
  destruct (writeTmp o) as [[|c]|]; cbn in Hfb; try discriminate; cbn [fst snd].
  - repeat split; try done. by left.
  - destruct (renameTmp o) as [[|c]|]; cbn in Hfb; try discriminate; cbn [fst snd].
    + repeat split; try done.
    + assert (Hr : renameFile tmp path (lastState fs (writeFileStates tmp json fs))
                   !! path = Some json).
      { rewrite writeFileStates_last. unfold renameFile.
        rewrite lookup_insert_eq. by rewrite lookup_insert_eq. }
      rewrite lastState_app. repeat split; try done.
      * apply Forall_app. split; [done|]. constructor; [by right|constructor].
      * by right.
Qed.

(** The [try] block when its [catch] sees [ENOENT]: what went before left
    the target alone; the retry writes the target directly. *)
Lemma writeOrFallback_fallback path tmp json o fs :
  tmp <> path -> tookFallback o = true ->
  exists pre,
    Forall (fun s => s !! path = fs !! path) pre
    /\ lastState fs pre !! path = fs !! path
    /\ writeOrFallback path tmp json o fs
       = match mkdirRetry o with
         | Some ENOENT => (pre, None)
         | Some err2 => (pre, Some err2)
         | None =>
             match writeDirect o with
             | Some ENOENT => (pre, None)
             | Some err2 => (pre, Some err2)
             | None => (pre ++ writeFileStates path json (lastState fs pre), None)
             end
         end.
Proof.
  intros Htmp Hfb. unfold tookFallback in Hfb. unfold writeOrFallback.
  destruct (writeTmp o) as [[|c]|]; cbn in Hfb; try discriminate.
  - exists []. split; [constructor|]. split; [done|]. reflexivity.
  - destruct (renameTmp o) as [[|c]|]; cbn in Hfb; try discriminate.
    exists (writeFileStates tmp json fs). split; [|split; [|reflexivity]].
    + apply Forall_forall. intros s Hs.
      by apply (writeFileStates_other tmp json fs).
    + rewrite writeFileStates_last. by rewrite lookup_insert_ne.
Qed.

Lemma last_cons_snoc {A} (a x d : A) (l : list A) :
  List.last (a :: l ++ [x]) d = x.
Proof. rewrite app_comm_cons. apply List.last_last. Qed.

(** C7, as the code has it. [saveSessionStore] first drops the cached
    entry of the path. If the first [mkdir] succeeds and no [ENOENT]
    reaches the [catch] block, the text is written to a temporary file
    next to the target and renamed onto it, so that every state of the
    file system shows the target with its old content or with the whole
    new text, and an error of the write or of the rename is raised. If
    [ENOENT] reaches the [catch] block the directory is created again
    and the text is written to the target directly, not through a
    temporary file; an [ENOENT] of that retry is swallowed and the target
    is left as it was, any other error is raised. An error of the first
    [mkdir] or of the final removal of the temporary file is raised. *)
Theorem save_session_store path st pid uuid o cache fs :
  let res := saveSessionStore stringify path st pid uuid o cache fs in
  let json := stringify st in
  let final := List.last (observable res) fs in
  cacheAfter res = delete path cache
  /\ tmpPath path pid uuid = path +:+ ("." +:+ pid +:+ "." +:+ uuid +:+ ".tmp")
  /\ (mkdirFirst o = None -> tookFallback o = false ->
      Forall (untorn path (fs !! path) json) (observable res)
      /\ (rmTmp o = None ->
          thrown res
          = match writeTmp o with Some e => Some e | None => renameTmp o end)
      /\ (rmTmp o = None -> writeTmp o = None -> renameTmp o = None ->
          final !! path = Some json /\ final !! tmpPath path pid uuid = None))
  /\ (mkdirFirst o = None -> tookFallback o = true -> rmTmp o = None ->
      match mkdirRetry o with
      | Some ENOENT => thrown res = None /\ final !! path = fs !! path
      | Some err2 => thrown res = Some err2
      | None =>
          match writeDirect o with
          | Some ENOENT => thrown res = None /\ final !! path = fs !! path
          | Some err2 => thrown res = Some err2
          | None => thrown res = None /\ final !! path = Some json
          end
      end)
  /\ (forall e, mkdirFirst o = Some e -> thrown res = Some e /\ observable res = [fs])
  /\ (forall e, mkdirFirst o = None -> rmTmp o = Some e -> thrown res = Some e).
Proof.
  intros res json final.
  pose proof (tmpPath_fresh path pid uuid) as Htmp.
  split; [unfold res, saveSessionStore; by destruct (mkdirFirst o), (rmTmp o);
          try destruct (writeOrFallback _ _ _ _ _)|].
  split; [reflexivity|].
  split; [|split; [|split]].
  - intros Hm Hfb.
    destruct (writeOrFallback_primary path (tmpPath path pid uuid) json o fs Htmp Hfb)
      as (Hall & Hlast & Herr & Hok).
    unfold final, res, saveSessionStore. rewrite Hm. fold json.
    destruct (writeOrFallback path (tmpPath path pid uuid) json o fs) as [states err].
    cbn [fst snd] in *.
    assert (Hfs : untorn path (fs !! path) json fs) by by left.
    destruct (rmTmp o) as [e|]; cbn [observable thrown].
    + split; [by constructor|]. split; [done|done].
    + split; [|split; [done|]].
      * constructor; [done|]. apply Forall_app. split; [done|].
        constructor; [|constructor]. unfold untorn.
        rewrite lookup_delete_ne by done. exact Hlast.
      * intros _ Hw Hr. rewrite last_cons_snoc.
        rewrite lookup_delete_ne by done. rewrite lookup_delete_eq.
        split; [by apply Hok|done].
  - intros Hm Hfb Hrm.
    destruct (writeOrFallback_fallback path (tmpPath path pid uuid) json o fs Htmp Hfb)
      as (pre & Hpre & Hlast & E).
    unfold final, res, saveSessionStore. rewrite Hm, Hrm. fold json. rewrite E.
    destruct (mkdirRetry o) as [[|c]|]; cbn [observable thrown];
      rewrite ?last_cons_snoc, ?lookup_delete_ne by done; try done.
    destruct (writeDirect o) as [[|c]|]; cbn [observable thrown];
      rewrite ?last_cons_snoc, ?lookup_delete_ne by done; try done.
    split; [done|]. rewrite lastState_write. by rewrite lookup_insert_eq.
  - intros e He. unfold res, saveSessionStore. by rewrite He.
  - intros e Hm He. unfold res, saveSessionStore. rewrite Hm, He.
    by destruct (writeOrFallback _ _ _ _ _).
Qed.

End Save.

Lemma save_session_store_witness :
  Forall (untorn "/s/sessions.json" (Some "{a:1}") "{}")
    (observable (saveSessionStore Samples.emptyJson "/s/sessions.json" ∅ "42" "u1"
                   Samples.allSucceed ∅ {[ "/s/sessions.json" := "{a:1}" ]})).
Proof.
  pose proof (save_session_store Samples.emptyJson "/s/sessions.json" ∅ "42" "u1"
                Samples.allSucceed ∅ {[ "/s/sessions.json" := "{a:1}" ]}) as H.
  cbv zeta in H. destruct H as (_ & _ & H & _).
  destruct (H eq_refl eq_refl) as [Hall _]. exact Hall.
Defined.

(** C7, the sentence on atomic writing as the specification words it:
    when the parent directory vanished and the retry succeeds, the text
    is written straight to the target, and a reader can find the target
    holding the first character only. The save itself ends without an
    error. *)
Lemma direct_write_shows_partial_text :
  let res := saveSessionStore Samples.emptyJson "/s/sessions.json" ∅ "42" "u1"
               Samples.directoryVanished ∅ {[ "/s/sessions.json" := "{a:1}" ]} in
  thrown res = None
  /\ observable res !! 2%nat ≫= (fun s => s !! "/s/sessions.json") = Some "{"
  /\ exists s, observable res !! 2%nat = Some s
               /\ ~ untorn "/s/sessions.json" (Some "{a:1}") "{}" s.
Proof.
  split; [vm_compute; reflexivity|]. split; [vm_compute; reflexivity|].
  eexists. split; [vm_compute; reflexivity|].
  unfold untorn. intros [H|H]; vm_compute in H; discriminate.
Qed.

Section Load.

Variable isCacheEnabled : Z -> bool.
Variable JSON5_parse : string -> option Parsed.

(** C8. [loadSessionStore] answers from the cache, and leaves the cache
    as it is, when the path has a cached entry that is usable: caching is
    enabled, the entry is within the time-to-live, and the modification
    time of the file is the one recorded. In every other case it reads
    and parses the file, and remembers the result if caching is enabled.
    A file that cannot be read or parsed, or that does not hold an
    object, gives the empty mapping. *)
Theorem load_session_store path env cache :
  (forall cached,
      cache !! path = Some cached -> usable isCacheEnabled path env cached ->
      loadSessionStore isCacheEnabled JSON5_parse path env cache
      = (cachedStore cached, cache))
  /\ ((forall cached,
         cache !! path = Some cached -> ~ usable isCacheEnabled path env cached) ->
      (loadSessionStore isCacheEnabled JSON5_parse path env cache).1
      = (readStore JSON5_parse path env).1
      /\ (loadSessionStore isCacheEnabled JSON5_parse path env cache).2 !! path
         = if isCacheEnabled (ttl env)
           then Some {| cachedStore := (readStore JSON5_parse path env).1;
                        loadedAt := now env; storePath := path;
                        mtimeMs := (readStore JSON5_parse path env).2 |}
           else cache !! path)
  /\ (readFileSync env path = None -> (readStore JSON5_parse path env).1 = ∅)
  /\ (forall raw, readFileSync env path = Some raw -> JSON5_parse raw = None ->
      (readStore JSON5_parse path env).1 = ∅)
  /\ (forall raw, readFileSync env path = Some raw ->
      JSON5_parse raw = Some ParsedOther ->
      (readStore JSON5_parse path env).1 = ∅)
  /\ (forall raw m, readFileSync env path = Some raw ->
      JSON5_parse raw = Some (ParsedObject m) ->
      (readStore JSON5_parse path env).1 = m).
Proof.
  assert (Hdisk : forall c,
    (loadFromDisk isCacheEnabled JSON5_parse path env c).1
    = (readStore JSON5_parse path env).1
    /\ (loadFromDisk isCacheEnabled JSON5_parse path env c).2 !! path
       = if isCacheEnabled (ttl env)
         then Some {| cachedStore := (readStore JSON5_parse path env).1;
                      loadedAt := now env; storePath := path;
                      mtimeMs := (readStore JSON5_parse path env).2 |}
         else c !! path).
  { intros c. unfold loadFromDisk, isSessionStoreCacheEnabled.
    destruct (readStore JSON5_parse path env) as [loaded mtime].
    destruct (isCacheEnabled (ttl env)); cbn [fst snd]; [|done].
    by rewrite lookup_insert_eq. }
  split; [|split].
  - intros cached Hc (Hen & Hage & Hmt).
    unfold loadSessionStore, isSessionStoreCacheEnabled, isSessionStoreCacheValid.
    rewrite Hen, Hc.
    replace (now env - loadedAt cached <=? ttl env) with true
      by (symmetry; by apply Z.leb_le).
    by rewrite bool_decide_eq_true_2.
  - intros Hno.
    unfold loadSessionStore, isSessionStoreCacheEnabled, isSessionStoreCacheValid.
    destruct (isCacheEnabled (ttl env)) eqn:Hen.
    2:{ exact (Hdisk cache). }
    destruct (cache !! path) as [cached|] eqn:Hc.
    2:{ exact (Hdisk cache). }
    destruct (now env - loadedAt cached <=? ttl env) eqn:Hage.
    2:{ exact (Hdisk cache). }
    case_bool_decide as Hmt.
    + exfalso. apply (Hno cached eq_refl). repeat split; try done.
      by apply Z.leb_le.
    + exact (Hdisk (invalidateSessionStoreCache path cache)).
  - unfold readStore. repeat split.
    + by intros ->.
    + intros raw -> Hp. simpl. by rewrite Hp.
    + intros raw -> Hp. simpl. by rewrite Hp.
    + intros raw m -> Hp. simpl. by rewrite Hp.
Qed.

End Load.

Lemma load_session_store_witness :
  loadSessionStore Samples.cacheOn Samples.parseNothing "/s/sessions.json"
    Samples.quietEnv Samples.warmCache
  = (cachedStore Samples.warmEntry, Samples.warmCache).
Proof.
  apply (proj1 (load_session_store Samples.cacheOn Samples.parseNothing
                  "/s/sessions.json" Samples.quietEnv Samples.warmCache)
           Samples.warmEntry).
  - reflexivity.
  - repeat split; vm_compute; (reflexivity || discriminate).
Defined.

End SessionStoreFacts.

(** ** Session initialisation and the heartbeat run *)
Module SessionLifecycleFacts.

Import SessionStore SessionLifecycle.

Section Lifecycle.

Variable forkSessionFromParent : SessionEntry -> option (string * string).
Variable resolveSessionTranscriptPath : string -> string.
Variable replyResolver :
  Z -> gmap string SessionEntry -> gmap string SessionEntry * option ReplyPayload.
Variable shouldSkip : option string -> bool.

Lemma freshEntry_stale i entry :
  idleMinutes i * 60000 < clock i - updatedAt entry ->
  freshEntry i (Some entry) = false.
Proof. intros H. unfold freshEntry. apply Z.leb_gt. lia. Qed.

(** A stale entry: new session, flags cleared, an id that does not come
    from the entry. *)
Lemma initSessionState_stale i st entry :
  migrateLegacy i st !! resolvedKey i = Some entry ->
  idleMinutes i * 60000 < clock i - updatedAt entry ->
  let res := initSessionState forkSessionFromParent resolveSessionTranscriptPath i st in
  isNewSession res = true
  /\ resultSystemSent res = false
  /\ resultAbortedLastRun res = false
  /\ sessionId (sessionEntry res) = resultSessionId res
  /\ updatedAt (sessionEntry res) = clock i
  /\ (resultSessionId res = randomUUID i
      \/ exists parent parentEntry file,
           parentSessionKey i = Some parent
           /\ migrateLegacy i st !! parent = Some parentEntry
           /\ forkSessionFromParent parentEntry = Some (resultSessionId res, file))
  /\ (parentSessionKey i = None -> resultSessionId res = randomUUID i)
  /\ exists stored,
       sessionStore res !! resolvedKey i = Some stored
       /\ sessionId stored = resultSessionId res
       /\ updatedAt stored = clock i.
Proof.
  intros He Hs res. unfold res, initSessionState.
  rewrite He, (freshEntry_stale i entry Hs), andb_false_r. cbn [negb andb].
  cbn [isNewSession resultSystemSent resultAbortedLastRun sessionEntry
       resultSessionId sessionStore sessionId updatedAt].
  rewrite lookup_insert_eq.
  repeat split.
  - destruct (parentSessionKey i) as [parent|]; [|by left].
    destruct (_ && _); [|by left].
    destruct (migrateLegacy i st !! parent) as [p|] eqn:Hp; [|by left].
    cbn [mbind option_bind].
    destruct (forkSessionFromParent p) as [[fsid ffile]|] eqn:Hf; [|by left].
    right. by exists parent, p, ffile.
  - by intros ->.
  - eexists. split; [reflexivity|]. done.
Qed.

(** A fresh entry without a reset trigger keeps its session. *)
Lemma initSessionState_fresh i st entry :
  migrateLegacy i st !! resolvedKey i = Some entry ->
  clock i - updatedAt entry <= idleMinutes i * 60000 ->
  resetTriggered i = false ->
  let res := initSessionState forkSessionFromParent resolveSessionTranscriptPath i st in
  isNewSession res = false /\ resultSessionId res = sessionId entry.
Proof.
  intros He Hf Hr res. unfold res, initSessionState.
  rewrite He, Hr. unfold freshEntry.
  replace (clock i - updatedAt entry <=? idleMinutes i * 60000) with true
    by (symmetry; by apply Z.leb_le).
  cbn [negb andb isNewSession resultSessionId].
  destruct (parentSessionKey i); done.
Qed.

(** A reply that is an acknowledgement without media ends the run with
    the status [ok-token], after the [updatedAt] of the snapshot was put
    back. *)
Lemma heartbeat_acknowledged key opts now st st1 p :
  nonEmpty (overrideBody opts) = false ->
  replyResolver now (applySessionIdOverride key opts now st) = (st1, Some p) ->
  nonEmpty (text p) = true ->
  shouldSkip (text p) = true ->
  nonEmpty (mediaUrl p) = false ->
  mediaUrls p = [] ->
  runWebHeartbeatOnce replyResolver shouldSkip key opts now st
  = (Some OkToken,
     restoreUpdatedAt key
       (getSessionSnapshot key (applySessionIdOverride key opts now st)) st1).
Proof.
  intros Hbody Hreply Htext Hskip Hmedia Hurls. unfold runWebHeartbeatOnce.
  destruct (overrideBody opts) as [[|c body]|]; [|done|].
  all: rewrite Hreply, Htext, Hskip, Hmedia, Hurls; reflexivity.
Qed.

(** The path that does what the comment at the restore says: without a
    session id passed in, an acknowledged heartbeat leaves the entry with
    the [updatedAt] it had before the run, whatever the reply pipeline
    wrote, and touches no other key. *)
Lemma heartbeat_without_session_id_restores key opts now st st1 p before current :
  nonEmpty (optSessionId opts) = false ->
  nonEmpty (overrideBody opts) = false ->
  replyResolver now st = (st1, Some p) ->
  nonEmpty (text p) = true ->
  shouldSkip (text p) = true ->
  nonEmpty (mediaUrl p) = false ->
  mediaUrls p = [] ->
  st !! key = Some before ->
  st1 !! key = Some current ->
  exists st',
    runWebHeartbeatOnce replyResolver shouldSkip key opts now st = (Some OkToken, st')
    /\ st' !! key = Some (setUpdatedAt current (updatedAt before))
    /\ forall other, other <> key -> st' !! other = st1 !! other.
Proof.
  intros Hid Hbody Hreply Htext Hskip Hmedia Hurls Hb Hc.
  assert (applySessionIdOverride key opts now st = st) as Hsame.
  { unfold applySessionIdOverride. by destruct (optSessionId opts) as [[|c s]|]. }
  eexists. split.
  - apply (heartbeat_acknowledged key opts now st st1 p); try done.
    by rewrite Hsame.
  - rewrite Hsame. unfold restoreUpdatedAt, getSessionSnapshot. rewrite Hb, Hc.
    split; [by rewrite lookup_insert_eq|].
    intros other Hne. by rewrite lookup_insert_ne.
Qed.

(** With a session id passed in, the snapshot is taken after that id was
    written with the current time: an acknowledged heartbeat then leaves
    the entry with the time of the run. *)
Lemma heartbeat_with_session_id_restores_now key opts now st st1 p current :
  nonEmpty (optSessionId opts) = true ->
  nonEmpty (overrideBody opts) = false ->
  replyResolver now (applySessionIdOverride key opts now st) = (st1, Some p) ->
  nonEmpty (text p) = true ->
  shouldSkip (text p) = true ->
  nonEmpty (mediaUrl p) = false ->
  mediaUrls p = [] ->
  st1 !! key = Some current ->
  exists st',
    runWebHeartbeatOnce replyResolver shouldSkip key opts now st = (Some OkToken, st')
    /\ st' !! key = Some (setUpdatedAt current now).
Proof.
  intros Hid Hbody Hreply Htext Hskip Hmedia Hurls Hc.
  eexists. split.
  - by apply (heartbeat_acknowledged key opts now st st1 p).
  - unfold restoreUpdatedAt, getSessionSnapshot, applySessionIdOverride.
    destruct (optSessionId opts) as [[|c s]|]; try done.
    destruct (st !! key); rewrite lookup_insert_eq, Hc; by rewrite lookup_insert_eq.
Qed.

End Lifecycle.

(** C9. An entry last updated at time 0, stale at time 3600001 under the
    default idle time of 60 minutes, and a heartbeat run at that time
    whose reply is the bare acknowledgement token. Run without a session
    id, the heartbeat leaves [updatedAt] at 0 and the next message starts
    a new session, as the comment at the restore says it should. Run with
    the session id of the entry, the heartbeat is acknowledged in the same
    way but leaves [updatedAt] at 3600001, and the next message continues
    the old session: the heartbeat has kept the session alive. *)
Theorem heartbeat_with_session_id_keeps_session_alive :
  let st : gmap string SessionEntry := {[ Samples.mainSession := Samples.entryAt 0 ]} in
  let heartbeat opts :=
    runWebHeartbeatOnce Samples.ackPipeline Samples.skipToken
      Samples.mainSession opts 3600001 st in
  let next st' :=
    initSessionState Samples.noFork Samples.transcriptOf
      (Samples.messageAt 3600002) st' in
  isNewSession
    (initSessionState Samples.noFork Samples.transcriptOf
       (Samples.messageAt 3600001) st) = true
  /\ (heartbeat Samples.plainHeartbeat).1 = Some OkToken
  /\ updatedAt <$> (heartbeat Samples.plainHeartbeat).2 !! Samples.mainSession = Some 0
  /\ isNewSession (next (heartbeat Samples.plainHeartbeat).2) = true
  /\ (heartbeat Samples.heartbeatWithSessionId).1 = Some OkToken
  /\ updatedAt <$> (heartbeat Samples.heartbeatWithSessionId).2 !! Samples.mainSession
     = Some 3600001
  /\ isNewSession (next (heartbeat Samples.heartbeatWithSessionId).2) = false
  /\ resultSessionId (next (heartbeat Samples.heartbeatWithSessionId).2) = "s-old".
Proof. cbv zeta. repeat split; vm_compute; reflexivity. Qed.

End SessionLifecycleFacts.

(** ** Worked scenarios *)
Module Scenarios.

Import FollowupQueue Samples.

Definition collectWide : QueueSettings :=
  {| s_mode := Collect; s_debounceMs := Some 50; s_cap := Some 20;
     s_dropPolicy := None |}.

(** Three prompts arrive within ten milliseconds while the key is busy.
    A pass of the drain loop before the debounce window is over does
    nothing; the pass after it issues one call that holds the three
    prompts in order, and the next pass unregisters the key. *)
Definition burst : list Event :=
  [ EvEnqueue "k" slackA collectWide None 100;
    EvEnqueue "k" slackB collectWide None 105;
    EvEnqueue "k" slackC collectWide None 110;
    EvSchedule "k" ].

Example burst_waits_for_debounce :
  executed (runEvents anyChannel (burst ++ [EvIterate 0 159]) initialWorld) = [].
Proof. vm_compute. reflexivity. Qed.

Example burst_collected_once :
  List.map (fun c => (callKind c, prompt (callRun c)))
    (executed (runEvents anyChannel (burst ++ [EvIterate 0 160; EvIterate 0 161])
                 initialWorld))
  = [ (CollectCall,
       COLLECT_HEADER ++ [LF; LF]
       ++ lit "---" ++ [LF] ++ lit "Queued #1" ++ [LF] ++ lit "A" ++ [LF; LF]
       ++ lit "---" ++ [LF] ++ lit "Queued #2" ++ [LF] ++ lit "B" ++ [LF; LF]
       ++ lit "---" ++ [LF] ++ lit "Queued #3" ++ [LF] ++ lit "C") ]
  /\ lookupQueue "k"
       (registry (runEvents anyChannel (burst ++ [EvIterate 0 160; EvIterate 0 161])
                    initialWorld))
     = None.
Proof. split; vm_compute; reflexivity. Qed.

(** Two items from different channels are drained as two calls. *)
Example mixed_routes_drained_apart :
  List.map (fun c => (callKind c, callRun c))
    (executed (runEvents anyChannel
                 [ EvEnqueue "k" slackA (capTwo Collect DropSummarize) None 1;
                   EvEnqueue "k" telegramB (capTwo Collect DropSummarize) None 2;
                   EvSchedule "k"; EvIterate 0 3; EvIterate 0 4; EvIterate 0 5 ]
                 initialWorld))
  = [ (ItemCall, slackA); (ItemCall, telegramB) ].
Proof. vm_compute. reflexivity. Qed.

(** Outside collect mode every queued item gets a call of its own, in
    arrival order. *)
Example followup_one_call_per_item :
  List.map (fun c => (callKind c, callRun c))
    (executed (runEvents anyChannel
                 [ EvEnqueue "k" slackA (capTwo Followup DropSummarize) None 1;
                   EvEnqueue "k" slackB (capTwo Followup DropSummarize) None 2;
                   EvSchedule "k"; EvIterate 0 3; EvIterate 0 4; EvIterate 0 5 ]
                 initialWorld))
  = [ (ItemCall, slackA); (ItemCall, slackB) ].
Proof. vm_compute. reflexivity. Qed.

(** Cap two, policy [new]: the third item is rejected and two stay
    queued. Cap two, policy [summarize]: the evicted prompt shows up in
    the summary that the next drain delivers before the queued items. *)
Example third_item_rejected :
  snd (enqueueFollowupRun "k" slackC (capTwo Followup DropNew) None 3
         (fullRegistry Followup DropNew)) = false
  /\ getFollowupQueueDepth "k"
       (fst (enqueueFollowupRun "k" slackC (capTwo Followup DropNew) None 3
               (fullRegistry Followup DropNew))) = 2%nat.
Proof. split; vm_compute; reflexivity. Qed.

Example evicted_prompt_summarized :
  List.map (fun c => (callKind c, prompt (callRun c)))
    (executed (runEvents anyChannel
                 [ EvEnqueue "k" slackC (capTwo Followup DropSummarize) None 3;
                   EvSchedule "k"; EvIterate 0 4; EvIterate 0 5; EvIterate 0 6 ]
                 {| registry := fullRegistry Followup DropSummarize;
                    loops := []; executed := [] |}))
  = [ (SummaryCall,
       lit "[Queue overflow] Dropped 1 message due to cap." ++ [LF]
       ++ lit "Summary:" ++ [LF] ++ lit "- A");
      (ItemCall, lit "B"); (ItemCall, lit "C") ].
Proof. vm_compute. reflexivity. Qed.

(** A synopsis longer than the limit is cut to 159 code units and an
    ellipsis. *)
Example long_prompt_elided :
  length (buildQueueSummaryLine
            (item "0123456789012345678901234567890123456789012345678901234567890123456789012345678901234567890123456789012345678901234567890123456789012345678901234567890123456789 and more"
               None None None))
  = 160%nat.
Proof. vm_compute. reflexivity. Qed.

End Scenarios.

(** ** More on strings *)
Module JsTextFacts.

Import JsText JsFacts.

Lemma dropWhile_stop {A} (p : A -> bool) (l : list A) :
  match dropWhile p l with
  | [] => True
  | x :: _ => p x = false
  end.
Proof.
  induction l as [|x l IH]; simpl; [done|].
  destruct (p x) eqn:E; [exact IH|exact E].
Qed.

Lemma dropWhile_id {A} (p : A -> bool) (l : list A) :
  match l with [] => True | x :: _ => p x = false end -> dropWhile p l = l.
Proof. destruct l as [|x l]; simpl; [done|]. by intros ->. Qed.

Lemma dropWhile_idem {A} (p : A -> bool) (l : list A) :
  dropWhile p (dropWhile p l) = dropWhile p l.
Proof. apply dropWhile_id, dropWhile_stop. Qed.

Lemma dropWhile_suffix {A} (p : A -> bool) (l : list A) :
  exists w, l = w ++ dropWhile p l /\ forallb p w = true.
Proof.
  induction l as [|x l (w & E & Hw)]; simpl; [by exists []|].
  destruct (p x) eqn:Hx.
  - exists (x :: w). simpl. rewrite Hx, Hw. split; [by f_equal|done].
  - by exists [].
Qed.

Lemma dropWhile_Forall {A} (p : A -> bool) (P : A -> Prop) (l : list A) :
  Forall P l -> Forall P (dropWhile p l).
Proof.
  intros H. destruct (dropWhile_suffix p l) as (w & E & _).
  rewrite E in H. by apply Forall_app in H as [_ H].
Qed.

Lemma dropWhile_none {A} (p : A -> bool) (l : list A) :
  forallb p l = false -> dropWhile p l <> [].
Proof.
  induction l as [|x l IH]; simpl; [done|].
  destruct (p x); simpl; [exact IH|done].
Qed.

(** [trimEnd] cuts a white suffix off. *)
Lemma trimEnd_prefix (s : jsstring) :
  exists w, s = trimEnd s ++ w /\ forallb isWhite w = true.
Proof.
  unfold trimEnd. destruct (dropWhile_suffix isWhite (rev s)) as (w & E & Hw).
  exists (rev w). split; [|by rewrite forallb_rev].
  rewrite <- rev_app_distr, <- E. by rewrite rev_involutive.
Qed.

Lemma trimEnd_idem (s : jsstring) : trimEnd (trimEnd s) = trimEnd s.
Proof. unfold trimEnd. by rewrite rev_involutive, dropWhile_idem. Qed.

Lemma trimStart_trimEnd (s : jsstring) :
  trimStart s = s -> trimStart (trimEnd s) = trimEnd s.
Proof.
  intros Hs. destruct (trimEnd_prefix s) as (w & E & _).
  unfold trimStart in *. apply dropWhile_id.
  destruct (trimEnd s) as [|x t] eqn:Et; [done|].
  rewrite E in Hs. simpl in Hs.
  destruct (isWhite x) eqn:Hx; [|done].
  pose proof (dropWhile_length isWhite (t ++ w)) as Hlen.
  rewrite Hs in Hlen. simpl in Hlen. lia.
Qed.

Lemma trim_idem (s : jsstring) : trim (trim s) = trim s.
Proof.
  unfold trim.
  rewrite (trimStart_trimEnd (trimStart s)) by apply dropWhile_idem.
  apply trimEnd_idem.
Qed.

Lemma trim_fixed (s : jsstring) : trim s = s -> trimStart s = s /\ trimEnd s = s.
Proof.
  intros H. assert (trimEnd s = s) as He.
  { rewrite <- H at 1. unfold trim. rewrite trimEnd_idem. exact H. }
  split; [|done].
  unfold trim in H.
  assert (trimStart (trimEnd (trimStart s)) = trimEnd (trimStart s)) as Hst
    by (apply trimStart_trimEnd, dropWhile_idem).
  by rewrite H in Hst.
Qed.

(** A string without white space is its own [trim]. *)
Lemma trim_nowhite (s : jsstring) : forallb (fun c => negb (isWhite c)) s = true -> trim s = s.
Proof.
  intros H. unfold trim, trimStart, trimEnd.
  assert (forall l, forallb (fun c => negb (isWhite c)) l = true -> dropWhile isWhite l = l)
    as Hd.
  { intros l Hl. apply dropWhile_id. destruct l as [|x l]; [done|].
    simpl in Hl. apply andb_true_iff in Hl as [Hx _]. by apply negb_true_iff. }
  rewrite (Hd s H), Hd; [by rewrite rev_involutive|by rewrite forallb_rev].
Qed.

Lemma trimEnd_nonwhite (s : jsstring) :
  s <> [] -> trimEnd s = s -> forallb isWhite s = false.
Proof.
  intros Hne He. destruct (forallb isWhite s) eqn:E; [|done].
  rewrite (trimEnd_white s E) in He. congruence.
Qed.

(** Appending to a string that starts and ends with other than white
    space. *)
Lemma trim_app (a b : jsstring) :
  a <> [] -> trim a = a -> trim (a ++ b) = a ++ trimEnd b.
Proof.
  intros Hne Ha. apply trim_fixed in Ha as [Hs He].
  unfold trim.
  assert (trimStart (a ++ b) = a ++ b) as ->.
  { unfold trimStart in *. apply dropWhile_id.
    destruct a as [|x a]; [done|]. simpl in *.
    destruct (isWhite x) eqn:Hx; [|done].
    pose proof (dropWhile_length isWhite a) as Hl. rewrite Hs in Hl.
    simpl in Hl. lia. }
  rewrite trimEnd_app.
  destruct (forallb isWhite b) eqn:Hb; [|done].
  by rewrite He, (trimEnd_white b Hb), app_nil_r.
Qed.

(** *** [split] *)

Lemma split_cons (sep : N) (s : jsstring) : split sep s <> [].
Proof.
  destruct s as [|c s]; simpl; [done|].
  destruct (c =? sep)%N; [done|]. by destruct (split sep s).
Qed.

Lemma split_app (sep : N) (a b : jsstring) :
  split sep (a ++ sep :: b) = split sep a ++ split sep b.
Proof.
  induction a as [|c a IH]; simpl.
  - by rewrite N.eqb_refl.
  - destruct (c =? sep)%N; [by rewrite IH|].
    rewrite IH. pose proof (split_cons sep a) as Hne.
    by destruct (split sep a).
Qed.

Lemma split_whole (sep : N) (s : jsstring) :
  sep ∉ s -> split sep s = [s].
Proof.
  induction s as [|c s IH]; simpl; [done|].
  intros Hn. apply not_elem_of_cons in Hn as [Hc Hs].
  destruct (c =? sep)%N eqn:E; [apply N.eqb_eq in E; congruence|].
  by rewrite (IH Hs).
Qed.

(** *** [join] *)

Lemma join_nonEmpty (sep : jsstring) (parts : list jsstring) (p : jsstring) :
  p ∈ parts -> p <> [] -> join sep parts <> [].
Proof.
  induction parts as [|q parts IH]; [by intros H; inversion H|].
  intros Hin Hne. destruct parts as [|q' parts].
  - apply list_elem_of_singleton in Hin as ->. done.
  - change (join sep (q :: q' :: parts)) with (q ++ sep ++ join sep (q' :: parts)).
    apply elem_of_cons in Hin as [Heq|Hin].
    + intros E. apply app_eq_nil in E as [E _]. congruence.
    + specialize (IH Hin Hne). intros E.
      apply app_eq_nil in E as [_ E]. apply app_eq_nil in E as [_ E]. done.
Qed.

(** *** [startsWith] and [includes] *)

Lemma startsWith_app (p s : jsstring) : startsWith (p ++ s) p = true.
Proof.
  induction p as [|c p IH]; simpl; [by destruct s|].
  by rewrite N.eqb_refl.
Qed.

Lemma startsWith_nil (s : jsstring) : startsWith s [] = true.
Proof. by destruct s. Qed.

Lemma includes_start (s p : jsstring) :
  startsWith s p = true -> includes s p = true.
Proof. intros H. destruct s; cbn [includes]; by rewrite H. Qed.

Lemma includes_app (a p b : jsstring) : includes (a ++ p ++ b) p = true.
Proof.
  induction a as [|c a IH].
  - apply includes_start. exact (startsWith_app p b).
  - cbn [includes app]. rewrite IH. apply orb_true_r.
Qed.

Lemma startsWith_split (s p : jsstring) :
  startsWith s p = true -> exists t, s = p ++ t.
Proof.
  revert s. induction p as [|c p IH]; intros s; simpl.
  - intros _. by exists s.
  - destruct s as [|d s]; [done|].
    intros H. apply andb_true_iff in H as [Hc Hs]. apply N.eqb_eq in Hc as ->.
    destruct (IH s Hs) as (t & ->). by exists t.
Qed.

End JsTextFacts.

(** ** Session keys *)
Module SessionKeysFacts.

Import JsText SessionKeys JsFacts JsTextFacts.

#[local] Arguments lit : simpl never.
#[local] Arguments trim : simpl never.
#[local] Arguments join : simpl never.

(** A decidable statement without variables, settled by evaluation. *)
Ltac closed_fact := apply (bool_decide_unpack _); vm_compute; exact I.

Lemma isSlugChar_isIdChar c : isSlugChar c = true -> isIdChar c = true.
Proof.
  unfold isSlugChar, isIdChar, isIdStart.
  rewrite !orb_true_iff. intuition.
Qed.

Lemma isIdChar_range c :
  isIdChar c = true ->
  (48 <= c <= 57 \/ 65 <= c <= 90 \/ 97 <= c <= 122 \/ c = 95 \/ c = 45)%N.
Proof.
  unfold isIdChar, isIdStart, isLower, isUpper, isDigit, UNDERSCORE, DASH.
  rewrite !orb_true_iff, !andb_true_iff, !N.leb_le, !N.eqb_eq. lia.
Qed.

Lemma isIdChar_nowhite c : isIdChar c = true -> isWhite c = false.
Proof.
  intros H. apply isIdChar_range in H. apply not_true_is_false.
  unfold isWhite.
  rewrite !orb_true_iff, !andb_true_iff, !N.leb_le, !N.eqb_eq. lia.
Qed.

Lemma isIdChar_colon c : isIdChar c = true -> c <> COLON.
Proof. intros H. apply isIdChar_range in H. unfold COLON. lia. Qed.

Lemma pathSafe_trim s : pathSafe s -> trim s = s.
Proof.
  intros (_ & Hall & _). apply trim_nowhite, forallb_forall.
  intros c Hc. rewrite Forall_forall in Hall.
  apply list_elem_of_In in Hc. by rewrite (isIdChar_nowhite c (Hall c Hc)).
Qed.

Lemma pathSafe_colon s : pathSafe s -> COLON ∉ s.
Proof.
  intros (_ & Hall & _) Hin. rewrite Forall_forall in Hall.
  by apply (isIdChar_colon _ (Hall _ Hin)).
Qed.

Lemma pathSafe_nonEmpty s : pathSafe s -> nonEmpty s = true.
Proof. intros ((Hl & _) & _). destruct s; [simpl in Hl; lia|done]. Qed.

Lemma pathSafe_main : pathSafe (lit "main").
Proof.
  repeat split; try (vm_compute; lia).
  - by repeat constructor.
  - vm_compute. discriminate.
Qed.

Lemma pathSafe_default : pathSafe (lit "default").
Proof.
  repeat split; try (vm_compute; lia).
  - by repeat constructor.
  - vm_compute. discriminate.
Qed.

Lemma matchesId_safe s : matchesId s = true -> pathSafe s.
Proof.
  destruct s as [|c s]; [done|]. simpl.
  rewrite !andb_true_iff. intros [[Hc Hs] Hl]. apply Nat.leb_le in Hl.
  split; [simpl; lia|]. split.
  - constructor.
    + unfold isIdChar. by rewrite Hc.
    + apply Forall_forall. intros d Hd. rewrite forallb_forall in Hs.
      apply Hs. by apply list_elem_of_In.
  - simpl. intros [= ->]. by vm_compute in Hc.
Qed.

Lemma dashInvalid_slug inRun s :
  Forall (fun c => isSlugChar c = true) (dashInvalid inRun s).
Proof.
  revert inRun. induction s as [|c s IH]; intros inRun; simpl; [constructor|].
  destruct (isSlugChar c) eqn:E; [by constructor|].
  destruct inRun; [apply IH|]. constructor; [done|apply IH].
Qed.

Lemma stripTrailingDashes_prefix s :
  exists w, s = stripTrailingDashes s ++ w.
Proof.
  unfold stripTrailingDashes.
  destruct (dropWhile_suffix isDash (rev s)) as (w & E & _).
  exists (rev w). rewrite <- rev_app_distr, <- E. by rewrite rev_involutive.
Qed.

(** What is left of any text after the fall-back chain of replacements. *)
Lemma cleaned_safe (t fallback : jsstring) :
  pathSafe fallback ->
  pathSafe
    (orText (take 64 (stripTrailingDashes (stripLeadingDashes (dashInvalid false t))))
       fallback).
Proof.
  intros Hf. unfold orText.
  set (a := dashInvalid false t).
  set (b := stripLeadingDashes a).
  set (c := stripTrailingDashes b).
  destruct (nonEmpty (take 64 c)) eqn:Hne; [|done].
  assert (Forall (fun x => isSlugChar x = true) b) as Hb
    by (apply dropWhile_Forall, dashInvalid_slug).
  destruct (stripTrailingDashes_prefix b) as (w & Eb). fold c in Eb.
  assert (Forall (fun x => isSlugChar x = true) c) as Hc.
  { rewrite Eb in Hb. by apply Forall_app in Hb as [Hb _]. }
  split; [|split].
  - split; [|rewrite length_take; lia].
    destruct (take 64 c); [done|simpl; lia].
  - apply Forall_take. eapply Forall_impl; [exact Hc|].
    intros x. apply isSlugChar_isIdChar.
  - pose proof (dropWhile_stop isDash a) as Hstop. fold (stripLeadingDashes a) in Hstop.
    fold b in Hstop.
    destruct c as [|x c'] eqn:Ec; [done|].
    rewrite Eb in Hstop. simpl in Hstop. simpl.
    intros [= ->]. by vm_compute in Hstop.
Qed.

Section Keys.

Variable toLowerCase : jsstring -> jsstring.

Lemma normalizeAgentId_safe v : pathSafe (normalizeAgentId toLowerCase v).
Proof.
  unfold normalizeAgentId.
  destruct (nonEmpty (trim (default [] v))); simpl; [|apply pathSafe_main].
  destruct (matchesId (trim (default [] v))) eqn:E; [by apply matchesId_safe|].
  apply cleaned_safe, pathSafe_main.
Qed.

Lemma normalizeAccountId_safe v : pathSafe (normalizeAccountId toLowerCase v).
Proof.
  unfold normalizeAccountId.
  destruct (nonEmpty (trim (default [] v))); simpl; [|apply pathSafe_default].
  destruct (matchesId (trim (default [] v))) eqn:E; [by apply matchesId_safe|].
  apply cleaned_safe, pathSafe_default.
Qed.

Lemma normalizeAgentId_valid a :
  matchesId a = true -> normalizeAgentId toLowerCase (Some a) = a.
Proof.
  intros H. unfold normalizeAgentId. simpl.
  rewrite (pathSafe_trim a (matchesId_safe a H)).
  rewrite (pathSafe_nonEmpty a (matchesId_safe a H)). simpl. by rewrite H.
Qed.

Lemma normalizeMainKey_fixed v :
  nonEmpty (normalizeMainKey v) = true
  /\ trim (normalizeMainKey v) = normalizeMainKey v.
Proof.
  unfold normalizeMainKey.
  destruct (nonEmpty (trim (default [] v))) eqn:E.
  - split; [done|apply trim_idem].
  - split; reflexivity.
Qed.

(** X1. both identifier normalisers return a path-safe identifier,
    whatever they are given. *)
Theorem normalized_ids_are_path_safe (agent account : option jsstring) :
  pathSafe (normalizeAgentId toLowerCase agent)
  /\ pathSafe (normalizeAccountId toLowerCase account).
Proof. split; [apply normalizeAgentId_safe|apply normalizeAccountId_safe]. Qed.

(** X2. the main key is never blank and carries no white space around
    it; normalising it again changes nothing. *)
Theorem main_key_is_normal (value : option jsstring) :
  normalizeMainKey value <> []
  /\ trim (normalizeMainKey value) = normalizeMainKey value
  /\ normalizeMainKey (Some (normalizeMainKey value)) = normalizeMainKey value.
Proof.
  destruct (normalizeMainKey_fixed value) as [Hne Ht].
  split; [by destruct (normalizeMainKey value)|]. split; [done|].
  unfold normalizeMainKey at 1. simpl. by rewrite Ht, Hne.
Qed.

Lemma nonEmpty_true (s : jsstring) : nonEmpty s = true <-> s <> [].
Proof. by destruct s. Qed.

(** The pieces of a key that starts with [agent:] and an identifier. *)
Lemma split_agent_key (a t : jsstring) :
  COLON ∉ a ->
  split COLON (lit "agent:" ++ a ++ lit ":" ++ t)
  = lit "agent" :: a :: split COLON t.
Proof.
  intros Ha.
  change (lit "agent:" ++ a ++ lit ":" ++ t)
    with (lit "agent" ++ COLON :: (a ++ COLON :: t)).
  rewrite split_app, split_app, (split_whole COLON a Ha).
  by rewrite split_whole by closed_fact.
Qed.

Lemma trim_agent_key (a t : jsstring) :
  trim (lit "agent:" ++ a ++ t) = lit "agent:" ++ trimEnd (a ++ t).
Proof.
  rewrite (trim_app (lit "agent:") (a ++ t)); [done|done|reflexivity].
Qed.

(** X3. a main session key is parsed back into the identifier and the
    main key it was built from. *)
Theorem main_session_key_round_trip (agent : jsstring) (mainKey : option jsstring) :
  COLON ∉ normalizeMainKey mainKey ->
  parseAgentSessionKey (Some (buildAgentMainSessionKey toLowerCase agent mainKey))
  = Some {| agentId := normalizeAgentId toLowerCase (Some agent);
            rest := normalizeMainKey mainKey |}.
Proof.
  intros Hcolon.
  pose proof (normalizeAgentId_safe (Some agent)) as Hsafe.
  destruct (normalizeMainKey_fixed mainKey) as [Hne Ht].
  set (A := normalizeAgentId toLowerCase (Some agent)) in *.
  set (M := normalizeMainKey mainKey) in *.
  unfold parseAgentSessionKey, buildAgentMainSessionKey. fold A M. cbn [from_option id].
  assert (trim (lit "agent:" ++ A ++ lit ":" ++ M) = lit "agent:" ++ A ++ lit ":" ++ M)
    as ->.
  { rewrite trim_agent_key. f_equal.
    rewrite !app_assoc, trimEnd_app.
    apply trim_fixed in Ht as [_ Ht].
    rewrite (trimEnd_nonwhite M); [|by apply nonEmpty_true|done]. by rewrite Ht. }
  rewrite split_agent_key by (by apply pathSafe_colon).
  rewrite (split_whole COLON M Hcolon).
  cbn [List.filter]. change (nonEmpty (lit "agent")) with true. cbv iota.
  rewrite (pathSafe_nonEmpty A Hsafe), Hne. cbn [length Nat.ltb Nat.leb].
  cbn [lookup list_lookup fmap option_fmap option_map drop skipn].
  rewrite bool_decide_eq_true_2 by done. cbn [negb].
  rewrite (pathSafe_trim A Hsafe).
  change (join (lit ":") [M]) with M.
  unfold truthy. pose proof (pathSafe_nonEmpty A Hsafe) as HA.
  destruct A as [|x A']; [done|]. rewrite Hne. done.
Qed.

(** X4. the agent identifier of a key built for a group or channel peer
    is the identifier the key was built with. *)
Theorem peer_session_key_names_its_agent (agent : jsstring)
    (mainKey provider : option jsstring) (peerKind : PeerKind)
    (peerId : option jsstring) :
  matchesId agent = true ->
  peerKind <> Dm ->
  resolveAgentIdFromSessionKey toLowerCase
    (Some (buildAgentPeerSessionKey toLowerCase agent mainKey provider
             (Some peerKind) peerId))
  = agent.
Proof.
  intros Hid Hkind.
  pose proof (matchesId_safe agent Hid) as Hsafe.
  unfold resolveAgentIdFromSessionKey, buildAgentPeerSessionKey. cbn [from_option id].
  rewrite bool_decide_eq_false_2 by done.
  rewrite (normalizeAgentId_valid agent Hid).
  set (P := orText (toLowerCase (trim (default [] provider))) (lit "unknown")).
  set (I := orText (trim (default [] peerId)) (lit "unknown")).
  assert (nonEmpty I = true /\ trimEnd I = I) as [HIne HIt].
  { unfold I, orText. destruct (nonEmpty (trim (default [] peerId))) eqn:E.
    - split; [done|]. by apply trim_fixed, trim_idem.
    - split; reflexivity. }
  assert (nonEmpty (peerKindText peerKind) = true /\ COLON ∉ peerKindText peerKind)
    as [HKne HKc].
  { destruct peerKind; split; try done; closed_fact. }
  set (K := peerKindText peerKind) in *.
  unfold parseAgentSessionKey. cbn [from_option id].
  assert (trim (lit "agent:" ++ agent ++ lit ":" ++ P ++ lit ":" ++ K ++ lit ":" ++ I)
          = lit "agent:" ++ agent ++ lit ":" ++ P ++ lit ":" ++ K ++ lit ":" ++ I) as ->.
  { rewrite trim_agent_key. f_equal.
    replace (agent ++ lit ":" ++ P ++ lit ":" ++ K ++ lit ":" ++ I)
      with ((agent ++ lit ":" ++ P ++ lit ":" ++ K ++ lit ":") ++ I)
      by (by rewrite <- !app_assoc).
    rewrite trimEnd_app, (trimEnd_nonwhite I); [|by apply nonEmpty_true|done].
    by rewrite HIt. }
  rewrite split_agent_key by (by apply pathSafe_colon).
  change (P ++ lit ":" ++ K ++ lit ":" ++ I) with (P ++ COLON :: (K ++ COLON :: I)).
  rewrite split_app, split_app, (split_whole COLON K HKc).
  cbn [List.filter]. change (nonEmpty (lit "agent")) with true. cbv iota.
  rewrite (pathSafe_nonEmpty agent Hsafe).
  rewrite !List.filter_app. cbn [List.filter]. rewrite HKne.
  set (ps := List.filter nonEmpty (split COLON P)).
  set (qs := List.filter nonEmpty (split COLON I)).
  assert ((length (lit "agent" :: agent :: ps ++ [K] ++ qs) <? 3)%nat = false) as ->.
  { apply Nat.ltb_ge. simpl. rewrite length_app. simpl. lia. }
  cbn [lookup list_lookup fmap option_fmap option_map drop skipn].
  rewrite bool_decide_eq_true_2 by done. cbn [negb].
  rewrite (pathSafe_trim agent Hsafe), ?drop_0.
  assert (nonEmpty (join (lit ":") (ps ++ [K] ++ qs)) = true) as ->.
  { apply nonEmpty_true, (join_nonEmpty _ _ K); [set_solver|by apply nonEmpty_true]. }
  assert (nonEmpty (lit "agent:" ++ agent ++ lit ":" ++ P ++ COLON :: K ++ COLON :: I)
          = true) as -> by done.
  assert (truthy (Some agent) = true) as ->.
  { pose proof (pathSafe_nonEmpty agent Hsafe). by destruct agent. }
  cbn [negb orb from_option agentId id].
  apply (normalizeAgentId_valid _ Hid).
Qed.

End Keys.

Lemma main_session_key_round_trip_witness :
  parseAgentSessionKey
    (Some (buildAgentMainSessionKey lowerAscii (lit "Ops Team") (Some (lit " home "))))
  = Some {| agentId := lit "ops-team"; rest := lit "home" |}.
Proof.
  apply (main_session_key_round_trip lowerAscii (lit "Ops Team") (Some (lit " home "))).
  closed_fact.
Defined.

Lemma peer_session_key_names_its_agent_witness :
  resolveAgentIdFromSessionKey lowerAscii
    (Some (buildAgentPeerSessionKey lowerAscii (lit "ops") None (Some (lit "Slack"))
             (Some Channel) (Some (lit "C1:general"))))
  = lit "ops".
Proof.
  apply (peer_session_key_names_its_agent lowerAscii (lit "ops") None
           (Some (lit "Slack")) Channel (Some (lit "C1:general"))).
  - reflexivity.
  - discriminate.
Defined.

End SessionKeysFacts.

(** ** Session keys of inbound messages *)
Module InboundKeysFacts.

Import JsText SessionKeys InboundKeys JsFacts JsTextFacts SessionKeysFacts.

#[local] Arguments lit : simpl never.
#[local] Arguments trim : simpl never.
#[local] Arguments join : simpl never.
#[local] Arguments includes : simpl never.
#[local] Arguments startsWith : simpl never.

Section Resolve.

Variable toLowerCase : jsstring -> jsstring.
Variable normalizeE164 : jsstring -> jsstring.

(** The key of a group resolution passes the group test of
    [resolveSessionKey]. *)
Lemma group_key_looks_like_one ctx g :
  resolveGroupSessionKey toLowerCase ctx = Some g -> looksLikeGroupKey (key g) = true.
Proof.
  unfold resolveGroupSessionKey. cbv zeta.
  set (from := trim (default [] (From ctx))).
  destruct (negb (nonEmpty from)); [done|].
  match goal with |- context [if negb ?b then None else _] => destruct (negb b) end;
    [done|].
  set (raw := trim (if startsWith from (lit "group:") then _ else from)).
  match goal with |- context [p_provider ?s] => set (st := s) end.
  match goal with |- context [truthy ?p] => set (resolved := p) end.
  destruct (negb (truthy resolved)).
  - intros H. apply (inj Some) in H. rewrite <- H. cbn [key].
    unfold looksLikeGroupKey. by rewrite startsWith_app.
  - intros H. apply (inj Some) in H. rewrite <- H. cbn [key].
    unfold looksLikeGroupKey.
    set (P := default [] resolved).
    set (ident := orText (p_id st) (orText raw from)).
    destruct (bool_decide (p_kind st = Some KindChannel)).
    + change (P ++ lit ":" ++ lit "channel" ++ lit ":" ++ ident)
        with (P ++ lit ":channel:" ++ ident).
      rewrite (includes_app P (lit ":channel:") ident). by rewrite !orb_true_r.
    + change (P ++ lit ":" ++ lit "group" ++ lit ":" ++ ident)
        with (P ++ lit ":group:" ++ ident).
      rewrite (includes_app P (lit ":group:") ident). by rewrite !orb_true_r.
Qed.

Lemma agent_of_main_prefixed (t : jsstring) :
  resolveAgentIdFromSessionKey toLowerCase (Some (lit "agent:main:" ++ t))
  = lit "main".
Proof.
  assert (normalizeAgentId toLowerCase (Some (lit "main")) = lit "main") as Hmain
    by (by apply normalizeAgentId_valid).
  unfold resolveAgentIdFromSessionKey, parseAgentSessionKey.
  cbn [from_option Datatypes.id].
  assert (trim (lit "agent:main:" ++ t) = lit "agent:main:" ++ trimEnd t) as ->
    by (by apply trim_app).
  set (u := trimEnd t).
  change (lit "agent:main:" ++ u) with (lit "agent:" ++ lit "main" ++ lit ":" ++ u).
  rewrite split_agent_key by closed_fact.
  change (nonEmpty (lit "agent:" ++ lit "main" ++ lit ":" ++ u)) with true.
  cbn [negb List.filter]. change (nonEmpty (lit "agent")) with true.
  change (nonEmpty (lit "main")) with true. cbv iota.
  destruct (List.filter nonEmpty (split COLON u)) as [|p ps]; [exact Hmain|].
  cbn [length Nat.ltb Nat.leb lookup list_lookup fmap option_fmap option_map].
  rewrite bool_decide_eq_true_2 by done.
  change (trim (lit "main")) with (lit "main").
  change (truthy (Some (lit "main"))) with true. cbn [negb orb].
  destruct (negb (nonEmpty _)); exact Hmain.
Qed.

(** The session key of a group message, and that its group key passes
    the group test. *)
Lemma group_session_key ctx mainKey g :
  truthy (trim <$> SessionKey ctx) = false ->
  resolveGroupSessionKey toLowerCase ctx = Some g ->
  resolveSessionKey toLowerCase normalizeE164 PerSender ctx mainKey
  = lit "agent:main:" ++ key g
  /\ looksLikeGroupKey (key g) = true.
Proof.
  intros He Hr. pose proof (group_key_looks_like_one ctx g Hr) as Hl.
  split; [|done]. unfold resolveSessionKey, deriveSessionKey.
  rewrite He, Hr. rewrite !bool_decide_eq_false_2 by done. by rewrite Hl.
Qed.

(** X5. without an explicit session key and under the per-sender scope,
    a group message gets the key of its group under the default agent,
    whatever the main key is; two group messages share a session exactly
    when they resolve to the same group key. *)
Theorem group_messages_keep_their_own_session (ctx : MsgContext)
    (mainKey : option jsstring) (g : GroupKeyResolution) :
  truthy (trim <$> SessionKey ctx) = false ->
  resolveGroupSessionKey toLowerCase ctx = Some g ->
  resolveSessionKey toLowerCase normalizeE164 PerSender ctx mainKey
  = lit "agent:main:" ++ key g
  /\ forall ctx' mainKey' g',
       truthy (trim <$> SessionKey ctx') = false ->
       resolveGroupSessionKey toLowerCase ctx' = Some g' ->
       (resolveSessionKey toLowerCase normalizeE164 PerSender ctx mainKey
        = resolveSessionKey toLowerCase normalizeE164 PerSender ctx' mainKey'
        <-> key g = key g').
Proof.
  assert (forall c m r,
    truthy (trim <$> SessionKey c) = false ->
    resolveGroupSessionKey toLowerCase c = Some r ->
    resolveSessionKey toLowerCase normalizeE164 PerSender c m
    = lit "agent:main:" ++ key r) as Hone.
  { intros c m r He Hr.
    by destruct (group_session_key c m r He Hr). }
  intros He Hg. split; [by apply Hone|].
  intros ctx' mainKey' g' He' Hg'.
  rewrite (Hone ctx mainKey g He Hg), (Hone ctx' mainKey' g' He' Hg').
  split; [by intros H%app_inv_head|by intros ->].
Qed.

(** X6. a session key derived from a message under the per-sender scope
    belongs to the default agent. *)
Theorem derived_keys_belong_to_default_agent (ctx : MsgContext)
    (mainKey : option jsstring) :
  truthy (trim <$> SessionKey ctx) = false ->
  resolveAgentIdFromSessionKey toLowerCase
    (Some (resolveSessionKey toLowerCase normalizeE164 PerSender ctx mainKey))
  = DEFAULT_AGENT_ID.
Proof.
  intros He. unfold resolveSessionKey. rewrite He.
  rewrite bool_decide_eq_false_2 by done.
  destruct (negb (looksLikeGroupKey _)).
  - unfold buildAgentMainSessionKey.
    rewrite (normalizeAgentId_valid toLowerCase DEFAULT_AGENT_ID) by done.
    apply (agent_of_main_prefixed (normalizeMainKey _)).
  - apply (agent_of_main_prefixed _).
Qed.

End Resolve.

Lemma group_messages_keep_their_own_session_witness :
  resolveSessionKey lowerAscii MoreSamples.plainNumber PerSender
    MoreSamples.whatsappGroup (Some (lit "work"))
  = lit "agent:main:whatsapp:group:120363@g.us".
Proof.
  refine (proj1 (group_messages_keep_their_own_session lowerAscii
                   MoreSamples.plainNumber MoreSamples.whatsappGroup
                   (Some (lit "work"))
                   {| key := lit "whatsapp:group:120363@g.us";
                      legacyKey := Some (lit "group:120363@g.us");
                      provider := Some (lit "whatsapp");
                      id := Some (lit "120363@g.us");
                      chatType := Some GroupChat |} _ _)).
  - reflexivity.
  - vm_compute. reflexivity.
Defined.

Lemma derived_keys_belong_to_default_agent_witness :
  resolveAgentIdFromSessionKey lowerAscii
    (Some (resolveSessionKey lowerAscii MoreSamples.plainNumber PerSender
             MoreSamples.directMessage (Some (lit "a:b"))))
  = lit "main".
Proof.
  apply (derived_keys_belong_to_default_agent lowerAscii MoreSamples.plainNumber
           MoreSamples.directMessage (Some (lit "a:b"))).
  reflexivity.
Defined.

End InboundKeysFacts.

(** ** Queue settings *)
Module QueueConfigFacts.

Import JsText FollowupQueue QueueConfig.

Section Resolve.

Variable toLowerCase : jsstring -> jsstring.

Lemma normalizeQueueMode_not_legacy raw :
  normalizeQueueMode toLowerCase raw <> Some QueueLegacy.
Proof.
  unfold normalizeQueueMode.
  repeat match goal with
         | |- (if ?b then _ else _) <> _ => destruct b; [done|]
         end.
  done.
Qed.

(** X7. the settings resolved for a message always carry a debounce
    time of at least 0, a cap of at least 1 and a drop policy, and
    [getFollowupQueue] takes all four over as they are, for a new queue
    as for an existing one. Inline values come first, and unless the mode
    is given inline it is never the legacy mode. *)
Theorem resolved_settings_are_applied (params : ResolveParams)
    (existing : option FollowupQueueState) :
  let settings := resolveQueueSettings toLowerCase params in
  let queue := applySettings existing settings in
  mode queue = s_mode settings
  /\ (exists d, s_debounceMs settings = Some d /\ 0 <= d /\ debounceMs queue = d)
  /\ (exists c, s_cap settings = Some c /\ 1 <= c /\ cap queue = c)
  /\ (exists p, s_dropPolicy settings = Some p /\ dropPolicy queue = p)
  /\ (forall m, inlineMode params = Some m -> s_mode settings = m)
  /\ (forall o c, inlineOptions params = Some o -> o_cap o = Some c ->
        cap queue = Z.max 1 c)
  /\ (forall o d, inlineOptions params = Some o -> o_debounceMs o = Some d ->
        debounceMs queue = Z.max 0 d)
  /\ (inlineMode params = None -> s_mode settings <> QueueLegacy).
Proof.
  intros settings queue.
  assert (mode queue = s_mode settings) as Hm by (by destruct existing).
  assert (forall d, s_debounceMs settings = Some d -> 0 <= d -> debounceMs queue = d)
    as Hd.
  { intros d E Hd0. unfold queue, applySettings. rewrite E.
    destruct existing; simpl; lia. }
  assert (forall c, s_cap settings = Some c -> 1 <= c -> cap queue = c) as Hc.
  { intros c E Hc1. unfold queue, applySettings. rewrite E.
    assert ((0 <? c) = true) as -> by (apply Z.ltb_lt; lia).
    by destruct existing. }
  assert (forall p, s_dropPolicy settings = Some p -> dropPolicy queue = p) as Hp.
  { intros p E. unfold queue, applySettings. rewrite E. by destruct existing. }
  split; [done|]. split.
  { eexists. split; [reflexivity|]. split; [lia|]. apply Hd; [done|lia]. }
  split.
  { eexists. split; [reflexivity|]. split; [lia|]. apply Hc; [done|lia]. }
  split.
  { eexists. split; [reflexivity|]. by apply Hp. }
  split.
  { intros m E. unfold settings, resolveQueueSettings. cbn [s_mode]. by rewrite E. }
  split.
  { intros o c Eo Ec. rewrite (Hc (Z.max 1 c)); [done| |lia].
    unfold settings, resolveQueueSettings. cbn [s_cap]. rewrite Eo. simpl.
    by rewrite Ec. }
  split.
  { intros o d Eo Ed. rewrite (Hd (Z.max 0 d)); [done| |lia].
    unfold settings, resolveQueueSettings. cbn [s_debounceMs]. rewrite Eo. simpl.
    by rewrite Ed. }
  intros E. unfold settings, resolveQueueSettings. cbn [s_mode]. rewrite E.
  unfold nullish.
  repeat match goal with
         | |- context [normalizeQueueMode toLowerCase ?r] =>
             let H := fresh "H" in
             pose proof (normalizeQueueMode_not_legacy r) as H;
             destruct (normalizeQueueMode toLowerCase r); [simpl; congruence|]
         end.
  done.
Qed.

End Resolve.

Lemma resolved_settings_are_applied_witness :
  cap (applySettings None (resolveQueueSettings lowerAscii MoreSamples.inlineCapZero))
  = 1.
Proof.
  pose proof (resolved_settings_are_applied lowerAscii MoreSamples.inlineCapZero None)
    as H.
  cbv zeta in H. destruct H as (_ & _ & _ & _ & _ & Hcap & _).
  apply (Hcap {| o_debounceMs := None; o_cap := Some 0; o_dropPolicy := None |} 0);
    reflexivity.
Defined.

End QueueConfigFacts.

(** ** Where an [agent] run delivers *)
Module AgentDeliveryFacts.

Import JsText AgentDelivery.

Section Delivery.

Variable normalizeE164 : jsstring -> jsstring.

Lemma lastOrWhatsapp_not_webchat r : lastOrWhatsapp r <> lit "webchat".
Proof.
  unfold lastOrWhatsapp. destruct (sessionLastProvider r) as [p|]; [|done].
  destruct (nonEmpty p); simpl; [|done].
  case_bool_decide; simpl; done.
Qed.

(** X8. a run is routed to webchat only when the request names webchat,
    and it never delivers there. *)
Theorem webchat_only_on_request (r : DeliveryRequest) :
  (resolvedProvider r = lit "webchat" <-> requestedProvider r = lit "webchat")
  /\ (deliver r = true ->
      requestDeliver r = Some true /\ requestedProvider r <> lit "webchat").
Proof.
  assert (resolvedProvider r = lit "webchat" <-> requestedProvider r = lit "webchat")
    as Hiff.
  { unfold resolvedProvider. split.
    - repeat case_bool_decide; try done.
      + intros Hl. by apply lastOrWhatsapp_not_webchat in Hl.
      + intros Hl. by apply lastOrWhatsapp_not_webchat in Hl.
    - intros E. rewrite E.
      rewrite bool_decide_eq_false_2 by done.
      by rewrite bool_decide_eq_true_2 by (unfold DELIVERABLE; set_solver). }
  split; [done|].
  unfold deliver. rewrite andb_true_iff, negb_true_iff.
  rewrite bool_decide_eq_true, bool_decide_eq_false. intros [Hd Hw].
  split; [done|]. by rewrite <- Hiff.
Qed.

(** X9. a recipient given with the request is used as it is (trimmed).
    Without one, a run routed to WhatsApp under an allow list without [*]
    goes to a number of that list, as [normalizeE164] returns it, when at
    least one entry of the list normalizes to more than one unit; when
    none does, as for an empty list, the recipient taken from the session
    is used unchecked. *)
Theorem recipient_is_explicit_or_allowed (r : DeliveryRequest) :
  (forall explicit, explicitTo r = Some explicit ->
     sanitizedTo normalizeE164 r = Some explicit)
  /\ (explicitTo r = None ->
      resolvedProvider r = lit "whatsapp" ->
      lit "*" ∉ default [] (whatsappAllowFrom r) ->
      let allowed :=
        List.filter (fun val => (1 <? length val)%nat)
          (List.map normalizeE164 (default [] (whatsappAllowFrom r))) in
      (allowed <> [] ->
       exists t, sanitizedTo normalizeE164 r = Some t /\ t ∈ allowed)
      /\ (allowed = [] -> sanitizedTo normalizeE164 r = resolvedTo r)).
Proof.
  split.
  - intros explicit E. unfold sanitizedTo, resolvedTo. rewrite E.
    destruct (negb _); [done|].
    by rewrite bool_decide_eq_true_2 by done.
  - intros E Hw Hstar allowed.
    assert (sanitizedTo normalizeE164 r
            = if bool_decide (length allowed = 0%nat) then resolvedTo r
              else match (match resolvedTo r with
                          | Some t =>
                              if nonEmpty (trim t) then Some (normalizeE164 t)
                              else None
                          | None => None
                          end) with
                   | Some n =>
                       if nonEmpty n && bool_decide (n ∈ allowed) then Some n
                       else head allowed
                   | None => head allowed
                   end) as ->.
    { unfold sanitizedTo. rewrite E, Hw.
      rewrite bool_decide_eq_true_2 by done. cbn [negb].
      rewrite (bool_decide_eq_false_2 (is_Some None)) by (by intros [? ?]).
      by rewrite bool_decide_eq_false_2 by done. }
    split.
    + intros Hne. rewrite bool_decide_eq_false_2 by (by destruct allowed).
      assert (exists t, head allowed = Some t /\ t ∈ allowed) as (t0 & Ht0 & Hin0).
      { destruct allowed as [|t0 rest]; [done|]. exists t0. split; [done|by left]. }
      destruct (match resolvedTo r with Some t => _ | None => None end) as [n|].
      * destruct (nonEmpty n); simpl; [|by exists t0].
        case_bool_decide; [by exists n|by exists t0].
      * by exists t0.
    + intros ->. done.
Qed.

End Delivery.

Lemma webchat_only_on_request_witness :
  requestDeliver MoreSamples.staleRecipient = Some true
  /\ requestedProvider MoreSamples.staleRecipient <> lit "webchat".
Proof.
  apply (proj2 (webchat_only_on_request MoreSamples.staleRecipient)).
  reflexivity.
Defined.

Lemma recipient_is_explicit_or_allowed_witness :
  exists t,
    sanitizedTo MoreSamples.plainNumber MoreSamples.staleRecipient = Some t
    /\ t ∈ [lit "+491701234567"].
Proof.
  refine (proj1 (proj2 (recipient_is_explicit_or_allowed MoreSamples.plainNumber
                          MoreSamples.staleRecipient) eq_refl eq_refl _) _).
  - apply (bool_decide_unpack _). vm_compute. exact I.
  - discriminate.
Defined.

End AgentDeliveryFacts.

(** ** The reply of a heartbeat run and the reset triggers *)
Module ReplySelectionFacts.

Import JsText SessionLifecycle ReplySelection.

Lemma scanBackwards_spec remaining :
  match scanBackwards remaining with
  | Some p =>
      exists nearer further,
        remaining = nearer ++ Some p :: further
        /\ hasContent p = true /\ allEmpty nearer
  | None => allEmpty remaining
  end.
Proof.
  induction remaining as [|o remaining IH]; simpl; [constructor|].
  destruct o as [q|].
  - destruct (hasContent q) eqn:Hq.
    + exists [], remaining. repeat split; [done|constructor].
    + destruct (scanBackwards remaining) as [p|].
      * destruct IH as (nearer & further & -> & Hp & Hn).
        exists (Some q :: nearer), further. repeat split; [done|].
        constructor; [by intros ? [= <-]|done].
      * constructor; [by intros ? [= <-]|done].
  - destruct (scanBackwards remaining) as [p|].
    + destruct IH as (nearer & further & -> & Hp & Hn).
      exists (None :: nearer), further. repeat split; [done|].
      constructor; [done|done].
    + constructor; [done|done].
Qed.

(** X10. out of an array of payloads the heartbeat takes the last one
    that carries text or media, and none if no element does; a single
    payload is taken as it is. *)
Theorem heartbeat_takes_last_payload_with_content (ps : list (option ReplyPayload)) :
  match resolveHeartbeatReplyPayload (ManyReplies ps) with
  | Some p =>
      exists before after,
        ps = before ++ Some p :: after
        /\ hasContent p = true /\ allEmpty after
  | None => allEmpty ps
  end.
Proof.
  unfold resolveHeartbeatReplyPayload.
  pose proof (scanBackwards_spec (rev ps)) as H.
  destruct (scanBackwards (rev ps)) as [p|].
  - destruct H as (nearer & further & E & Hp & Hn).
    exists (rev further), (rev nearer). repeat split; [|done|].
    + rewrite <- (rev_involutive ps), E, rev_app_distr. simpl.
      by rewrite <- app_assoc.
    + unfold allEmpty in *. rewrite Forall_forall in *. intros o Ho.
      apply Hn. apply list_elem_of_In. apply list_elem_of_In in Ho.
      by apply in_rev.
  - unfold allEmpty in *. rewrite Forall_forall in *. intros o Ho.
    apply H. apply list_elem_of_In. apply list_elem_of_In in Ho.
    by apply in_rev in Ho.
Qed.

(** X11. the reset-trigger loop starts a new session exactly when the
    sender is authorized and some trigger that is not empty fits the
    message; it sets the stripped body exactly then. *)
Theorem reset_needs_authorized_sender_and_trigger (resetTriggers : list jsstring)
    (resetAuthorized : bool) (trimmedBody strippedForReset : jsstring) :
  let result :=
    scanResetTriggers resetTriggers resetAuthorized trimmedBody strippedForReset in
  (fst result = true <->
   resetAuthorized = true
   /\ exists t, t ∈ resetTriggers /\ t <> []
                /\ fits trimmedBody strippedForReset t)
  /\ (is_Some (snd result) <-> fst result = true).
Proof.
  induction resetTriggers as [|t rest [IH1 IH2]]; simpl.
  - split; [|split; [by intros [? ?]|done]].
    split; [done|]. intros (_ & t & Ht & _). by inversion Ht.
  - destruct (JsText.nonEmpty t) eqn:Hne; simpl.
    + destruct resetAuthorized; simpl.
      * destruct (bool_decide (trimmedBody = t) || bool_decide (strippedForReset = t))
          eqn:Heq; simpl.
        { split; [|split; [done|by eexists]].
          split; [|done]. intros _. split; [done|]. exists t.
          split; [by left|]. split; [by destruct t|].
          apply orb_true_iff in Heq as [H|H]; apply bool_decide_eq_true in H;
            unfold fits; tauto. }
        destruct (startsWith trimmedBody (t ++ lit " ")
                  || startsWith strippedForReset (t ++ lit " ")) eqn:Hpre; simpl.
        { split; [|split; [done|by eexists]].
          split; [|done]. intros _. split; [done|]. exists t.
          split; [by left|]. split; [by destruct t|].
          apply orb_true_iff in Hpre. unfold fits. tauto. }
        split; [|exact IH2]. rewrite IH1. split.
        { intros (Ha & t' & Hin & Hne' & Hf). split; [done|].
          exists t'. split; [by right|done]. }
        intros (Ha & t' & Hin & Hne' & Hf). split; [done|].
        apply elem_of_cons in Hin as [->|Hin]; [|by exists t'].
        exfalso. apply orb_false_iff in Heq as [H1 H2].
        apply bool_decide_eq_false in H1, H2.
        apply orb_false_iff in Hpre as [H3 H4].
        unfold fits in Hf. destruct Hf as [?|[?|[?|?]]]; congruence.
      * split; [|split; [by intros [? ?]|done]].
        split; [done|]. by intros (? & _).
    + split; [|exact IH2]. rewrite IH1. split.
      * intros (Ha & t' & Hin & Hne' & Hf). split; [done|].
        exists t'. split; [by right|done].
      * intros (Ha & t' & Hin & Hne' & Hf). split; [done|].
        apply elem_of_cons in Hin as [->|Hin]; [by destruct t|by exists t'].
Qed.

End ReplySelectionFacts.

(** ** Helpers of the gateway session methods *)
Module SessionUtilsFacts.

Import JsText SessionKeys SessionUtils JsTextFacts.

Section Cap.

Context {T : Type}.
Variable jsonUtf8Bytes : T -> Z.

Lemma released_snoc parts p : released (parts ++ [p]) = released parts + (p + 1).
Proof. induction parts as [|q parts IH]; simpl; [lia|]. rewrite IH. lia. Qed.

Lemma dropOldest_step part part' rest' bytes start maxBytes :
  dropOldest (part :: part' :: rest') bytes start maxBytes
  = if maxBytes <? bytes
    then dropOldest (part' :: rest') (bytes - (part + 1)) (S start) maxBytes
    else (bytes, start).
Proof. reflexivity. Qed.

Lemma dropOldest_spec (rest : list Z) (bytes : Z) (start : nat) (maxBytes : Z) :
  rest <> [] ->
  exists n,
    dropOldest rest bytes start maxBytes
    = (bytes - released (take n rest), (start + n)%nat)
    /\ (n < length rest)%nat
    /\ (bytes - released (take n rest) <= maxBytes \/ S n = length rest)
    /\ (forall k, (k < n)%nat -> maxBytes < bytes - released (take k rest)).
Proof.
  revert bytes start. induction rest as [|part rest IH]; intros bytes start Hne;
    [done|].
  destruct rest as [|part' rest'].
  - exists 0%nat. simpl. rewrite Nat.add_0_r, Z.sub_0_r.
    repeat split; [lia|by right|lia].
  - rewrite dropOldest_step. destruct (maxBytes <? bytes) eqn:Hgt.
    + destruct (IH (bytes - (part + 1)) (S start)) as (n & E & Hn & Hfit & Hmin);
        [done|].
      exists (S n). rewrite E. cbn [take released foldr].
      split; [f_equal; [unfold released; lia|lia]|].
      split; [simpl in *; lia|].
      split.
      { destruct Hfit as [Hfit|Hfit]; [left|right; simpl in *; lia].
        unfold released in *. lia. }
      intros k Hk. destruct k as [|k].
      * simpl. apply Z.ltb_lt in Hgt. lia.
      * specialize (Hmin k ltac:(lia)). cbn [take foldr]. unfold released in *.
        cbn [foldr]. lia.
    + exists 0%nat. simpl. rewrite Nat.add_0_r, Z.sub_0_r.
      apply Z.ltb_ge in Hgt. repeat split; [lia|by left|lia].
Qed.

Lemma fold_left_add (l : list Z) (a : Z) :
  fold_left Z.add l a = a + foldr Z.add 0 l.
Proof.
  revert a. induction l as [|x l IH]; intros a; simpl; [lia|].
  rewrite IH. lia.
Qed.

Lemma arrayBytes_drop (items : list T) (n : nat) :
  (n < length items)%nat ->
  arrayBytes jsonUtf8Bytes (drop n items)
  = arrayBytes jsonUtf8Bytes items
    - released (take n (List.map jsonUtf8Bytes items)).
Proof.
  revert n. induction items as [|x items IH]; intros n Hn; [simpl in Hn; lia|].
  destruct n as [|n]; [simpl; unfold arrayBytes; simpl; lia|].
  simpl in Hn. cbn [drop skipn List.map take released foldr].
  rewrite IH by lia. unfold arrayBytes, released. cbn [List.map foldr length].
  lia.
Qed.

(** X12. [capArrayByJsonBytes] drops items from the front only and never
    all of them; the byte count it returns is the one of the items kept;
    the items kept fit into [maxBytes] unless only one is left; and no
    longer tail of the array would have fitted. *)
Theorem cap_keeps_longest_tail_that_fits (items : list T) (maxBytes : Z) :
  items <> [] ->
  exists dropped kept,
    capArrayByJsonBytes jsonUtf8Bytes items maxBytes
    = (kept, arrayBytes jsonUtf8Bytes kept)
    /\ items = dropped ++ kept
    /\ kept <> []
    /\ (arrayBytes jsonUtf8Bytes kept <= maxBytes \/ length kept = 1%nat)
    /\ (forall k, (k < length dropped)%nat ->
          maxBytes < arrayBytes jsonUtf8Bytes (drop k items)).
Proof.
  intros Hne. unfold capArrayByJsonBytes.
  destruct items as [|x items'] eqn:Ei; [done|]. rewrite <- Ei in *.
  set (parts := List.map jsonUtf8Bytes items).
  assert (2 + fold_left Z.add parts 0 + (Z.of_nat (length items) - 1)
          = arrayBytes jsonUtf8Bytes items) as ->.
  { unfold arrayBytes. rewrite fold_left_add. fold parts. lia. }
  destruct (dropOldest_spec parts (arrayBytes jsonUtf8Bytes items) 0 maxBytes)
    as (n & E & Hn & Hfit & Hmin).
  { unfold parts. rewrite Ei. done. }
  rewrite E. cbn [Nat.add].
  assert (length parts = length items) as Hlen by (unfold parts; apply length_map).
  rewrite Hlen in *. subst parts.
  rewrite <- (arrayBytes_drop items n) in * by lia.
  exists (take n items), (drop n items).
  assert ((if (0 <? n)%nat then drop n items else items) = drop n items) as ->.
  { destruct n; [done|]. done. }
  split; [done|]. split; [by rewrite take_drop|].
  split.
  { intros Hd. apply (f_equal length) in Hd. rewrite length_drop in Hd.
    simpl in Hd. lia. }
  split.
  { destruct Hfit as [Hfit|Hfit]; [by left|right]. rewrite length_drop. lia. }
  intros k Hk. rewrite length_take in Hk.
  rewrite (arrayBytes_drop items k) by lia. apply Hmin. lia.
Qed.

End Cap.

Section Canonical.

Variable toLowerCase : jsstring -> jsstring.

(** X13. a canonical key is [global], [unknown] or starts with [agent:],
    and making it canonical again, for any agent, changes nothing. *)
Theorem canonical_keys_are_stable (agentId agentId' key : jsstring) :
  let canonical := canonicalizeSessionKeyForAgent toLowerCase agentId key in
  (canonical = lit "global" \/ canonical = lit "unknown"
   \/ startsWith canonical (lit "agent:") = true)
  /\ canonicalizeSessionKeyForAgent toLowerCase agentId' canonical = canonical.
Proof.
  intros canonical.
  assert (canonical = lit "global" \/ canonical = lit "unknown"
          \/ startsWith canonical (lit "agent:") = true) as H.
  { unfold canonical, canonicalizeSessionKeyForAgent.
    destruct (bool_decide (key = lit "global")) eqn:E1;
      [apply bool_decide_eq_true in E1; by left|].
    destruct (bool_decide (key = lit "unknown")) eqn:E2;
      [apply bool_decide_eq_true in E2; right; by left|].
    simpl. destruct (startsWith key (lit "agent:")) eqn:E3; [by right; right|].
    right; right.
    exact (startsWith_app (lit "agent:")
             (normalizeAgentId toLowerCase (Some agentId) ++ lit ":" ++ key)). }
  split; [done|].
  unfold canonicalizeSessionKeyForAgent at 1.
  destruct H as [->|[->|H]]; [done|done|].
  rewrite H. by destruct (_ || _).
Qed.

End Canonical.

Section Rows.

Import InboundKeys InboundKeysFacts.

Variable toLowerCase : jsstring -> jsstring.
Variable normalizeE164 : jsstring -> jsstring.

Lemma includes_after (a s p : jsstring) :
  includes s p = true -> includes (a ++ s) p = true.
Proof.
  intros H. induction a as [|c a IH]; [done|].
  cbn [app includes]. rewrite IH. apply orb_true_r.
Qed.

(** X14. the session of a group message is listed as a group, whatever
    its stored entry says. *)
Theorem group_sessions_are_listed_as_groups (ctx : MsgContext)
    (mainKey : option jsstring) (g : GroupKeyResolution)
    (entryChatType : option SessionChatType) :
  truthy (trim <$> SessionKey ctx) = false ->
  resolveGroupSessionKey toLowerCase ctx = Some g ->
  classifySessionKey
    (resolveSessionKey toLowerCase normalizeE164 PerSender ctx mainKey)
    entryChatType
  = RowGroup.
Proof.
  intros He Hg.
  destruct (group_session_key toLowerCase normalizeE164
              ctx mainKey g He Hg) as [-> Hlooks].
  unfold classifySessionKey.
  rewrite !bool_decide_eq_false_2 by done.
  destruct (_ || _); [done|].
  assert (includes (lit "agent:main:" ++ key g) (lit ":group:")
          || includes (lit "agent:main:" ++ key g) (lit ":channel:") = true) as Hin.
  { unfold looksLikeGroupKey in Hlooks.
    apply orb_true_iff in Hlooks as [Hlooks|Hlooks];
      [apply orb_true_iff in Hlooks as [Hlooks|Hlooks]|].
    - apply startsWith_split in Hlooks as (t & ->).
      change (lit "agent:main:" ++ lit "group:" ++ t)
        with (lit "agent:main" ++ lit ":group:" ++ t).
      by rewrite includes_app.
    - by rewrite (includes_after _ _ _ Hlooks).
    - rewrite (includes_after _ _ _ Hlooks). apply orb_true_r. }
  apply orb_true_iff in Hin as [Hin|Hin]; rewrite Hin; by rewrite ?orb_true_r.
Qed.

End Rows.

Lemma cap_keeps_longest_tail_that_fits_witness :
  exists dropped kept,
    capArrayByJsonBytes MoreSamples.itemBytes ["alpha"; "beta"; "gamma"]%string 17
    = (kept, arrayBytes MoreSamples.itemBytes kept)
    /\ ["alpha"; "beta"; "gamma"]%string = dropped ++ kept
    /\ kept <> []
    /\ (arrayBytes MoreSamples.itemBytes kept <= 17 \/ length kept = 1%nat)
    /\ (forall k, (k < length dropped)%nat ->
          17 < arrayBytes MoreSamples.itemBytes
                 (drop k ["alpha"; "beta"; "gamma"]%string)).
Proof.
  apply (cap_keeps_longest_tail_that_fits MoreSamples.itemBytes
           ["alpha"; "beta"; "gamma"]%string 17).
  discriminate.
Defined.

Lemma group_sessions_are_listed_as_groups_witness :
  classifySessionKey
    (InboundKeys.resolveSessionKey lowerAscii MoreSamples.plainNumber
       InboundKeys.PerSender MoreSamples.whatsappGroup None)
    (Some InboundKeys.DirectChat)
  = RowGroup.
Proof.
  apply (group_sessions_are_listed_as_groups lowerAscii MoreSamples.plainNumber
           MoreSamples.whatsappGroup None
           {| InboundKeys.key := lit "whatsapp:group:120363@g.us";
              InboundKeys.legacyKey := Some (lit "group:120363@g.us");
              InboundKeys.provider := Some (lit "whatsapp");
              InboundKeys.id := Some (lit "120363@g.us");
              InboundKeys.chatType := Some InboundKeys.GroupChat |}).
  - reflexivity.
  - vm_compute. reflexivity.
Defined.

End SessionUtilsFacts.

(** ** More on the follow-up queue *)
Module FollowupQueueMore.

Import JsText FollowupQueue QueueEvents JsFacts JsTextFacts FollowupQueueFacts.

#[local] Arguments lit : simpl never.
#[local] Arguments join : simpl never.
#[local] Arguments trim : simpl never.
#[local] Arguments numToString : simpl never.
#[local] Arguments overflowLines : simpl never.
#[local] Arguments buildCollectPrompt : simpl never.
#[local] Arguments buildQueueSummaryLine : simpl never.
#[local] Arguments hasCrossChannelItems : simpl never.

(** *** The cap after an accepted enqueue *)

Lemma enqueueOnto_accepted queue r dm now :
  0 < cap queue ->
  snd (enqueueOnto queue r dm now) = true ->
  let queue' := fst (enqueueOnto queue r dm now) in
  last (items queue') = Some r
  /\ Z.of_nat (length (items queue')) <= Z.max (cap queue) (Z.of_nat (length (items queue)) + 1)
  /\ (cap queue <= Z.of_nat (length (items queue)) ->
      Z.of_nat (length (items queue')) = cap queue)
  /\ cap queue' = cap queue.
Proof.
  intros Hcap. unfold enqueueOnto.
  destruct (_ && isRunAlreadyQueued r queue false); [done|].
  destruct (_ && isRunAlreadyQueued r queue true); [done|].
  cbn [items setEnqueued cap dropPolicy].
  assert ((0 <? cap queue) = true) as -> by (by apply Z.ltb_lt).
  destruct (cap queue <=? Z.of_nat (length (items queue))) eqn:Hfull; cbn [andb].
  - apply Z.leb_le in Hfull.
    destruct (bool_decide (dropPolicy queue = DropNew)); [done|].
    intros _.
    set (n := Z.to_nat (Z.of_nat (length (items queue)) - cap queue + 1)).
    assert (length (drop n (items queue)) = Z.to_nat (cap queue - 1)) as Hlen.
    { rewrite length_drop. unfold n. lia. }
    destruct (bool_decide (dropPolicy _ = DropSummarize)); cbn [fst items setItems cap];
      rewrite ?recordDropped_items; cbn [items setItems cap recordDropped setDropped];
      rewrite last_snoc, length_app, Hlen; cbn [length]; repeat split; lia.
  - apply Z.leb_gt in Hfull. intros _. cbn [fst items setItems cap].
    rewrite last_snoc, length_app. cbn [length]. repeat split; lia.
Qed.

(** X15. after an enqueue that was accepted, under a key that is trimmed
    and not empty (the form in which [getFollowupQueueDepth] looks a key
    up), the item is the last of its queue and the depth reported for the
    key is at least 1 and at most [cap], also when the same call has
    lowered the cap below the number of items queued. *)
Theorem accepted_enqueue_fits_the_cap (key : string) (r : FollowupRun)
    (settings : QueueSettings) (dedupeMode : option QueueDedupeMode) (now : Z)
    (reg reg' : Registry) :
  trimKey key = key ->
  key <> EmptyString ->
  (forall q, lookupQueue key reg = Some q -> 0 < cap q) ->
  enqueueFollowupRun key r settings dedupeMode now reg = (reg', true) ->
  exists queue',
    lookupQueue key reg' = Some queue'
    /\ last (items queue') = Some r
    /\ (0 < getFollowupQueueDepth key reg')%nat
    /\ Z.of_nat (getFollowupQueueDepth key reg') <= cap queue'.
Proof.
  intros Htrim Hkey Hpos Hrun.
  destruct (enqueueFollowupRun_lookup key r settings dedupeMode now reg)
    as (reg1 & E & Hlook).
  rewrite Hrun in E. injection E as <- Hacc. symmetry in Hacc.
  set (queue := queueFor key settings reg) in *.
  assert (0 < cap queue) as Hcap.
  { unfold queue, queueFor, applySettings.
    destruct (lookupQueue key reg) as [q|] eqn:Hq; cbn [cap setSettings].
    - specialize (Hpos q eq_refl).
      destruct (s_cap settings) as [c|]; [|done].
      destruct (0 <? c) eqn:Hc; [by apply Z.ltb_lt|done].
    - destruct (s_cap settings) as [c|]; [|done].
      destruct (0 <? c) eqn:Hc; [by apply Z.ltb_lt|done]. }
  destruct (enqueueOnto_accepted queue r dedupeMode now Hcap Hacc)
    as (Hlast & Hle & Hfull & Hsame).
  eexists. split; [exact Hlook|]. split; [exact Hlast|].
  unfold getFollowupQueueDepth. cbv zeta.
  rewrite Htrim, bool_decide_eq_false_2 by done. rewrite Hlook.
  set (queue' := fst (enqueueOnto queue r dedupeMode now)) in *.
  split.
  - destruct (items queue'); [done|simpl; lia].
  - rewrite Hsame.
    destruct (Z_le_gt_dec (cap queue) (Z.of_nat (length (items queue)))) as [H|H].
    + rewrite (Hfull H). lia.
    + lia.
Qed.

(** *** The summary line *)

Lemma singleSpaces_weaken b s : singleSpaces true s -> singleSpaces b s.
Proof.
  destruct s as [|c s]; simpl; [done|]. intros [H1 H2]. split; [|done].
  intros Hc. by destruct (H1 Hc).
Qed.

Lemma collapseFrom_single inRun s : singleSpaces inRun (collapseFrom inRun s).
Proof.
  revert inRun. induction s as [|c s IH]; intros inRun; simpl; [done|].
  destruct (isWhite c) eqn:Hc.
  - destruct inRun; [apply IH|]. simpl. split; [done|].
    change (isWhite SPACE) with true. apply IH.
  - simpl. rewrite Hc. split; [done|apply IH].
Qed.

Lemma singleSpaces_fixed b s : singleSpaces b s -> collapseFrom b s = s.
Proof.
  revert b. induction s as [|c s IH]; intros b; simpl; [done|].
  intros [H1 H2]. destruct (isWhite c) eqn:Hc.
  - destruct (H1 eq_refl) as [-> ->]. f_equal. by apply IH.
  - f_equal. by apply IH.
Qed.

Lemma singleSpaces_app_l b a s : singleSpaces b (a ++ s) -> singleSpaces b a.
Proof.
  revert b. induction a as [|c a IH]; intros b; simpl; [done|].
  intros [H1 H2]. split; [done|]. by apply IH.
Qed.

Lemma singleSpaces_app_r b a s : singleSpaces b (a ++ s) -> singleSpaces false s.
Proof.
  revert b. induction a as [|c a IH]; intros b; simpl.
  - destruct s as [|d s]; simpl; [done|]. intros [H1 H2]. split; [|done].
    intros Hd. by destruct (H1 Hd).
  - intros [_ H2]. by apply (IH _ H2).
Qed.

Lemma singleSpaces_snoc b a x :
  isWhite x = false -> singleSpaces b a -> singleSpaces b (a ++ [x]).
Proof.
  intros Hx. revert b. induction a as [|c a IH]; intros b; simpl.
  - intros _. by rewrite Hx.
  - intros [H1 H2]. split; [done|]. by apply IH.
Qed.

Lemma singleSpaces_trimEnd b s : singleSpaces b s -> singleSpaces b (trimEnd s).
Proof.
  intros H. destruct (trimEnd_prefix s) as (w & E & _).
  rewrite E in H. by apply singleSpaces_app_l in H.
Qed.

Lemma singleSpaces_trim s : singleSpaces false s -> singleSpaces false (trim s).
Proof.
  intros H. unfold trim. apply singleSpaces_trimEnd. unfold trimStart.
  destruct (dropWhile_suffix isWhite s) as (w & E & _).
  rewrite E in H. by apply singleSpaces_app_r in H.
Qed.

Lemma singleSpaces_no_break b s : singleSpaces b s -> LF ∉ s.
Proof.
  revert b. induction s as [|c s IH]; intros b; simpl; [by intros _ H; inversion H|].
  intros [H1 H2] Hin. apply elem_of_cons in Hin as [<-|Hin]; [|by eapply IH].
  by destruct (H1 eq_refl).
Qed.

Lemma trim_snoc_nonwhite (a : jsstring) (x : N) :
  isWhite x = false -> trimStart a = a -> trim (a ++ [x]) = a ++ [x].
Proof.
  intros Hx Ha. unfold trim.
  assert (trimStart (a ++ [x]) = a ++ [x]) as ->.
  { unfold trimStart in *. apply dropWhile_id. destruct a as [|c a]; simpl; [done|].
    simpl in Ha. destruct (isWhite c) eqn:Hc; [|done].
    pose proof (dropWhile_length isWhite a) as Hl. rewrite Ha in Hl. simpl in Hl. lia. }
  rewrite trimEnd_app. cbn [forallb]. rewrite Hx. cbn [andb]. f_equal.
  unfold trimEnd. simpl. by rewrite Hx.
Qed.

(** X16. a synopsis of a dropped message is one tidy line: collapsing
    white space or trimming it changes nothing, and it holds no line
    feed. *)
Theorem summary_line_is_one_tidy_line (r : FollowupRun) :
  collapseWhite (buildQueueSummaryLine r) = buildQueueSummaryLine r
  /\ trim (buildQueueSummaryLine r) = buildQueueSummaryLine r
  /\ LF ∉ buildQueueSummaryLine r.
Proof.
  unfold buildQueueSummaryLine.
  set (base := orElse (trim <$> summaryLine r) (trim (prompt r))).
  set (cleaned := trim (collapseWhite base)).
  assert (singleSpaces false cleaned) as Hc
    by (apply singleSpaces_trim, collapseFrom_single).
  assert (trim cleaned = cleaned) as Ht by apply trim_idem.
  assert (singleSpaces false (elideText cleaned 160)
          /\ trim (elideText cleaned 160) = elideText cleaned 160) as [Hs Htr].
  { unfold elideText. destruct (length cleaned <=? 160)%nat; [done|].
    set (cut := take (160 - 1) cleaned).
    assert (singleSpaces false cut) as Hcut.
    { rewrite <- (take_drop (160 - 1) cleaned) in Hc.
      by apply singleSpaces_app_l in Hc. }
    split.
    - apply singleSpaces_snoc; [reflexivity|by apply singleSpaces_trimEnd].
    - apply trim_snoc_nonwhite; [reflexivity|].
      apply trimStart_trimEnd. unfold cut, trimStart.
      apply trim_fixed in Ht as [Hst _]. unfold trimStart in Hst.
      apply dropWhile_id. destruct cleaned as [|c cl]; [done|].
      simpl. simpl in Hst. destruct (isWhite c) eqn:Hw; [|done].
      pose proof (dropWhile_length isWhite cl) as Hl. rewrite Hst in Hl.
      simpl in Hl. lia. }
  split; [by apply singleSpaces_fixed|]. split; [done|].
  by apply (singleSpaces_no_break false).
Qed.

(** *** The order of a drain in the modes other than [collect] *)

Section Drain.

Variable isRoutableChannel : option jsstring -> bool.

Lemma drainLoop_unfold fuel now force q :
  drainLoop isRoutableChannel (S fuel) now force q
  = if loopTest q then
      match drainIteration isRoutableChannel now force q with
      | IterRun kind call queue' force' =>
          let '(calls, final) := drainLoop isRoutableChannel fuel now force' queue' in
          ((kind, call) :: calls, final)
      | IterBreak queue' => ([], queue')
      end
    else ([], q).
Proof. reflexivity. Qed.

(** With no notice pending the loop hands out the items one by one. *)
Lemma drainLoop_items now force q fuel :
  mode q <> Collect ->
  fst (buildSummaryPrompt q) = None ->
  (length (items q) < fuel)%nat ->
  drainLoop isRoutableChannel fuel now force q
  = (List.map (pair ItemCall) (items q), setItems q []).
Proof.
  intros Hm Hnone. revert q Hm Hnone.
  induction fuel as [|fuel IH]; intros q Hm Hnone Hlen; [lia|].
  rewrite drainLoop_unfold.
  assert (buildSummaryPrompt q = (None, q)) as Hb.
  { revert Hnone. unfold buildSummaryPrompt. by destruct (_ || _). }
  unfold drainIteration. rewrite bool_decide_eq_false_2 by done. rewrite Hb.
  cbn [truthy].
  destruct (items q) as [|next rest] eqn:Hi.
  - rewrite (setItems_same q []) by done. by destruct (loopTest q).
  - rewrite (loopTest_cons q next rest Hi).
    rewrite (IH (setItems q rest)); [done|done| |simpl in *; lia].
    revert Hnone. unfold buildSummaryPrompt. cbn [dropPolicy droppedCount setItems].
    by destruct (_ || _).
Qed.

(** X17. in the modes other than [collect] one run of the drain loop
    delivers a pending overflow notice first and then every queued item,
    one call each, in the order of arrival. *)
Theorem followup_drain_runs_items_in_order (now : Z) (force : bool)
    (q : FollowupQueueState) (fuel : nat) :
  mode q <> Collect ->
  wfQueue q ->
  (S (length (items q)) < fuel)%nat ->
  exists q',
    drainLoop isRoutableChannel fuel now force q
    = (pendingNotice now q ++ List.map (pair ItemCall) (items q), q')
    /\ items q' = []
    /\ (dropPolicy q = DropSummarize -> droppedCount q' <= 0).
Proof.
  intros Hm (Hcap & Hdrop & Hrun) Hfuel.
  unfold pendingNotice.
  destruct (fst (buildSummaryPrompt q)) as [notice|] eqn:Hn.
  - assert (0 < droppedCount q /\ dropPolicy q = DropSummarize) as [Hd Hp].
    { revert Hn. unfold buildSummaryPrompt.
      destruct (bool_decide (dropPolicy q = DropSummarize)) eqn:E1; [|done].
      destruct (droppedCount q <=? 0) eqn:E2; [done|]. intros _.
      apply bool_decide_eq_true in E1. apply Z.leb_gt in E2. done. }
    destruct (Hrun Hd) as [r Hr]. rewrite Hr.
    rewrite (buildSummaryPrompt_pending q Hd Hp) in Hn. injection Hn as <-.
    destruct fuel as [|fuel]; [lia|]. rewrite drainLoop_unfold.
    assert (loopTest q = true) as ->.
    { unfold loopTest. apply orb_true_iff. right. by apply Z.ltb_lt. }
    unfold drainIteration. rewrite bool_decide_eq_false_2 by done.
    rewrite (buildSummaryPrompt_pending q Hd Hp).
    assert (truthy (Some (join [LF] (overflowLines q))) = true) as ->.
    { destruct (overflow_prompt_cons q) as (s & ->). done. }
    cbn [lastRun setDropped]. rewrite Hr.
    rewrite (drainLoop_items now force (setDropped q 0 []) fuel);
      [|done| |simpl; lia].
    2:{ unfold buildSummaryPrompt. cbn [droppedCount setDropped].
        change (0 <=? 0) with true. by rewrite orb_true_r. }
    eexists. split; [reflexivity|]. split; [done|]. intros _. simpl. lia.
  - rewrite (drainLoop_items now force q fuel Hm Hn) by lia.
    eexists. split; [reflexivity|]. split; [done|]. intros Hp. simpl.
    revert Hn. unfold buildSummaryPrompt. rewrite bool_decide_eq_true_2 by done.
    simpl. destruct (droppedCount q <=? 0) eqn:E; [|done]. intros _.
    by apply Z.leb_le.
Qed.

(** *** One key at a time *)

Lemma lookupQueue_store_other key' ref q reg :
  (forall ref', FOLLOWUP_QUEUES reg !! key' = Some ref' -> ref' <> ref) ->
  lookupQueue key' (store ref q reg) = lookupQueue key' reg.
Proof.
  intros H. unfold lookupQueue, store. simpl.
  destruct (FOLLOWUP_QUEUES reg !! key') as [ref'|] eqn:E; simpl; [|done].
  rewrite lookup_insert_ne; [done|].
  intros Heq. by apply (H ref' eq_refl).
Qed.

Lemma scheduleFollowupDrain_other key key' w :
  key <> key' ->
  (forall k1 k2 ref,
     FOLLOWUP_QUEUES (registry w) !! k1 = Some ref ->
     FOLLOWUP_QUEUES (registry w) !! k2 = Some ref -> k1 = k2) ->
  lookupQueue key' (registry (scheduleFollowupDrain key w))
  = lookupQueue key' (registry w).
Proof.
  intros Hne Hinj. unfold scheduleFollowupDrain.
  destruct (FOLLOWUP_QUEUES (registry w) !! key) as [ref|] eqn:Hk; [|done].
  destruct (heap (registry w) !! ref) as [q|]; [|done].
  destruct (draining q); [done|]. simpl.
  apply lookupQueue_store_other. intros ref' Hk' ->. by apply Hne, (Hinj _ _ ref).
Qed.

Lemma runFinally_other l key' w :
  loopKey l <> key' ->
  FOLLOWUP_QUEUES (registry w) !! loopKey l = Some (loopQueue l) ->
  (forall k1 k2 ref,
     FOLLOWUP_QUEUES (registry w) !! k1 = Some ref ->
     FOLLOWUP_QUEUES (registry w) !! k2 = Some ref -> k1 = k2) ->
  lookupQueue key' (registry (runFinally l w)) = lookupQueue key' (registry w).
Proof.
  intros Hne Hl Hinj. unfold runFinally.
  destruct (heap (registry w) !! loopQueue l) as [q|]; [|done].
  assert (forall ref', FOLLOWUP_QUEUES (registry w) !! key' = Some ref' ->
                       ref' <> loopQueue l) as Hapart.
  { intros ref' Hk' ->. by apply Hne, (Hinj _ _ (loopQueue l)). }
  match goal with |- context [if ?b then _ else _] => destruct b end.
  - cbn [registry]. unfold lookupQueue. cbn [FOLLOWUP_QUEUES heap store].
    rewrite lookup_delete_ne by done.
    destruct (FOLLOWUP_QUEUES (registry w) !! key') as [ref'|] eqn:E; simpl; [|done].
    rewrite lookup_insert_ne; [done|].
    intros Heq. by apply (Hapart ref' eq_refl).
  - rewrite scheduleFollowupDrain_other; [|done|done].
    cbn [registry]. by apply lookupQueue_store_other.
Qed.

(** X18. an event that works on one key leaves the queue of every other
    key as it is: its items, settings, counters and flag. *)
Theorem events_leave_other_keys_alone (ev : Event) (w : World) (key' : string) :
  coherent w ->
  eventKey ev w <> Some key' ->
  lookupQueue key' (registry (step isRoutableChannel ev w))
  = lookupQueue key' (registry w).
Proof.
  intros (Hnd & Hloops & Hflag & Halloc & Hinj & Hwf) Hother.
  assert (forall key ref, FOLLOWUP_QUEUES (registry w) !! key = Some ref ->
            key <> key' ->
            forall ref', FOLLOWUP_QUEUES (registry w) !! key' = Some ref' ->
                         ref' <> ref) as Hapart.
  { intros key ref Hk Hne ref' Hk' ->. by apply Hne, (Hinj _ _ ref). }
  destruct ev as [key r settings dm now|key|i now|i]; cbn [step eventKey] in *.
  - assert (key <> key') as Hne by (by intros ->).
    cbn [registry]. unfold enqueueFollowupRun, getFollowupQueue.
    destruct (FOLLOWUP_QUEUES (registry w) !! key) as [ref|] eqn:Hk.
    + cbn [heap store]. rewrite lookup_insert_eq.
      destruct (enqueueOnto _ r dm now) as [q' b]. cbn [fst].
      rewrite !lookupQueue_store_other; [done| |]; by apply (Hapart key).
    + cbn [heap]. rewrite lookup_insert_eq.
      destruct (enqueueOnto _ r dm now) as [q' b]. cbn [fst].
      unfold lookupQueue, store. cbn [FOLLOWUP_QUEUES heap].
      rewrite lookup_insert_ne by done.
      destruct (FOLLOWUP_QUEUES (registry w) !! key') as [ref'|] eqn:Hk'; simpl; [|done].
      destruct (Halloc key' ref' Hk') as [Hlt _].
      by rewrite !lookup_insert_ne by lia.
  - apply scheduleFollowupDrain_other; [by intros ->|done].
  - destruct (loops w !! i) as [l|] eqn:Hi; [|done].
    assert (loopKey l <> key') as Hne
      by (intros E; apply Hother; simpl; by rewrite E).
    assert (FOLLOWUP_QUEUES (registry w) !! loopKey l = Some (loopQueue l)) as Hreg
      by (apply Hloops; by eapply list_elem_of_lookup_2).
    destruct (heap (registry w) !! loopQueue l) as [q|] eqn:Hq; [|done].
    destruct (negb (loopTest q)).
    { by rewrite runFinally_other. }
    destruct (negb (debounceElapsed now q)); [done|].
    destruct (drainIteration isRoutableChannel now (forceIndividualCollect l) q)
      as [kind call q' force'|q'].
    + cbn [registry]. apply lookupQueue_store_other. by apply (Hapart (loopKey l)).
    + rewrite runFinally_other; [|done|done|done].
      cbn [registry]. apply lookupQueue_store_other. by apply (Hapart (loopKey l)).
  - destruct (loops w !! i) as [l|] eqn:Hi; [|done].
    assert (loopKey l <> key') as Hne
      by (intros E; apply Hother; simpl; by rewrite E).
    assert (FOLLOWUP_QUEUES (registry w) !! loopKey l = Some (loopQueue l)) as Hreg
      by (apply Hloops; by eapply list_elem_of_lookup_2).
    by rewrite runFinally_other.
Qed.

End Drain.

Lemma accepted_enqueue_fits_the_cap_witness :
  exists queue',
    lookupQueue "k"
      (enqueueFollowupRun "k" Samples.slackC (Samples.capTwo Followup DropOld) None 3
         (Samples.fullRegistry Followup DropOld)).1
    = Some queue'
    /\ last (items queue') = Some Samples.slackC
    /\ (0 < getFollowupQueueDepth "k"
              (enqueueFollowupRun "k" Samples.slackC
                 (Samples.capTwo Followup DropOld) None 3
                 (Samples.fullRegistry Followup DropOld)).1)%nat
    /\ Z.of_nat
         (getFollowupQueueDepth "k"
            (enqueueFollowupRun "k" Samples.slackC
               (Samples.capTwo Followup DropOld) None 3
               (Samples.fullRegistry Followup DropOld)).1)
       <= cap queue'.
Proof.
  apply (accepted_enqueue_fits_the_cap "k" Samples.slackC
           (Samples.capTwo Followup DropOld) None 3
           (Samples.fullRegistry Followup DropOld)).
  - reflexivity.
  - discriminate.
  - intros q H. vm_compute in H. injection H as <-. reflexivity.
  - vm_compute. reflexivity.
Defined.

Lemma followup_drain_runs_items_in_order_witness :
  exists q',
    drainLoop Samples.anyChannel 4 10 false
      (Samples.queued Followup [Samples.slackA; Samples.slackB])
    = ([(ItemCall, Samples.slackA); (ItemCall, Samples.slackB)], q')
    /\ items q' = []
    /\ (DropSummarize = DropSummarize -> droppedCount q' <= 0).
Proof.
  apply (followup_drain_runs_items_in_order Samples.anyChannel 10 false
           (Samples.queued Followup [Samples.slackA; Samples.slackB]) 4).
  - discriminate.
  - repeat split; simpl; lia.
  - simpl. lia.
Defined.

Lemma events_leave_other_keys_alone_witness :
  lookupQueue "b"
    (registry (step Samples.anyChannel
                 (EvEnqueue "a" Samples.slackC (Samples.capTwo Collect DropNew) None 3)
                 MoreSamples.twoKeys))
  = lookupQueue "b" (registry MoreSamples.twoKeys).
Proof.
  apply (events_leave_other_keys_alone Samples.anyChannel).
  - apply (reachable_coherent Samples.anyChannel). eexists. reflexivity.
  - simpl. discriminate.
Defined.

End FollowupQueueMore.

(** ** More on the session store *)
Module SessionStoreMore.

Import SessionStore SessionStoreFacts.

#[local] Arguments writeFileStates : simpl never.
#[local] Arguments lastState : simpl never.
#[local] Arguments renameFile : simpl never.

Lemma lastState_Forall (P : Files -> Prop) fs states :
  P fs -> Forall P states -> P (lastState fs states).
Proof.
  intros Hfs Hall. unfold lastState.
  induction Hall as [|s states Hs Hall IH]; simpl; [done|].
  destruct states; [done|]. exact IH.
Qed.

Lemma renameFile_other src dst fs p :
  p <> src -> p <> dst -> renameFile src dst fs !! p = fs !! p.
Proof.
  intros Hs Hd. unfold renameFile. destruct (fs !! src); [|done].
  by rewrite lookup_insert_ne, lookup_delete_ne.
Qed.

Section Save.

Variable stringify : gmap string SessionEntry -> string.

Lemma writeOrFallback_other path tmp json o fs p :
  p <> path -> p <> tmp ->
  Forall (fun s => s !! p = fs !! p) (writeOrFallback path tmp json o fs).1.
Proof.
  intros Hp Ht.
  assert (forall x, x !! p = fs !! p ->
            Forall (fun s => s !! p = fs !! p) (writeFileStates tmp json x)) as Hwt.
  { intros x Hx. apply Forall_forall. intros s Hs.
    by rewrite (writeFileStates_other tmp json x p s). }
  assert (forall x, x !! p = fs !! p ->
            Forall (fun s => s !! p = fs !! p) (writeFileStates path json x)) as Hwp.
  { intros x Hx. apply Forall_forall. intros s Hs.
    by rewrite (writeFileStates_other path json x p s). }
  assert (forall states, Forall (fun s => s !! p = fs !! p) states ->
            Forall (fun s => s !! p = fs !! p)
              (states ++ writeFileStates path json (lastState fs states))) as Hdirect.
  { intros states Hs. apply Forall_app. split; [done|].
    apply Hwp. by apply (lastState_Forall (fun s => s !! p = fs !! p)). }
  unfold writeOrFallback.
  destruct (writeTmp o) as [[|c]|]; cbn [fst].
  - destruct (mkdirRetry o) as [[|c]|]; cbn [fst]; [constructor|constructor|].
    destruct (writeDirect o) as [[|c]|]; cbn [fst]; [constructor|constructor|].
    by apply (Hdirect []).
  - constructor.
  - assert (Forall (fun s => s !! p = fs !! p) (writeFileStates tmp json fs)) as Hw
      by (by apply Hwt).
    destruct (renameTmp o) as [[|c]|]; cbn [fst].
    + destruct (mkdirRetry o) as [[|c]|]; cbn [fst]; [done|done|].
      destruct (writeDirect o) as [[|c]|]; cbn [fst]; [done|done|].
      by apply Hdirect.
    + done.
    + apply Forall_app. split; [done|]. constructor; [|constructor].
      rewrite renameFile_other by done.
      by apply (lastState_Forall (fun s => s !! p = fs !! p)).
Qed.

(** X19. whatever the outcome of its file-system calls, a save changes
    no file other than the store and its temporary file, in no state a
    reader can see; and when the final removal succeeds the temporary
    file is gone at the end. *)
Theorem save_touches_two_paths_only (path : string) (st : gmap string SessionEntry)
    (pid uuid : string) (o : SaveOutcomes)
    (cache : gmap string SessionStoreCacheEntry) (fs : Files) :
  let res := saveSessionStore stringify path st pid uuid o cache fs in
  (forall p s, p <> path -> p <> tmpPath path pid uuid ->
     s ∈ observable res -> s !! p = fs !! p)
  /\ (mkdirFirst o = None -> rmTmp o = None ->
      List.last (observable res) fs !! tmpPath path pid uuid = None).
Proof.
  intros res. split.
  - intros p s Hp Ht Hs. unfold res, saveSessionStore in Hs.
    destruct (mkdirFirst o) as [e|].
    { cbn [observable] in Hs. by apply list_elem_of_singleton in Hs as ->. }
    pose proof (writeOrFallback_other path (tmpPath path pid uuid) (stringify st)
                  o fs p Hp Ht) as Hall.
    destruct (writeOrFallback path (tmpPath path pid uuid) (stringify st) o fs)
      as [states err]. cbn [fst] in Hall.
    rewrite Forall_forall in Hall.
    destruct (rmTmp o) as [e|]; cbn [observable] in Hs.
    + apply elem_of_cons in Hs as [->|Hs]; [done|by apply Hall].
    + apply elem_of_cons in Hs as [->|Hs]; [done|].
      apply elem_of_app in Hs as [Hs|Hs]; [by apply Hall|].
      apply list_elem_of_singleton in Hs as ->.
      rewrite lookup_delete_ne by done.
      apply (lastState_Forall (fun s => s !! p = fs !! p)); [done|].
      by apply Forall_forall.
  - intros Hm Hr. unfold res, saveSessionStore. rewrite Hm, Hr.
    destruct (writeOrFallback _ _ _ _ _) as [states err]. cbn [observable].
    rewrite last_cons_snoc. apply lookup_delete_eq.
Qed.

End Save.

Section Load.

Variable stringify : gmap string SessionEntry -> string.
Variable isCacheEnabled : Z -> bool.
Variable JSON5_parse : string -> option Parsed.

(** X20. after a save of a path, however the save ends, the next load of
    that path reads the file instead of answering from the cache, and the
    cached stores of the other paths are still there. *)
Theorem load_after_save_reads_the_file (path : string)
    (st : gmap string SessionEntry) (pid uuid : string) (o : SaveOutcomes)
    (cache : gmap string SessionStoreCacheEntry) (fs : Files) (env : LoadEnv) :
  let cache' := cacheAfter (saveSessionStore stringify path st pid uuid o cache fs) in
  loadSessionStore isCacheEnabled JSON5_parse path env cache'
  = loadFromDisk isCacheEnabled JSON5_parse path env cache'
  /\ (loadSessionStore isCacheEnabled JSON5_parse path env cache').1
     = (readStore JSON5_parse path env).1
  /\ (forall other, other <> path -> cache' !! other = cache !! other).
Proof.
  intros cache'.
  assert (cache' = delete path cache) as ->.
  { unfold cache', saveSessionStore.
    destruct (mkdirFirst o); [done|].
    destruct (writeOrFallback _ _ _ _ _). by destruct (rmTmp o). }
  assert (loadSessionStore isCacheEnabled JSON5_parse path env (delete path cache)
          = loadFromDisk isCacheEnabled JSON5_parse path env (delete path cache)) as E.
  { unfold loadSessionStore. rewrite lookup_delete_eq.
    by destruct (isSessionStoreCacheEnabled isCacheEnabled env). }
  split; [done|]. split.
  - rewrite E. unfold loadFromDisk.
    destruct (readStore JSON5_parse path env) as [loaded mtime].
    by destruct (isSessionStoreCacheEnabled isCacheEnabled env).
  - intros other Hne. by rewrite lookup_delete_ne.
Qed.

(** X21. with caching enabled, a load that had to read the file is
    followed by loads that answer from the cache, without reading the
    file, as long as the time-to-live has not run out and the
    modification time of the file is the one seen by the first load. *)
Theorem second_load_answers_from_cache (path : string) (env env' : LoadEnv)
    (cache : gmap string SessionStoreCacheEntry) :
  isCacheEnabled (ttl env) = true ->
  cache !! path = None ->
  ttl env' = ttl env ->
  now env' - now env <= ttl env ->
  getFileMtimeMs env' path = (readStore JSON5_parse path env).2 ->
  let first := loadSessionStore isCacheEnabled JSON5_parse path env cache in
  loadSessionStore isCacheEnabled JSON5_parse path env' first.2
  = (first.1, first.2)
  /\ first.1 = (readStore JSON5_parse path env).1.
Proof.
  intros Hen Hmiss Httl Hnow Hmtime first.
  assert (first = loadFromDisk isCacheEnabled JSON5_parse path env cache) as Hf.
  { unfold first, loadSessionStore. rewrite Hmiss.
    by destruct (isSessionStoreCacheEnabled isCacheEnabled env). }
  rewrite Hf. unfold loadFromDisk.
  destruct (readStore JSON5_parse path env) as [loaded mtime] eqn:Er.
  unfold isSessionStoreCacheEnabled. rewrite Hen. cbn [fst snd] in *.
  split; [|done].
  unfold loadSessionStore, isSessionStoreCacheEnabled. rewrite Httl, Hen.
  rewrite lookup_insert_eq. unfold isSessionStoreCacheValid. cbn [loadedAt mtimeMs].
  rewrite Httl.
  replace (now env' - now env <=? ttl env) with true
    by (symmetry; by apply Z.leb_le).
  by rewrite bool_decide_eq_true_2.
Qed.

End Load.

Lemma save_touches_two_paths_only_witness :
  List.last
    (observable (saveSessionStore Samples.emptyJson "/s/sessions.json" ∅ "42" "u1"
                   Samples.directoryVanished ∅ {[ "/s/other.json" := "{}" ]}))
    {[ "/s/other.json" := "{}" ]}
  !! tmpPath "/s/sessions.json" "42" "u1"
  = None.
Proof.
  apply (proj2 (save_touches_two_paths_only Samples.emptyJson "/s/sessions.json" ∅
                  "42" "u1" Samples.directoryVanished ∅ {[ "/s/other.json" := "{}" ]}));
    reflexivity.
Defined.

Lemma load_after_save_reads_the_file_witness :
  cacheAfter (saveSessionStore Samples.emptyJson "/s/other.json" ∅ "42" "u1"
                Samples.allSucceed Samples.warmCache ∅)
  !! "/s/sessions.json"
  = Samples.warmCache !! "/s/sessions.json".
Proof.
  apply (proj2 (proj2 (load_after_save_reads_the_file Samples.emptyJson Samples.cacheOn
                         Samples.parseNothing "/s/other.json" ∅ "42" "u1"
                         Samples.allSucceed Samples.warmCache ∅ Samples.quietEnv))).
  discriminate.
Defined.

Lemma second_load_answers_from_cache_witness :
  loadSessionStore Samples.cacheOn Samples.parseNothing "/s/sessions.json"
    MoreSamples.laterEnv
    (loadSessionStore Samples.cacheOn Samples.parseNothing "/s/sessions.json"
       Samples.quietEnv ∅).2
  = ((loadSessionStore Samples.cacheOn Samples.parseNothing "/s/sessions.json"
        Samples.quietEnv ∅).1,
     (loadSessionStore Samples.cacheOn Samples.parseNothing "/s/sessions.json"
        Samples.quietEnv ∅).2).
Proof.
  apply (proj1 (second_load_answers_from_cache Samples.cacheOn Samples.parseNothing
                  "/s/sessions.json" Samples.quietEnv MoreSamples.laterEnv ∅
                  ltac:(reflexivity) ltac:(reflexivity) ltac:(reflexivity)
                  ltac:(vm_compute; discriminate) ltac:(reflexivity))).
Defined.

End SessionStoreMore.

(** ** More on the [agent] method *)
Module AgentMethodMore.

Import AgentMethod GatewayTraces AgentMethodFacts.

Lemma dedupeKey_inj a b : dedupeKey a = dedupeKey b -> a = b.
Proof. unfold dedupeKey. cbn. intros H. by injection H. Qed.

Lemma acceptAndStart_other req now key g :
  idempotencyKey req <> key ->
  runsFor key (acceptAndStart req now g) = runsFor key g
  /\ dedupe (acceptAndStart req now g) !! dedupeKey key = dedupe g !! dedupeKey key
  /\ awaitingSave (acceptAndStart req now g) = awaitingSave g.
Proof.
  intros Hne. unfold runsFor, acceptAndStart. cbn [started dedupe awaitingSave].
  split; [|split; [|done]].
  - rewrite List.filter_app. cbn [List.filter].
    rewrite bool_decide_eq_false_2 by done. by rewrite app_nil_r.
  - rewrite lookup_insert_ne; [done|]. intros E. by apply dedupeKey_inj in E.
Qed.

Lemma gatewayStep_settled key ev g :
  settled key g ->
  settled key (gatewayStep ev g) /\ runsFor key (gatewayStep ev g) = runsFor key g.
Proof.
  intros [Hd Hs]. destruct ev as [req now|i now|idem out now]; cbn [gatewayStep].
  - unfold handleAgent.
    destruct (paramsValid req); cbn [negb]; [|done].
    destruct (decide (idempotencyKey req = key)) as [->|Hne].
    + destruct Hd as [e He]. rewrite He. split; [|done]. split; [by exists e|done].
    + destruct (dedupe g !! dedupeKey (idempotencyKey req)); [done|].
      assert (settled key (acceptAndStart req now g)
              /\ runsFor key (acceptAndStart req now g) = runsFor key g) as Hstart.
      { destruct (acceptAndStart_other req now key g Hne) as (H1 & H2 & H3).
        split; [|done]. split; [by rewrite H2|by rewrite H3]. }
      destruct (requestedSessionKey req); [|done].
      destruct (sendPolicyDeny req); [done|].
      destruct (storeHasPath req); [|done].
      split; [|done]. split; [done|]. cbn [awaitingSave].
      intros req' Hin. apply elem_of_app in Hin as [Hin|Hin]; [by apply Hs|].
      by apply list_elem_of_singleton in Hin as ->.
  - destruct (awaitingSave g !! i) as [req|] eqn:Hi; [|done].
    assert (idempotencyKey req <> key) as Hne
      by (apply Hs; by eapply list_elem_of_lookup_2).
    match goal with |- context [acceptAndStart req now ?g0] =>
      destruct (acceptAndStart_other req now key g0 Hne) as (H1 & H2 & H3) end.
    split; [|by rewrite H1]. split; [by rewrite H2|]. rewrite H3.
    cbn [awaitingSave]. intros req' Hin. apply Hs.
    by apply list_elem_of_delete_inv in Hin.
  - destruct (bool_decide (idem ∈ started g)); [|done].
    unfold finishRun. destruct out; split; try done;
      (split; [|done]); cbn [dedupe];
      (destruct (decide (idem = key)) as [->|Hne];
       [rewrite lookup_insert_eq; by eexists
       |rewrite lookup_insert_ne; [done|intros E; by apply dedupeKey_inj in E]]).
Qed.

(** X22. once an idempotency key has an entry in the cache and no handler
    for that key is suspended, no sequence of requests, settled saves and
    ended runs starts another run for the key, and the key keeps an
    entry. *)
Theorem settled_key_starts_no_more_runs (key : string) (evs : list GatewayEvent)
    (g : Gateway) :
  is_Some (dedupe g !! dedupeKey key) ->
  (forall req, req ∈ awaitingSave g -> idempotencyKey req <> key) ->
  List.filter (fun id => bool_decide (id = key)) (started (gatewayRun evs g))
  = List.filter (fun id => bool_decide (id = key)) (started g)
  /\ is_Some (dedupe (gatewayRun evs g) !! dedupeKey key).
Proof.
  intros Hd Hs. assert (settled key g) as Hset by done. clear Hd Hs.
  revert g Hset. induction evs as [|ev evs IH]; intros g Hset.
  - split; [done|]. by destruct Hset.
  - destruct (gatewayStep_settled key ev g Hset) as [Hset' Hruns].
    cbn [gatewayRun foldl]. destruct (IH _ Hset') as [H1 H2].
    split; [|done]. unfold gatewayRun in H1. rewrite H1. exact Hruns.
Qed.

Lemma settled_key_starts_no_more_runs_witness :
  List.filter (fun id => bool_decide (id = "idem-1"))
    (started (gatewayRun [ Submit Samples.agentRequest 5;
                           RunEnded "idem-1" (Resolved "done") 6;
                           Submit Samples.agentRequest 7 ]
                (acceptAndStart Samples.agentRequest 1 emptyGateway)))
  = ["idem-1"].
Proof.
  apply (proj1 (settled_key_starts_no_more_runs "idem-1"
                  [ Submit Samples.agentRequest 5;
                    RunEnded "idem-1" (Resolved "done") 6;
                    Submit Samples.agentRequest 7 ]
                  (acceptAndStart Samples.agentRequest 1 emptyGateway)
                  ltac:(vm_compute; eexists; reflexivity)
                  ltac:(intros req H; vm_compute in H; inversion H))).
Defined.

End AgentMethodMore.

(** ** More on session initialisation *)
Module SessionLifecycleMore.

Import SessionStore SessionLifecycle SessionLifecycleFacts.

Section Init.

Variable forkSessionFromParent : SessionEntry -> option (string * string).
Variable resolveSessionTranscriptPath : string -> string.

Lemma migrateLegacy_other i st k :
  k <> resolvedKey i -> legacyKey i <> Some k ->
  migrateLegacy i st !! k = st !! k.
Proof.
  intros Hk Hl. unfold migrateLegacy.
  destruct (legacyKey i) as [legacy|]; [|done].
  case_bool_decide; [|done].
  destruct (st !! legacy) as [e|]; [|done].
  destruct (st !! resolvedKey i); [done|].
  rewrite lookup_insert_ne by done. rewrite lookup_delete_ne; [done|].
  intros ->. by apply Hl.
Qed.

(** X23. whatever the message, [initSessionState] records, under the
    resolved key, an entry with the session id it returns, the current
    time and a transcript file; an entry filed under the legacy group key
    moves to the resolved key when that key is free, and stays where it is
    otherwise; every other key of the store is left alone. *)
Theorem init_records_one_session (i : InitInput) (st : gmap string SessionEntry) :
  let res := initSessionState forkSessionFromParent resolveSessionTranscriptPath i st in
  (exists stored,
     sessionStore res !! resolvedKey i = Some stored
     /\ sessionId stored = resultSessionId res
     /\ sessionId (sessionEntry res) = resultSessionId res
     /\ updatedAt stored = clock i
     /\ is_Some (sessionFile stored))
  /\ (forall k, k <> resolvedKey i -> legacyKey i <> Some k ->
        sessionStore res !! k = st !! k)
  /\ (forall legacy moved,
        legacyKey i = Some legacy -> legacy <> resolvedKey i ->
        st !! legacy = Some moved ->
        (st !! resolvedKey i = None ->
         migrateLegacy i st !! resolvedKey i = Some moved
         /\ sessionStore res !! legacy = None)
        /\ (forall kept, st !! resolvedKey i = Some kept ->
            migrateLegacy i st !! resolvedKey i = Some kept
            /\ sessionStore res !! legacy = Some moved)).
Proof.
  intros res. split; [|split].
  - unfold res, initSessionState.
    cbn [sessionStore resultSessionId sessionEntry sessionId updatedAt sessionFile].
    rewrite lookup_insert_eq. eexists. split; [reflexivity|].
    cbn [sessionId updatedAt sessionFile]. repeat split.
    destruct (nonEmpty _) eqn:E; [|by eexists].
    match goal with |- is_Some ?f => destruct f; [by eexists|done] end.
  - intros k Hk Hl. unfold res, initSessionState. cbn [sessionStore].
    rewrite lookup_insert_ne by done. by apply migrateLegacy_other.
  - intros legacy moved Hl Hne Hm.
    assert (sessionStore res !! legacy = migrateLegacy i st !! legacy) as ->.
    { unfold res, initSessionState. cbn [sessionStore].
      by rewrite lookup_insert_ne. }
    unfold migrateLegacy. rewrite Hl, bool_decide_eq_true_2, Hm by done.
    split.
    + intros Hk. rewrite Hk.
      rewrite lookup_insert_eq, lookup_insert_ne by done.
      by rewrite lookup_delete_eq.
    + intros kept Hk. by rewrite Hk, Hm.
Qed.

(** X24. a message that arrives within the idle window, without a reset
    trigger, continues the session: the entry keeps its session id, its
    level and model overrides, its last destination and its transcript
    file, and only the time stamp moves to now. *)
Theorem session_continues_within_idle_window (i : InitInput)
    (st : gmap string SessionEntry) (entry : SessionEntry) :
  migrateLegacy i st !! resolvedKey i = Some entry ->
  clock i - updatedAt entry <= idleMinutes i * 60000 ->
  resetTriggered i = false ->
  let res := initSessionState forkSessionFromParent resolveSessionTranscriptPath i st in
  isNewSession res = false
  /\ resultSessionId res = sessionId entry
  /\ sessionStore res !! resolvedKey i
     = Some {| sessionId := sessionId entry;
               updatedAt := clock i;
               sessionFile :=
                 if nonEmpty (sessionFile entry) then sessionFile entry
                 else Some (resolveSessionTranscriptPath (sessionId entry));
               systemSent := Some (default false (systemSent entry));
               abortedLastRun := Some (default false (abortedLastRun entry));
               thinkingLevel := thinkingLevel entry;
               verboseLevel := verboseLevel entry;
               modelOverride := modelOverride entry;
               providerOverride := providerOverride entry;
               lastTo := lastTo entry |}.
Proof.
  intros He Hf Hr res. unfold res, initSessionState.
  rewrite He, Hr. unfold freshEntry.
  replace (clock i - updatedAt entry <=? idleMinutes i * 60000) with true
    by (symmetry; by apply Z.leb_le).
  cbn [negb andb isNewSession resultSessionId sessionStore mbind option_bind].
  assert (forall A (x : option A), match x with Some v => Some v | None => x end = x)
    as Hself by (by intros A [v|]).
  rewrite !Hself.
  destruct (parentSessionKey i) as [parent|]; cbn [andb];
    rewrite lookup_insert_eq; cbn [sessionId updatedAt sessionFile systemSent
      abortedLastRun thinkingLevel verboseLevel modelOverride providerOverride lastTo];
    rewrite ?Hself; done.
Qed.

(** X25. a session starts anew exactly when a reset trigger fired or the
    entry is missing or stale. The entry stored then has [systemSent] and
    [abortedLastRun] set to false and no [thinkingLevel], [verboseLevel],
    [modelOverride] or [providerOverride], whatever the old entry held:
    the entry literal names these members. [lastTo], which the literal
    does not name, is carried over from the old entry by the merge into
    the store. Without a parent session the entry gets the fresh random
    id and the transcript file of that id. *)
Theorem new_session_starts_clean (i : InitInput) (st : gmap string SessionEntry) :
  let res := initSessionState forkSessionFromParent resolveSessionTranscriptPath i st in
  (isNewSession res = true <->
   resetTriggered i = true
   \/ freshEntry i (migrateLegacy i st !! resolvedKey i) = false)
  /\ (isNewSession res = true ->
      exists stored,
        sessionStore res !! resolvedKey i = Some stored
        /\ systemSent stored = Some false
        /\ abortedLastRun stored = Some false
        /\ thinkingLevel stored = None
        /\ verboseLevel stored = None
        /\ modelOverride stored = None
        /\ providerOverride stored = None
        /\ lastTo stored = migrateLegacy i st !! resolvedKey i ≫= lastTo
        /\ (parentSessionKey i = None ->
            sessionId stored = randomUUID i
            /\ sessionFile stored
               = Some (resolveSessionTranscriptPath (randomUUID i)))).
Proof.
  intros res.
  assert (isNewSession res
          = negb (negb (resetTriggered i)
                  && freshEntry i (migrateLegacy i st !! resolvedKey i))) as Hnew.
  { unfold res, initSessionState. cbn [isNewSession].
    destruct (resetTriggered i); [done|]. cbn [negb andb].
    by destruct (freshEntry i _). }
  split.
  - rewrite Hnew. destruct (resetTriggered i), (freshEntry i _); cbn; intuition.
  - rewrite Hnew. intros Hn. apply negb_true_iff in Hn.
    unfold res, initSessionState. rewrite Hn.
    cbn [sessionStore negb andb]. rewrite lookup_insert_eq.
    eexists. split; [reflexivity|].
    cbn [systemSent abortedLastRun thinkingLevel verboseLevel modelOverride
         providerOverride lastTo sessionId sessionFile updatedAt mbind option_bind].
    do 7 (split; [done|]). intros Hp. rewrite Hp. cbn.
    by destruct (migrateLegacy i st !! resolvedKey i).
Qed.

End Init.

Lemma init_records_one_session_witness :
  migrateLegacy MoreSamples.groupMessage {[ "group:1@g.us" := Samples.entryAt 0 ]}
  !! "agent:main:whatsapp:group:1@g.us"
  = Some (Samples.entryAt 0)
  /\ sessionStore
       (initSessionState Samples.noFork Samples.transcriptOf MoreSamples.groupMessage
          {[ "group:1@g.us" := Samples.entryAt 0 ]})
     !! "group:1@g.us"
     = None.
Proof.
  apply (proj2 (proj2 (init_records_one_session Samples.noFork Samples.transcriptOf
                         MoreSamples.groupMessage
                         {[ "group:1@g.us" := Samples.entryAt 0 ]}))
           "group:1@g.us" (Samples.entryAt 0)).
  - reflexivity.
  - discriminate.
  - reflexivity.
  - reflexivity.
Defined.

Lemma session_continues_within_idle_window_witness :
  resultSessionId
    (initSessionState Samples.noFork Samples.transcriptOf MoreSamples.groupMessage
       {[ "group:1@g.us" := Samples.entryAt 0 ]})
  = "s-old".
Proof.
  apply (session_continues_within_idle_window Samples.noFork Samples.transcriptOf
           MoreSamples.groupMessage {[ "group:1@g.us" := Samples.entryAt 0 ]}
           (Samples.entryAt 0)).
  - reflexivity.
  - vm_compute. discriminate.
  - reflexivity.
Defined.

Lemma new_session_starts_clean_witness :
  exists stored,
    sessionStore
      (initSessionState Samples.noFork Samples.transcriptOf MoreSamples.groupReset
         {[ "group:1@g.us" := Samples.entryAt 0 ]})
    !! "agent:main:whatsapp:group:1@g.us"
    = Some stored
    /\ sessionId stored = "s-new"
    /\ systemSent stored = Some false.
Proof.
  destruct (proj2 (new_session_starts_clean Samples.noFork Samples.transcriptOf
                     MoreSamples.groupReset
                     {[ "group:1@g.us" := Samples.entryAt 0 ]})
              ltac:(reflexivity))
    as (stored & Hs & Hsent & _ & _ & _ & _ & _ & _ & Hid).
  exists stored. split; [exact Hs|]. split; [|exact Hsent].
  apply Hid. reflexivity.
Defined.

End SessionLifecycleMore.

(** ** The inline [/queue] directive *)
Module QueueDirectiveFacts.

Import JsText FollowupQueue QueueConfig QueueDirective.
Import JsFacts JsTextFacts QueueConfigFacts FollowupQueueMore.

#[local] Arguments lit : simpl never.
#[local] Arguments trim : simpl never.

(** A token that is taken leaves less text than there was. *)
Lemma takeToken_shorter rest token rest' :
  takeToken rest = Some (token, rest') -> (length rest' < length rest)%nat.
Proof.
  unfold takeToken. destruct rest as [|c rest0] eqn:E; [done|]. rewrite <- E.
  destruct (takeWhile _ rest) as [|t ts] eqn:Et; [done|]. cbn [nonEmpty negb].
  intros [= <- <-].
  pose proof (dropWhile_length isWhite (drop (length (t :: ts)) rest)) as H1.
  rewrite length_drop in H1. rewrite E in H1. rewrite E.
  cbn [length drop] in *. lia.
Qed.

Section Parse.

Variable toLowerCase : jsstring -> jsstring.
Variable parseDurationMs : jsstring -> option JsNumber.
Variable toNumber : jsstring -> JsNumber.

Lemma parseQueueCap_valid raw c :
  parseQueueCap toNumber raw = Some c -> 1 <= c.
Proof.
  unfold parseQueueCap. destruct (negb (truthy raw)); [done|].
  destruct (toNumber _) as [| |q]; try done.
  destruct (floorQ q <? 1) eqn:E; [done|]. intros [= <-]. by apply Z.ltb_ge.
Qed.

Lemma parseQueueDebounce_valid raw n :
  parseQueueDebounce parseDurationMs raw = Some (RoundedTo n) -> 0 <= n.
Proof.
  unfold parseQueueDebounce. destruct (negb (truthy raw)); [done|].
  destruct (parseDurationMs _) as [[| [|] |q]|]; try done.
  destruct (isZeroQ q || isNegativeQ q) eqn:E; [done|]. intros [= <-].
  apply orb_false_iff in E as [_ E]. unfold isNegativeQ in E.
  apply negb_false_iff, QArith_base.Qle_bool_iff in E.
  unfold roundQ.
  change 0 with (Qround.Qfloor (QArith_base.Qmake 0 1)).
  apply Qround.Qfloor_resp_le.
  destruct q as [a b]. unfold QArith_base.Qle, QArith_base.Qplus in *.
  simpl in *. lia.
Qed.

Lemma tokenLoop_valid fuel len rest args :
  (length rest <= len)%nat -> validArgs len args ->
  validArgs len (tokenLoop toLowerCase parseDurationMs toNumber fuel len rest args).
Proof.
  revert rest args. induction fuel as [|fuel IH]; intros rest args Hlen Hv; [done|].
  cbn [tokenLoop]. destruct (negb (nonEmpty rest)); [done|].
  destruct (takeToken rest) as [[token rest']|] eqn:Et; [|done].
  pose proof (takeToken_shorter rest token rest' Et) as Hshort.
  destruct Hv as (Hc & Hd & Hm & Hcons).
  destruct (oneOf _ _).
  { repeat split; try done. cbn [consumed at_]. lia. }
  destruct (_ || _).
  { apply IH; [lia|]. repeat split; cbn [cap debounceMs queueMode consumed at_];
      try done; [apply parseQueueDebounce_valid|lia]. }
  destruct (_ || _).
  { apply IH; [lia|]. repeat split; cbn [cap debounceMs queueMode consumed at_];
      try done; [apply parseQueueCap_valid|lia]. }
  destruct (_ || _).
  { apply IH; [lia|]. repeat split; cbn [cap debounceMs queueMode consumed at_];
      try done; lia. }
  destruct (normalizeQueueMode toLowerCase (Some token)) as [m|] eqn:Em; [|done].
  apply IH; [lia|]. repeat split; cbn [cap debounceMs queueMode consumed at_];
    try done; [|lia].
  rewrite <- Em. apply normalizeQueueMode_not_legacy.
Qed.

(** The loop has come to its end within [S (length rest)] passes: more
    passes give the same result. *)
Lemma tokenLoop_fuel fuel fuel' len rest args :
  (length rest < fuel)%nat -> (length rest < fuel')%nat ->
  tokenLoop toLowerCase parseDurationMs toNumber fuel len rest args
  = tokenLoop toLowerCase parseDurationMs toNumber fuel' len rest args.
Proof.
  revert fuel' rest args. induction fuel as [|fuel IH]; intros fuel' rest args H1 H2;
    [lia|].
  destruct fuel' as [|fuel']; [lia|]. cbn [tokenLoop].
  destruct (negb (nonEmpty rest)); [done|].
  destruct (takeToken rest) as [[token rest']|] eqn:Et; [|done].
  pose proof (takeToken_shorter rest token rest' Et) as Hshort.
  destruct (oneOf _ _); [done|].
  destruct (_ || _); [apply IH; lia|].
  destruct (_ || _); [apply IH; lia|].
  destruct (_ || _); [apply IH; lia|].
  destruct (normalizeQueueMode toLowerCase (Some token)); [apply IH; lia|done].
Qed.

Lemma parseQueueDirectiveArgs_valid raw :
  validArgs (length raw) (parseQueueDirectiveArgs toLowerCase parseDurationMs toNumber raw).
Proof.
  unfold parseQueueDirectiveArgs. cbv zeta.
  set (rest := match dropWhile isWhite raw with
               | [] => dropWhile isWhite raw
               | c :: rest' =>
                   if (c =? COLON)%N then dropWhile isWhite rest'
                   else dropWhile isWhite raw
               end).
  assert (length rest <= length raw)%nat as Hlen.
  { unfold rest. pose proof (dropWhile_length isWhite raw) as H.
    destruct (dropWhile isWhite raw) as [|c rest'] eqn:E; [simpl; lia|].
    destruct (c =? COLON)%N; [|done].
    pose proof (dropWhile_length isWhite rest'). simpl in *. lia. }
  apply tokenLoop_valid; [done|].
  repeat split; cbn [cap debounceMs queueMode consumed noArgs]; try done. lia.
Qed.

(** X26. whatever the message, the text that [extractQueueDirective]
    leaves is trimmed, and with a directive found also free of runs of
    white space; a cap it reports is at least 1, a finite debounce time at
    least 0, the mode never the legacy one, and it counts no more units as
    consumed than the message has. Without a directive it reports nothing
    but the trimmed message. *)
Theorem queue_directive_reports_valid_values (body : option jsstring) :
  let d := extractQueueDirective toLowerCase parseDurationMs toNumber body in
  trim (cleaned d) = cleaned d
  /\ (hasDirective d = true -> collapseWhite (cleaned d) = cleaned d)
  /\ (forall c, cap (parsed d) = Some c -> 1 <= c)
  /\ (forall n, debounceMs (parsed d) = Some (RoundedTo n) -> 0 <= n)
  /\ queueMode (parsed d) <> Some QueueLegacy
  /\ (consumed (parsed d) <= length (default [] body))%nat
  /\ (hasDirective d = false ->
      parsed d = noArgs 0 /\ cleaned d = trim (default [] body)).
Proof.
  intros d. unfold d, extractQueueDirective.
  destruct (negb (truthy body)) eqn:Hb.
  { cbn [cleaned hasDirective parsed noArgs cap debounceMs queueMode consumed].
    repeat split; try done; try lia.
    destruct body as [[|c b]|]; done. }
  destruct (findDirective 0 (default [] body)) as [[index matched]|].
  2:{ cbn [cleaned hasDirective parsed noArgs cap debounceMs queueMode consumed].
      repeat split; try done; try lia. apply trim_idem. }
  cbv zeta. cbn [cleaned hasDirective parsed].
  match goal with
  | |- context [parseQueueDirectiveArgs _ _ _ ?a] =>
      pose proof (parseQueueDirectiveArgs_valid a) as (Hc & Hd & Hm & Hcons);
      set (args := a) in *
  end.
  split; [apply trim_idem|]. split.
  { intros _. apply singleSpaces_fixed, singleSpaces_trim, collapseFrom_single. }
  repeat split; try done.
  etransitivity; [exact Hcons|].
  unfold args, sliceFrom. rewrite length_drop. lia.
Qed.

(** *** A directive in lower case *)

Lemma directiveAt_slash s : directiveAt s = true -> head s = Some 47%N.
Proof.
  unfold directiveAt. rewrite andb_true_iff, bool_decide_eq_true. intros [H _].
  destruct s as [|c s]; [done|]. simpl in H. injection H as H _.
  simpl. f_equal. destruct (isUpper c) eqn:E; [|done].
  unfold isUpper in E. apply andb_true_iff in E as [E1 E2].
  apply N.leb_le in E1, E2. lia.
Qed.

Lemma directiveAt_lower args :
  directiveEnds args = true -> directiveAt (lit "/queue" ++ args) = true.
Proof.
  intros H. unfold directiveAt.
  change (take 6 (lit "/queue" ++ args)) with (lit "/queue").
  change (drop 6 (lit "/queue" ++ args)) with args.
  by rewrite H, bool_decide_eq_true_2.
Qed.

Lemma findDirective_head s :
  directiveAt s = true -> findDirective 0 s = Some (0%nat, take 6 s).
Proof. intros H. destruct s; cbn [findDirective Nat.eqb andb]; by rewrite H. Qed.

(** Where the first match is found when no slash comes before the
    directive. *)
Lemma findDirective_after index pre c rest :
  47%N ∉ pre -> isWhite c = true -> directiveAt rest = true ->
  findDirective index (pre ++ c :: rest)
  = Some ((index + length pre)%nat, c :: take 6 rest).
Proof.
  intros Hpre Hc Hrest. revert index.
  induction pre as [|x pre IH]; intros index.
  - cbn [app findDirective].
    assert (directiveAt (c :: rest) = false) as ->.
    { apply not_true_is_false. intros H%directiveAt_slash. simpl in H.
      injection H as ->. by vm_compute in Hc. }
    rewrite andb_false_r, Hc, Hrest. cbn [andb length].
    by rewrite Nat.add_0_r.
  - apply not_elem_of_cons in Hpre as [Hx Hpre].
    cbn [app findDirective].
    assert (directiveAt (x :: pre ++ c :: rest) = false) as ->.
    { apply not_true_is_false. intros H%directiveAt_slash. simpl in H. congruence. }
    rewrite andb_false_r.
    assert (directiveAt (pre ++ c :: rest) = false) as ->.
    { apply not_true_is_false. intros H%directiveAt_slash.
      destruct pre as [|y pre]; simpl in H.
      - injection H as ->. by vm_compute in Hc.
      - injection H as ->. apply Hpre. by left. }
    rewrite andb_false_r, (IH Hpre). f_equal. f_equal. simpl. lia.
Qed.

Lemma startsWith_short (s p : jsstring) :
  (length s < length p)%nat -> startsWith s p = false.
Proof.
  revert s. induction p as [|c p IH]; intros s H; [simpl in H; lia|].
  destruct s as [|d s]; [done|]. cbn [startsWith].
  rewrite IH by (simpl in H; lia). apply andb_false_r.
Qed.

Lemma indexOfFrom_short index (s p : jsstring) :
  (length s < length p)%nat -> indexOfFrom index s p = -1.
Proof.
  revert index. induction s as [|d s IH]; intros index H.
  - cbn [indexOfFrom]. by rewrite startsWith_short.
  - cbn [indexOfFrom]. rewrite startsWith_short by done.
    apply IH. simpl in H. lia.
Qed.

(** [indexOf] finds no lower-case directive in a match that is not in
    lower case. *)
Lemma indexOf_other_case c word :
  isWhite c = true -> length word = 6%nat -> word <> lit "/queue" ->
  indexOfFrom 0 (c :: word) (lit "/queue") = -1.
Proof.
  intros Hc Hlen Hword. cbn [indexOfFrom].
  assert (startsWith (c :: word) (lit "/queue") = false) as ->.
  { apply not_true_is_false. intros H. apply startsWith_split in H as (t & H).
    injection H as -> _. by vm_compute in Hc. }
  destruct word as [|w word]; [done|]. cbn [indexOfFrom].
  assert (startsWith (w :: word) (lit "/queue") = false) as ->.
  { apply not_true_is_false. intros H. apply startsWith_split in H as (t & H).
    destruct t as [|t0 t].
    - by rewrite app_nil_r in H.
    - rewrite H, length_app in Hlen. simpl in Hlen. lia. }
  apply indexOfFrom_short. simpl in *. lia.
Qed.

Lemma drop_min {A} (n : nat) (l : list A) : drop (Nat.min n (length l)) l = drop n l.
Proof.
  destruct (Nat.le_ge_cases n (length l)) as [H|H].
  - by rewrite Nat.min_l.
  - rewrite Nat.min_r by done. rewrite !drop_ge; [done|lia|lia].
Qed.

(** X27. a [/queue] directive in lower case that stands at the head of
    the message, or after white space with no slash before it, is cut out
    of the message together with the arguments it consumed, and the fields
    reported are those parsed from the text behind it. *)
Theorem lower_case_directive_is_cut_out (pre args : jsstring) :
  47%N ∉ pre ->
  (pre = [] \/ exists p c, pre = p ++ [c] /\ isWhite c = true) ->
  directiveEnds args = true ->
  let parsedArgs := parseQueueDirectiveArgs toLowerCase parseDurationMs toNumber args in
  extractQueueDirective toLowerCase parseDurationMs toNumber
    (Some (pre ++ lit "/queue" ++ args))
  = {| cleaned :=
         trim (collapseWhite (pre ++ lit " " ++ drop (consumed parsedArgs) args));
       hasDirective := true;
       parsed := parsedArgs |}.
Proof.
  intros Hpre Hshape Hend parsedArgs.
  set (body := pre ++ lit "/queue" ++ args).
  assert (exists index matched,
            findDirective 0 body = Some (index, matched)
            /\ Z.of_nat index + indexOfFrom 0 matched (lit "/queue")
               = Z.of_nat (length pre)) as (index & matched & Hfind & Hstart).
  { destruct Hshape as [->|(p & c & -> & Hc)].
    - exists 0%nat, (lit "/queue"). split; [|done].
      unfold body. cbn [app].
      by rewrite findDirective_head by (by apply directiveAt_lower).
    - exists (length p), (c :: lit "/queue"). split.
      + unfold body. rewrite <- app_assoc. cbn [app].
        rewrite (findDirective_after 0 p c (lit "/queue" ++ args));
          [done| |done|by apply directiveAt_lower].
        intros H. apply Hpre, elem_of_app. by left.
      + rewrite length_app. cbn [length].
        assert (indexOfFrom 0 (c :: lit "/queue") (lit "/queue") = 1) as ->.
        { cbn [indexOfFrom].
          assert (startsWith (c :: lit "/queue") (lit "/queue") = false) as ->.
          { apply not_true_is_false. intros H. apply startsWith_split in H as (t & H).
            injection H as -> _. by vm_compute in Hc. }
          reflexivity. }
        lia. }
  unfold extractQueueDirective. fold body.
  assert (truthy (Some body) = true) as ->.
  { unfold body. destruct pre; [done|done]. }
  cbn [negb]. change (default [] (Some body)) with body.
  rewrite Hfind. cbv zeta. rewrite Hstart.
  change (Z.of_nat (length (lit "/queue"))) with 6.
  assert (length body = (length pre + 6 + length args)%nat) as Hlen.
  { unfold body. rewrite !length_app. simpl. lia. }
  assert (sliceFrom body (Z.of_nat (length pre) + 6) = args) as Hargs.
  { unfold sliceFrom, sliceIndex.
    replace (Z.of_nat (length pre) + 6 <? 0) with false by (symmetry; apply Z.ltb_ge; lia).
    rewrite drop_min. replace (Z.to_nat _) with (length pre + 6)%nat by lia.
    unfold body. rewrite app_assoc, drop_app_length'; [done|].
    rewrite length_app. simpl. lia. }
  rewrite Hargs. fold parsedArgs. f_equal. f_equal. f_equal.
  assert (slice body 0 (Z.of_nat (length pre)) = pre) as ->.
  { unfold slice, sliceIndex. cbn [Z.ltb Z.compare Z.to_nat Nat.min].
    replace (Z.of_nat (length pre) <? 0) with false by (symmetry; apply Z.ltb_ge; lia).
    rewrite Nat2Z.id, Nat.min_l by lia. rewrite Nat.sub_0_r.
    change (Z.to_nat 0) with 0%nat. rewrite Nat.min_0_l, drop_0.
    unfold body. by rewrite take_app_length. }
  f_equal. f_equal.
  unfold sliceFrom, sliceIndex.
  replace (_ <? 0) with false by (symmetry; apply Z.ltb_ge; lia).
  rewrite drop_min.
  replace (Z.to_nat _) with ((length pre + 6) + consumed parsedArgs)%nat by lia.
  rewrite <- drop_drop. f_equal.
  unfold body. rewrite app_assoc, drop_app_length'; [done|].
  rewrite length_app. simpl. lia.
Qed.

(** X28. a directive written with an upper-case letter is matched as
    well, but [indexOf] does not find it in the match. After white space
    the cut then starts and ends two units early: it takes the unit
    before the white space with it, and it leaves the last two letters of
    the directive, which are read as its arguments. *)
Theorem directive_in_other_case_is_cut_two_units_early
    (p : jsstring) (x c : N) (word args : jsstring) :
  47%N ∉ p -> x <> 47%N -> isWhite c = true ->
  length word = 6%nat -> lowerAscii word = lit "/queue" -> word <> lit "/queue" ->
  directiveEnds args = true ->
  let parsedArgs :=
    parseQueueDirectiveArgs toLowerCase parseDurationMs toNumber
      (drop 4 word ++ args) in
  extractQueueDirective toLowerCase parseDurationMs toNumber
    (Some (p ++ x :: c :: word ++ args))
  = {| cleaned :=
         trim (collapseWhite
                 (p ++ lit " " ++ drop (consumed parsedArgs) (drop 4 word ++ args)));
       hasDirective := true;
       parsed := parsedArgs |}.
Proof.
  intros Hp Hx Hc Hlen Hlower Hword Hend parsedArgs.
  set (body := p ++ x :: c :: word ++ args).
  assert (directiveAt (word ++ args) = true) as Hat.
  { unfold directiveAt. rewrite take_app_length', drop_app_length' by done.
    by rewrite Hend, bool_decide_eq_true_2. }
  assert (findDirective 0 body = Some (S (length p), c :: word)) as Hfind.
  { unfold body. change (p ++ x :: c :: word ++ args)
      with (p ++ [x] ++ c :: word ++ args). rewrite app_assoc.
    rewrite (findDirective_after 0 (p ++ [x]) c (word ++ args)); [| |done|done].
    2:{ intros [H|H]%elem_of_app; [done|].
        apply list_elem_of_singleton in H. congruence. }
    rewrite take_app_length' by done. rewrite length_app. cbn [length].
    f_equal. f_equal. lia. }
  unfold extractQueueDirective. fold body.
  assert (truthy (Some body) = true) as ->.
  { unfold body. destruct p; [done|done]. }
  cbn [negb]. change (default [] (Some body)) with body.
  rewrite Hfind. cbv zeta. rewrite (indexOf_other_case c word Hc Hlen Hword).
  change (Z.of_nat (length (lit "/queue"))) with 6.
  assert (length body = (length p + 8 + length args)%nat) as Hbody.
  { unfold body. rewrite length_app. cbn [length]. rewrite length_app. lia. }
  assert (drop (length p + 6) body = drop 4 word ++ args) as Htail.
  { unfold body. rewrite <- drop_drop, drop_app_length. cbn [drop].
    rewrite drop_app_le by lia. done. }
  assert (sliceFrom body (Z.of_nat (S (length p)) + -1 + 6) = drop 4 word ++ args)
    as Hargs.
  { unfold sliceFrom, sliceIndex.
    replace (_ <? 0) with false by (symmetry; apply Z.ltb_ge; lia).
    rewrite drop_min. replace (Z.to_nat _) with (length p + 6)%nat by lia.
    exact Htail. }
  rewrite Hargs. fold parsedArgs. f_equal. f_equal. f_equal.
  assert (slice body 0 (Z.of_nat (S (length p)) + -1) = p) as ->.
  { unfold slice, sliceIndex. cbn [Z.ltb Z.compare].
    replace (_ <? 0) with false by (symmetry; apply Z.ltb_ge; lia).
    replace (Z.to_nat (Z.of_nat (S (length p)) + -1)) with (length p) by lia.
    rewrite Nat.min_l by lia. rewrite Nat.sub_0_r.
    change (Z.to_nat 0) with 0%nat. rewrite Nat.min_0_l, drop_0.
    unfold body. by rewrite take_app_length. }
  f_equal. f_equal.
  unfold sliceFrom, sliceIndex.
  replace (_ <? 0) with false by (symmetry; apply Z.ltb_ge; lia).
  rewrite drop_min.
  replace (Z.to_nat _) with ((length p + 6) + consumed parsedArgs)%nat by lia.
  by rewrite <- drop_drop, Htail.
Qed.

End Parse.

Import MoreSamples.

Lemma lower_case_directive_is_cut_out_witness :
  extractQueueDirective lowerAscii digitsDuration digitsNumber
    (Some (lit "note /queue collect cap:3 drop:old debounce:250 hello"))
  = {| cleaned := lit "note hello"; hasDirective := true;
       parsed :=
         {| consumed := 37; queueMode := Some Collect; queueReset := false;
            rawMode := Some (lit "collect"); debounceMs := Some (RoundedTo 250);
            cap := Some 3; dropPolicy := Some DropOld;
            rawDebounce := Some (lit "250"); rawCap := Some (lit "3");
            rawDrop := Some (lit "old"); hasOptions := true |} |}.
Proof.
  apply (lower_case_directive_is_cut_out lowerAscii digitsDuration digitsNumber
           (lit "note ") (lit " collect cap:3 drop:old debounce:250 hello")).
  - apply (bool_decide_unpack _). vm_compute. exact I.
  - right. exists (lit "note"), 32%N. split; reflexivity.
  - reflexivity.
Defined.

Lemma directive_in_other_case_is_cut_two_units_early_witness :
  extractQueueDirective lowerAscii digitsDuration digitsNumber
    (Some (lit "note /QUEUE collect hello"))
  = {| cleaned := lit "not UE collect hello"; hasDirective := true;
       parsed := noArgs 0 |}.
Proof.
  apply (directive_in_other_case_is_cut_two_units_early lowerAscii digitsDuration
           digitsNumber (lit "not") 101%N 32%N (lit "/QUEUE") (lit " collect hello")).
  - apply (bool_decide_unpack _). vm_compute. exact I.
  - discriminate.
  - reflexivity.
  - reflexivity.
  - reflexivity.
  - discriminate.
  - reflexivity.
Defined.

End QueueDirectiveFacts.
